(** * ozzo-config: a shallow embedding of [config.go] and [configure.go]

    The package keeps a configuration as a tree of Go values
    ([map[string]interface{}], [[]interface{}], scalars), merges several
    such trees, reads and writes them through dotted paths, and binds
    them onto typed Go values through [reflect].

    - Go maps are reference objects: [merge] and [Set] write into the map
      they are handed.  The configuration tree therefore lives in a store
      of map objects, and a map value is a reference into it.
    - The bind engine ([configure] and its handlers) only reads the
      configuration and writes the target; it is modelled over immutable
      trees of typed Go values, with the recursion depth as fuel.
    - What [reflect] itself decides (the order of [MapKeys], which types
      convert to which, and the converted value) is a parameter, the
      class [Reflect]; one instance covering the basic kinds is used to
      run the examples.

    The configuration tree holds what the decoders produce and what [Set]
    stores: nil, scalars, [[]interface{}] and [map[string]interface{}].
    Typed values are bools, integers, [float64] (a float is its exact
    rational value), strings, pointers, arrays, slices, string-keyed maps,
    structs and interfaces.  Outside the model: [float32], complex numbers,
    channels and functions as values, defined types over basic kinds,
    embedded fields, recursive types, and two pointers or slices sharing
    one target.  A provider is taken to return the same values at every
    call. *)

From Stdlib Require Import QArith Ascii String.
From stdpp Require Import gmap strings list fin_maps pretty.

Open Scope string_scope.
Open Scope list_scope.
Open Scope Z_scope.

#[local] Set Warnings "-register-all".

(** ** Strings: [strings.Split], [strings.Join], [strconv.Atoi], [strconv.Itoa] *)

(** [strings.Split(s, ".")]: never empty, [Split "" = [""]]. *)
Fixpoint Split (s : string) : list string :=
  match s with
  | EmptyString => [EmptyString]
  | String c s' =>
      if Ascii.eqb c "."%char then EmptyString :: Split s'
      else match Split s' with
           | [] => [String c EmptyString]
           | p :: ps => String c p :: ps
           end
  end.

(** [strings.Join(parts, ".")]. *)
Fixpoint Join (parts : list string) : string :=
  match parts with
  | [] => ""
  | [p] => p
  | p :: ps => p +:+ "." +:+ Join ps
  end.

Definition digit (c : ascii) : option Z :=
  let n := Z.of_nat (nat_of_ascii c) in
  if (48 <=? n) && (n <=? 57) then Some (n - 48) else None.

Fixpoint digits (s : string) (acc : Z) : option Z :=
  match s with
  | EmptyString => Some acc
  | String c s' =>
      match digit c with
      | Some d => digits s' (10 * acc + d)
      | None => None
      end
  end.

(** [strconv.Atoi]: an optional sign, then one or more decimal digits; the
    value must fit the 64-bit [int]. *)
Definition Atoi (s : string) : option Z :=
  match s with
  | EmptyString => None
  | String c s' =>
      let '(neg, body) :=
        if Ascii.eqb c "-"%char then (true, s')
        else if Ascii.eqb c "+"%char then (false, s')
        else (false, s) in
      match body with
      | EmptyString => None
      | _ =>
          match digits body 0 with
          | Some n =>
              let z := if neg then - n else n in
              if (- 2 ^ 63 <=? z) && (z <? 2 ^ 63) then Some z else None
          | None => None
          end
      end
  end.

(** [strconv.Itoa] on a loop index. *)
Definition Itoa (i : nat) : string := pretty i.

(** ** Kinds, types and values *)

(** [reflect.Kind], for the kinds the model has values of. *)
Inductive Kind :=
  | KInvalid | KBool | KInt | KInt8 | KInt16 | KInt32 | KInt64
  | KUint | KUint8 | KUint16 | KUint32 | KUint64 | KUintptr
  | KFloat64 | KString
  | KPtr | KArray | KSlice | KMap | KStruct | KInterface | KFunc.

Global Instance Kind_eq_dec : EqDecision Kind.
Proof. solve_decision. Defined.

(** The integer types. *)
Inductive ikind :=
  | Int | Int8 | Int16 | Int32 | Int64
  | Uint | Uint8 | Uint16 | Uint32 | Uint64 | Uintptr.

Global Instance ikind_eq_dec : EqDecision ikind.
Proof. solve_decision. Defined.

Definition ikind_Kind (k : ikind) : Kind :=
  match k with
  | Int => KInt | Int8 => KInt8 | Int16 => KInt16 | Int32 => KInt32
  | Int64 => KInt64 | Uint => KUint | Uint8 => KUint8 | Uint16 => KUint16
  | Uint32 => KUint32 | Uint64 => KUint64 | Uintptr => KUintptr
  end.

(** A scalar: a bool, an integer of some integer type, a [float64] (by its
    exact rational value) or a string. *)
Inductive prim :=
  | PBool (b : bool)
  | PInt (k : ikind) (z : Z)
  | PFloat (q : Q)
  | PString (s : string).

(** [reflect.Type].  A struct type lists its fields (name, exported, type)
    and the method set of its pointer type; an interface type lists the
    methods it requires.  All map types are keyed by strings. *)
Inductive type :=
  | TBool
  | TInt (k : ikind)
  | TFloat64
  | TString
  | TPtr (e : type)
  | TArray (n : nat) (e : type)
  | TSlice (e : type)
  | TMap (e : type)
  | TStruct (name : string) (fields : list (string * (bool * type)))
            (methods : list string)
  | TInterface (name : string) (methods : list string).

Definition prim_type (p : prim) : type :=
  match p with
  | PBool _ => TBool
  | PInt k _ => TInt k
  | PFloat _ => TFloat64
  | PString _ => TString
  end.

Definition type_Kind (t : type) : Kind :=
  match t with
  | TBool => KBool
  | TInt k => ikind_Kind k
  | TFloat64 => KFloat64
  | TString => KString
  | TPtr _ => KPtr
  | TArray _ _ => KArray
  | TSlice _ => KSlice
  | TMap _ => KMap
  | TStruct _ _ _ => KStruct
  | TInterface _ _ => KInterface
  end.

(** [interface{}], the element type of every decoded container. *)
Definition TAny : type := TInterface "" [].

(** A typed Go value as the bind engine sees it, carrying its type the way
    a [reflect.Value] does.  A pointer owns what it points to; a slice has
    its elements up to [len] and its capacity; a map is [None] when nil; an
    interface slot is [None] when nil and otherwise holds a concrete
    value. *)
Inductive gv :=
  | GPrim (p : prim)
  | GPtr (e : type) (p : option gv)
  | GArray (e : type) (l : list gv)
  | GSlice (e : type) (cap : nat) (l : list gv)
  | GMap (e : type) (m : option (list (string * gv)))
  | GStruct (name : string) (methods : list string)
            (fields : list (string * (bool * gv)))
  | GInterface (name : string) (methods : list string) (x : option gv).

(** [reflect.Value.Type]. *)
Fixpoint typeof (v : gv) : type :=
  match v with
  | GPrim p => prim_type p
  | GPtr e _ => TPtr e
  | GArray e l => TArray (length l) e
  | GSlice e _ _ => TSlice e
  | GMap e _ => TMap e
  | GStruct name methods fields =>
      TStruct name
        (map (λ f : string * (bool * gv), (f.1, (f.2.1, typeof f.2.2))) fields)
        methods
  | GInterface name methods _ => TInterface name methods
  end.

(** [reflect.Zero]. *)
Fixpoint zero (t : type) : gv :=
  match t with
  | TBool => GPrim (PBool false)
  | TInt k => GPrim (PInt k 0)
  | TFloat64 => GPrim (PFloat 0)
  | TString => GPrim (PString "")
  | TPtr e => GPtr e None
  | TArray n e => GArray e (replicate n (zero e))
  | TSlice e => GSlice e 0 []
  | TMap e => GMap e None
  | TStruct name fields methods =>
      GStruct name methods
        (map (λ f : string * (bool * type), (f.1, (f.2.1, zero f.2.2))) fields)
  | TInterface name methods => GInterface name methods None
  end.


(** ** The configuration store ([config.go]) *)

(** A value of the configuration tree, as found under an [interface{}]:
    nil (the zero [reflect.Value] once unwrapped), a scalar, a
    [[]interface{}] with its capacity, or a reference to a
    [map[string]interface{}] object. *)
Definition loc := positive.

Inductive value :=
  | VNil
  | VPrim (p : prim)
  | VSlice (cap : nat) (l : list value)
  | VMap (l : loc).

(** The map objects.  A reference with no object stands for a nil map:
    reading it finds nothing, storing into it panics. *)
Abbreviation heap := (gmap loc (gmap string value)).

Definition Kind_of (v : value) : Kind :=
  match v with
  | VNil => KInvalid
  | VPrim p => type_Kind (prim_type p)
  | VSlice _ _ => KSlice
  | VMap _ => KMap
  end.

Definition IsValid (v : value) : bool :=
  match v with VNil => false | _ => true end.

Definition TypeOf (v : value) : type :=
  match v with
  | VNil => TAny
  | VPrim p => prim_type p
  | VSlice _ _ => TSlice TAny
  | VMap _ => TMap TAny
  end.

(** What the [reflect] package decides and the repository does not: the
    order in which [MapKeys] lists the keys of a map object (unspecified in
    Go, any order is allowed), and the conversion rules behind
    [Type.ConvertibleTo] and [Value.Convert], on configuration values and on
    typed values. *)
Class Reflect := {
  MapKeys : gmap string value → list string;
  MapKeys_perm : ∀ m, MapKeys m ≡ₚ (map_to_list m).*1;
  ConvertibleTo : type → type → bool;
  ConvertValue : value → type → value;
  Convert : gv → type → gv
}.

(** Outcome of an operation on the store: a result, a panic raised by
    [reflect] or the runtime, or the model running out of fuel. *)
Inductive res (A : Type) :=
  | Ok (a : A)
  | Panic (msg : string)
  | OutOfFuel.
Arguments Ok {A} a.
Arguments Panic {A} msg.
Arguments OutOfFuel {A}.

Global Instance res_ret : MRet res := λ A a, Ok a.

Global Instance res_bind : MBind res := λ A B f m,
  match m with
  | Ok a => f a
  | Panic msg => Panic msg
  | OutOfFuel => OutOfFuel
  end.

Fixpoint res_foldl {A B} (f : A → B → res A) (a : A) (l : list B) : res A :=
  match l with
  | [] => Ok a
  | b :: l' => a' ← f a b; res_foldl f a' l'
  end.

(** The keys and entries of the map object behind a reference. *)
Definition map_at (h : heap) (l : loc) : gmap string value :=
  default ∅ (h !! l).

(** [mapIndex]: the element under a key, with the interface around it
    removed; the zero [reflect.Value] when the key is absent or holds
    nil. *)
Definition mapIndex (h : heap) (l : loc) (index : string) : value :=
  default VNil (map_at h l !! index).

(** [reflect.Value.SetMapIndex]: deletes the key when the element is the
    zero [reflect.Value], which a nil map allows and is not changed by;
    stores the element otherwise, which panics on a nil map. *)
Definition SetMapIndex (h : heap) (l : loc) (key : string) (elem : value)
  : res heap :=
  match elem with
  | VNil =>
      match h !! l with
      | None => Ok h
      | Some m => Ok (<[l := delete key m]> h)
      end
  | _ =>
      match h !! l with
      | None => Panic "assignment to entry in nil map"
      | Some m => Ok (<[l := <[key := elem]> m]> h)
      end
  end.

(** What a failed [setElement] reports ([fmt.Errorf]), and what [Set]
    reports about the kind it met. *)
Inductive path_message :=
  | NotAnIndex (p : string)
  | OutOfSliceBound (p : string)
  | GotKind (k : Kind).

(** [ConfigPathError]. *)
Record ConfigPathError := {
  cpe_Path : string;
  cpe_Message : path_message
}.

(** A provider as [Register] keeps it: a function value, by the number of
    its arguments, whether the last of them is variadic, and the values a
    call without arguments returns. *)
Record provider := {
  NumIn : nat;
  IsVariadic : bool;
  Call : list gv
}.

Definition NumOut (f : provider) : nat := length (Call f).

(** The least number of arguments [reflect.Value.Call] takes: a variadic
    function can do without its last one. *)
Definition needed_args (f : provider) : nat :=
  if IsVariadic f then pred (NumIn f) else NumIn f.

(** [Config]: the data and the registered providers. *)
Record Config := {
  data : value;
  types : gmap string provider
}.

Section config_go.
Context `{Reflect}.

(** [merge]: unless both values are maps the update is returned as it is;
    otherwise every key of the update is written into the base map object,
    after merging the two elements when both are maps, and the base is
    returned. *)
Fixpoint merge (fuel : nat) (h : heap) (v1 v2 : value) : res (heap * value) :=
  match fuel with
  | O => OutOfFuel
  | S fuel' =>
      match v1, v2 with
      | VMap l1, VMap l2 =>
          h' ← res_foldl
                 (λ h key,
                    let e1 := mapIndex h l1 key in
                    let e2 := mapIndex h l2 key in
                    '(h, e2) ←
                       (match e1, e2 with
                        | VMap _, VMap _ => merge fuel' h e1 e2
                        | _, _ => Ok (h, e2)
                        end);
                    SetMapIndex h l1 key e2)
                 h (MapKeys (map_at h l2));
          Ok (h', VMap l1)
      | _, _ => Ok (h, v2)
      end
  end.

(** [getElement]: the element of a map or slice at an index given as a
    string, the zero [reflect.Value] when there is none. *)
Definition getElement (h : heap) (v : value) (p : string) : value :=
  match v with
  | VMap l => mapIndex h l p
  | VSlice _ els =>
      match Atoi p with
      | Some i =>
          if (0 <=? i) && (i <? Z.of_nat (length els))
          then default VNil (els !! Z.to_nat i)
          else VNil
      | None => VNil
      end
  | _ => VNil
  end.

(** [setElement].  On a map it writes the entry.  On a slice it rejects a
    bad index; for an index within the capacity it reaches [SetLen], which
    panics because a slice read out of an interface is not addressable. *)
Definition setElement (h : heap) (data : value) (p : string) (v : value)
  : res (heap * option path_message) :=
  match data with
  | VMap l => h' ← SetMapIndex h l p v; Ok (h', None)
  | VSlice cap _ =>
      match Atoi p with
      | None => Ok (h, Some (NotAnIndex p))
      | Some idx =>
          if idx <? 0 then Ok (h, Some (NotAnIndex p))
          else if Z.of_nat cap <=? idx then Ok (h, Some (OutOfSliceBound p))
          else Panic "reflect.Value.SetLen using unaddressable value"
      end
  | _ => Ok (h, None)
  end.

(** The lookup loop of [Get]: all segments but the last, then the last;
    [None] stands for the early [return d]. *)
Fixpoint Get_walk (h : heap) (data : value) (parts : list string)
  : option value :=
  match parts with
  | [] => None
  | [p] =>
      let v := getElement h data p in
      if IsValid v then Some v else None
  | p :: ps =>
      let data := getElement h data p in
      if IsValid data then Get_walk h data ps else None
  end.

(** [Get].  The default [d] is [VNil] when none, or nil, was given. *)
Definition Get (h : heap) (c : Config) (path : string) (d : value) : value :=
  match Get_walk h (data c) (Split path) with
  | None => d
  | Some v =>
      if IsValid d then
        if ConvertibleTo (TypeOf v) (TypeOf d)
        then ConvertValue v (TypeOf d)
        else d
      else v
  end.

Definition is_container (v : value) : bool :=
  match v with
  | VMap _ | VSlice _ _ => true
  | _ => false
  end.

(** The loop of [Set]: [done] are the segments already walked. *)
Fixpoint Set_walk (h : heap) (data : value) (done parts : list string)
    (path : string) (v : value) : res (heap * option ConfigPathError) :=
  match parts with
  | [] => Ok (h, None)
  | p :: ps =>
      if negb (is_container data) then
        Ok (h, Some {| cpe_Path := Join (done ++ [p]);
                       cpe_Message := GotKind (Kind_of data) |})
      else
        match ps with
        | [] =>
            '(h', err) ← setElement h data p v;
            match err with
            | Some m => Ok (h', Some {| cpe_Path := path; cpe_Message := m |})
            | None => Ok (h', None)
            end
        | _ =>
            let e := getElement h data p in
            if IsValid e then Set_walk h e (done ++ [p]) ps path v
            else
              let l := fresh (dom h) in
              let h1 := <[l := ∅]> h in
              '(h2, err) ← setElement h1 data p (VMap l);
              match err with
              | Some m =>
                  Ok (h2, Some {| cpe_Path := Join (done ++ [p]);
                                  cpe_Message := m |})
              | None => Set_walk h2 (VMap l) (done ++ [p]) ps path v
              end
        end
  end.

(** [Set]. *)
Definition Set_ (h : heap) (c : Config) (path : string) (v : value)
  : res (heap * Config * option ConfigPathError) :=
  let '(h, c) :=
    if IsValid (data c) then (h, c)
    else
      let l := fresh (dom h) in
      (<[l := ∅]> h, {| data := VMap l; types := types c |}) in
  '(h', err) ← Set_walk h (data c) [] (Split path) path v;
  Ok (h', c, err).

(** [SetData]: clears the data, then merges the given values in turn. *)
Definition SetData (fuel : nat) (h : heap) (c : Config) (ds : list value)
  : res (heap * Config) :=
  '(h', d) ← res_foldl (λ '(h, d) v, merge fuel h d v) (h, VNil) ds;
  Ok (h', {| data := d; types := types c |}).

End config_go.

(** ** The bind engine ([configure.go]) *)

(** What a [ConfigValueError] says ([fmt.Sprintf] on the key and the types
    involved). *)
Inductive value_message :=
  | MapCannotConfigure (t : type)
  | CannotConfigure (ct t : type)
  | FieldNotFound (k : string) (t : type)
  | FieldCannotBeSet (k : string)
  | MissingType
  | TypeMustBeString
  | TypeUnknown (name : string)
  | NotImplement (s t : type).

(** [ConfigValueError]. *)
Record ConfigValueError := {
  cve_Path : string;
  cve_Message : value_message
}.

(** What [Register] is handed as [interface{}]: nil, a function, or some
    other value. *)
Inductive anyvalue :=
  | AnyNil
  | AnyFunc (f : provider)
  | AnyValue (v : gv).

Definition any_Kind (a : anyvalue) : Kind :=
  match a with
  | AnyNil => KInvalid
  | AnyFunc _ => KFunc
  | AnyValue v => type_Kind (typeof v)
  end.

(** [ProviderError]. *)
Record ProviderError := { pe_Value : anyvalue }.

(** [reflect.Type.NumOut] of what [Register] is handed; only asked of a
    function. *)
Definition any_NumOut (a : anyvalue) : nat :=
  match a with
  | AnyFunc f => NumOut f
  | _ => 0
  end.

(** [Register]. *)
Definition Register (c : Config) (name : string) (provider : anyvalue)
  : Config * option ProviderError :=
  if negb (bool_decide (any_Kind provider = KFunc))
     || negb (any_NumOut provider =? 1)%nat
  then (c, Some {| pe_Value := provider |})
  else
    match provider with
    | AnyFunc f =>
        ({| data := data c; types := <[name := f]> (types c) |}, None)
    | _ => (c, Some {| pe_Value := provider |})
    end.

(** Outcome of a bind: the target as it is afterwards together with the
    names of the providers that were called, in order; a
    [ConfigValueError]; a panic; or the model running out of fuel.  What a
    failed bind has already written is not kept. *)
Inductive bres (A : Type) :=
  | Bound (a : A) (calls : list string)
  | Failed (e : ConfigValueError)
  | Panicked (msg : string)
  | NoFuel.
Arguments Bound {A} a calls.
Arguments Failed {A} e.
Arguments Panicked {A} msg.
Arguments NoFuel {A}.

Global Instance bres_ret : MRet bres := λ A a, Bound a [].

Global Instance bres_bind : MBind bres := λ A B f m,
  match m with
  | Bound a calls =>
      match f a with
      | Bound b calls' => Bound b (calls ++ calls')
      | r => r
      end
  | Failed e => Failed e
  | Panicked msg => Panicked msg
  | NoFuel => NoFuel
  end.

Global Instance bres_fmap : FMap bres := λ A B f m,
  match m with
  | Bound a calls => Bound (f a) calls
  | Failed e => Failed e
  | Panicked msg => Panicked msg
  | NoFuel => NoFuel
  end.

(** The value [reflect.New(e)] points to, followed through the pointers it
    contains, which are nil and get allocated in turn: the place reached,
    and the pointee rebuilt around a new content of that place. *)
Fixpoint alloc (e : type) : gv * (gv → gv) :=
  match e with
  | TPtr e' => let '(x, k) := alloc e' in (x, λ y, GPtr e' (Some (k y)))
  | _ => (zero e, λ y, y)
  end.

(** [indirect]: walks down pointers, allocating nil ones, and through an
    interface that holds a non-nil pointer.  Returns the place reached and
    the target rebuilt around a new content of that place. *)
Fixpoint indirect (v : gv) : gv * (gv → gv) :=
  match v with
  | GPtr e None =>
      let '(x, k) := alloc e in (x, λ y, GPtr e (Some (k y)))
  | GPtr e (Some x) =>
      let '(x', k) := indirect x in (x', λ y, GPtr e (Some (k y)))
  | GInterface name methods (Some (GPtr e (Some x))) =>
      let '(x', k) := indirect x in
      (x', λ y, GInterface name methods (Some (GPtr e (Some (k y)))))
  | _ => (v, λ y, y)
  end.

(** The loop [for config.Kind() == Interface || config.Kind() == Ptr]. *)
Fixpoint Elem_loop (config : gv) : option gv :=
  match config with
  | GInterface _ _ x | GPtr _ x =>
      match x with
      | Some y => Elem_loop y
      | None => None
      end
  | _ => Some config
  end.

(** The elements of a configuration array or slice. *)
Definition elements_of (config : gv) : list gv :=
  match config with
  | GArray _ l | GSlice _ _ l => l
  | _ => []
  end.

(** The entries of a configuration map; [MapKeys] lists them in the order
    they are given. *)
Definition entries_of (config : gv) : list (string * gv) :=
  match config with
  | GMap _ (Some m) => m
  | _ => []
  end.

Definition gv_MapKeys (config : gv) : list string := (entries_of config).*1.

Fixpoint assoc {A} (k : string) (l : list (string * A)) : option A :=
  match l with
  | [] => None
  | (k', a) :: l' => if String.eqb k k' then Some a else assoc k l'
  end.

Fixpoint assoc_set {A} (k : string) (a : A) (l : list (string * A))
  : list (string * A) :=
  match l with
  | [] => [(k, a)]
  | (k', a') :: l' =>
      if String.eqb k k' then (k, a) :: l' else (k', a') :: assoc_set k a l'
  end.

(** [mapIndex] on a configuration map. *)
Definition gv_mapIndex (config : gv) (index : string) : option gv :=
  match assoc index (entries_of config) with
  | Some (GInterface _ _ x) => x
  | r => r
  end.

(** The "type" field name. *)
Definition typeKey : string := "type".

(** The method set of the pointer to a value's type. *)
Definition Addr_methods (s : gv) : list string :=
  match s with
  | GStruct _ methods _ => methods
  | _ => []
  end.

(** The method set of a value's own type: the methods an interface type
    requires, and for a pointer those of the pointer to what it points
    to. *)
Definition Type_methods (v : gv) : list string :=
  match v with
  | GInterface _ methods _ => methods
  | GPtr _ (Some x) => Addr_methods x
  | _ => []
  end.

Definition Implements (have want : list string) : bool :=
  forallb (λ m, bool_decide (m ∈ have)) want.

(** The record of a call to the provider registered under a name. *)
Definition called (name : string) : bres () := Bound () [name].

(** The recursive call [c.configure], as the handlers see it. *)
Abbreviation binder := (gv → option gv → string → bres gv).

Section configure_go.
Context `{Reflect}.

(** The loop [for i := 0; i < n; i++] of [configureArray], from index [i]
    for [k] more rounds, over the elements of the target. *)
Fixpoint Index_loop (rec : binder) (cs : list gv) (path : string)
    (i k : nat) (l : list gv) : bres (list gv) :=
  match k with
  | O => mret l
  | S k' =>
      match l !! i, cs !! i with
      | Some x, Some c =>
          x' ← rec x (Some c) (path +:+ "." +:+ Itoa i);
          Index_loop rec cs path (S i) k' (<[i := x']> l)
      | _, _ => Panicked "reflect: index out of range"
      end
  end.

(** [configureArray]. *)
Definition configureArray (rec : binder) (v config : gv) (path : string)
  : bres gv :=
  match v with
  | GInterface name [] _ => mret (GInterface name [] (Some config))
  | GArray e l =>
      let n := length (elements_of config) in
      let n := if (length l <? n)%nat then length l else n in
      l' ← Index_loop rec (elements_of config) path 0 n l;
      if (n <? length l')%nat
      then mret (GArray e (take n l' ++ replicate (length l' - n) (zero e)))
      else mret (GArray e l')
  | GSlice e cap l =>
      let n := length (elements_of config) in
      let '(cap, l) :=
        if (cap <? n)%nat
        then (n, l ++ replicate (n - length l) (zero e))
        else (cap, l) in
      let n := if (cap <? n)%nat then cap else n in
      l' ← Index_loop rec (elements_of config) path 0 n l;
      if (n <? length l')%nat
      then mret (GSlice e cap (take n l'))
      else mret (GSlice e cap l')
  | _ =>
      Failed {| cve_Path := path;
                cve_Message := CannotConfigure (typeof config) (typeof v) |}
  end.

(** The loop of [configureMap] over the keys of the configuration. *)
Fixpoint Map_loop (rec : binder) (config : gv) (path : string) (e : type)
    (keys : list string) (m : list (string * gv)) : bres (list (string * gv)) :=
  match keys with
  | [] => mret m
  | k :: keys' =>
      mapElem ← rec (zero e) (gv_mapIndex config k) (path +:+ "." +:+ k);
      Map_loop rec config path e keys' (assoc_set k mapElem m)
  end.

(** [configureMap], on a target of kind map. *)
Definition configureMap (rec : binder) (v config : gv) (path : string)
  : bres gv :=
  match v with
  | GMap e m =>
      m' ← Map_loop rec config path e (gv_MapKeys config) (default [] m);
      mret (GMap e (Some m'))
  | _ => Panicked "reflect: call of reflect.Value.IsNil on a non-map value"
  end.

(** The loop of [configureStruct] over the keys of the configuration. *)
Fixpoint Struct_loop (rec : binder) (config : gv) (path : string)
    (keys : list string) (v : gv) : bres gv :=
  match keys with
  | [] => mret v
  | k :: keys' =>
      if String.eqb k typeKey then Struct_loop rec config path keys' v
      else
        match v with
        | GStruct name methods fields =>
            match assoc k fields with
            | None =>
                Failed {| cve_Path := path;
                          cve_Message := FieldNotFound k (typeof v) |}
            | Some (false, _) =>
                Failed {| cve_Path := path;
                          cve_Message := FieldCannotBeSet k |}
            | Some (true, field) =>
                field' ←
                  match field with
                  | GPtr e p =>
                      x ← rec (default (zero e) p) (gv_mapIndex config k)
                            (path +:+ "." +:+ k);
                      mret (GPtr e (Some x))
                  | _ =>
                      rec field (gv_mapIndex config k) (path +:+ "." +:+ k)
                  end;
                Struct_loop rec config path keys'
                  (GStruct name methods (assoc_set k (true, field') fields))
            end
        | _ => Panicked "reflect: call of reflect.Value.FieldByName on a non-struct value"
        end
  end.

(** [configureStruct]. *)
Definition configureStruct (rec : binder) (v config : gv) (path : string)
  : bres gv :=
  Struct_loop rec config path (gv_MapKeys config) v.

(** [configureInterface], on a target of kind interface.  The object of
    the provider is what [indirect] can walk into, a pointer that is not
    nil or an interface that holds one, or the call panics: [indirect]
    cannot set a nil pointer that is not addressable, nor can [Addr] be
    taken of any other value a call returns.  [v.Set(object)] panics when
    the type of the object, which for an interface is the result type the
    provider declares, does not have the methods of the slot. *)
Definition configureInterface (rec : binder) (types : gmap string provider)
    (v config : gv) (path : string) : bres gv :=
  match v with
  | GInterface name [] _ => mret (GInterface name [] (Some config))
  | GInterface name methods _ =>
      match gv_mapIndex config typeKey with
      | None => Failed {| cve_Path := path; cve_Message := MissingType |}
      | Some (GPrim (PString tk)) =>
          match types !! tk with
          | None =>
              Failed {| cve_Path := path; cve_Message := TypeUnknown tk |}
          | Some builder =>
              if negb (needed_args builder =? 0)%nat
              then Panicked "reflect: Call with too few input arguments"
              else
                match Call builder with
                | [] => Panicked "index out of range"
                | object :: _ =>
                    _ ← called tk;
                    match object with
                    | GPtr e (Some x)
                    | GInterface _ _ (Some (GPtr e (Some x))) =>
                        let '(s, k) := indirect x in
                        if negb (Implements (Addr_methods s) methods) then
                          Failed {| cve_Path := path;
                                    cve_Message :=
                                      NotImplement (typeof s) (typeof v) |}
                        else if negb (Implements (Type_methods object)
                                        methods) then
                          Panicked "reflect.Set: value is not assignable"
                        else
                          s' ← configureStruct rec s config path;
                          mret (GInterface name methods
                                  (Some (GPtr e (Some (k s')))))
                    | GPtr _ None =>
                        Panicked "reflect.Value.Set using unaddressable value"
                    | _ =>
                        Panicked "reflect.Value.Addr of unaddressable value"
                    end
                end
          end
      | Some _ => Failed {| cve_Path := path; cve_Message := TypeMustBeString |}
      end
  | _ => Panicked "reflect: NumMethod of non-interface type"
  end.

(** [configureScalar]. *)
Definition configureScalar (v : gv) (config : option gv) (path : string)
  : bres gv :=
  match config with
  | None =>
      match type_Kind (typeof v) with
      | KInterface | KPtr | KMap | KSlice => mret (zero (typeof v))
      | _ => mret v
      end
  | Some config =>
      match v with
      | GInterface name [] _ => mret (GInterface name [] (Some config))
      | _ =>
          if ConvertibleTo (typeof config) (typeof v)
          then mret (Convert config (typeof v))
          else Failed {| cve_Path := path;
                         cve_Message :=
                           CannotConfigure (typeof config) (typeof v) |}
      end
  end.

(** The body of [configure], given the recursive call. *)
Definition configure_body (rec : binder) (types : gmap string provider)
    (v : gv) (config : option gv) (path : string) : bres gv :=
  let '(v, rebuild) := indirect v in
  let config := config ≫= Elem_loop in
  rebuild <$>
    match config with
    | Some c =>
        match type_Kind (typeof c) with
        | KArray | KSlice => configureArray rec v c path
        | KMap =>
            match type_Kind (typeof v) with
            | KInterface => configureInterface rec types v c path
            | KStruct => configureStruct rec v c path
            | KMap => configureMap rec v c path
            | _ => Failed {| cve_Path := path;
                             cve_Message := MapCannotConfigure (typeof v) |}
            end
        | _ => configureScalar v config path
        end
    | None => configureScalar v config path
    end.

(** [configure]: the fuel bounds the depth of the recursion. *)
Fixpoint configure (fuel : nat) (types : gmap string provider)
    (v : gv) (config : option gv) (path : string) : bres gv :=
  match fuel with
  | O => NoFuel
  | S fuel' => configure_body (configure fuel' types) types v config path
  end.

End configure_go.

(** ** The conversions between basic kinds, for running examples *)

Definition ikind_bits (k : ikind) : Z :=
  match k with
  | Int8 | Uint8 => 8
  | Int16 | Uint16 => 16
  | Int32 | Uint32 => 32
  | Int | Int64 | Uint | Uint64 | Uintptr => 64
  end.

Definition ikind_signed (k : ikind) : bool :=
  match k with
  | Int | Int8 | Int16 | Int32 | Int64 => true
  | _ => false
  end.

(** An integer reduced to the width of an integer type. *)
Definition wrap (k : ikind) (z : Z) : Z :=
  let m := 2 ^ ikind_bits k in
  let r := z mod m in
  if ikind_signed k && (m / 2 <=? r) then r - m else r.

(** A float to an integer: the fraction is dropped. *)
Definition truncate (q : Q) : Z := Z.quot (Qnum q) (Z.pos (Qden q)).

Definition byte_of (z : Z) : ascii := ascii_of_N (Z.to_N z).

(** [string(rune(z))]: the UTF-8 encoding, U+FFFD for what is no valid
    code point. *)
Definition rune_string (z : Z) : string :=
  if (z <? 0) || (1114111 <? z) || ((55296 <=? z) && (z <=? 57343)) then
    String (byte_of 239) (String (byte_of 191) (String (byte_of 189) ""))
  else if z <? 128 then String (byte_of z) ""
  else if z <? 2048 then
    String (byte_of (192 + z / 64)) (String (byte_of (128 + z mod 64)) "")
  else if z <? 65536 then
    String (byte_of (224 + z / 4096))
      (String (byte_of (128 + (z / 64) mod 64))
         (String (byte_of (128 + z mod 64)) ""))
  else
    String (byte_of (240 + z / 262144))
      (String (byte_of (128 + (z / 4096) mod 64))
         (String (byte_of (128 + (z / 64) mod 64))
            (String (byte_of (128 + z mod 64)) ""))).

(** [float64(z)]: the float nearest to an integer, the even one of two
    that are as near.  An integer of at most 53 significant bits is a
    float; a float beyond has its low bits zero. *)
Definition round_float64 (z : Z) : Z :=
  let a := Z.abs z in
  let e := Z.log2 a - 52 in
  if e <=? 0 then z
  else
    let q := a / 2 ^ e in
    let r := a mod 2 ^ e in
    let up := (2 ^ (e - 1) <? r) || ((2 ^ (e - 1) =? r) && Z.odd q) in
    Z.sgn z * ((if up then q + 1 else q) * 2 ^ e).

(** [int64(f)] and [uint64(f)]: the fraction is dropped.  What a float
    beyond the integer type becomes is left to the implementation by Go;
    these are the results on amd64, where such a float gives the least
    [int64], and [uint64(f)] goes through [int64(f)] below 2^63 and
    through [int64(f - 2^63)] from there on. *)
Definition float_int64 (q : Q) : Z :=
  let t := truncate q in
  if (- 2 ^ 63 <=? t) && (t <? 2 ^ 63) then t else - 2 ^ 63.

Definition float_uint64 (q : Q) : Z :=
  let t := truncate q in
  if t <? 2 ^ 63 then float_int64 q mod 2 ^ 64
  else if t <? 2 ^ 64 then t
  else 2 ^ 63.

Definition byte_val (c : ascii) : Z := Z.of_N (N_of_ascii c).

(** [[]byte(s)]. *)
Fixpoint bytes (s : string) : list Z :=
  match s with
  | EmptyString => []
  | String c s' => byte_val c :: bytes s'
  end.

(** The second byte that a first byte of an encoding of three or four
    bytes accepts; any other byte after the first lies in 128..191. *)
Definition second_lo (b0 : Z) : Z :=
  if b0 =? 224 then 160 else if b0 =? 240 then 144 else 128.
Definition second_hi (b0 : Z) : Z :=
  if b0 =? 237 then 159 else if b0 =? 244 then 143 else 191.
Definition continuation (b : Z) : bool := (128 <=? b) && (b <=? 191).

(** [[]rune(s)]: the code points of the UTF-8 encodings in the string; a
    byte that starts no valid encoding gives U+FFFD and is one byte
    wide. *)
Fixpoint runes (s : string) : list Z :=
  match s with
  | EmptyString => []
  | String c0 s1 =>
      let b0 := byte_val c0 in
      let bad := 65533 :: runes s1 in
      if b0 <? 128 then b0 :: runes s1
      else if (b0 <? 194) || (244 <? b0) then bad
      else
        match s1 with
        | EmptyString => bad
        | String c1 s2 =>
            let b1 := byte_val c1 in
            if negb ((second_lo b0 <=? b1) && (b1 <=? second_hi b0)) then bad
            else if b0 <? 224 then
              ((b0 - 192) * 64 + (b1 - 128)) :: runes s2
            else
              match s2 with
              | EmptyString => bad
              | String c2 s3 =>
                  let b2 := byte_val c2 in
                  if negb (continuation b2) then bad
                  else if b0 <? 240 then
                    ((b0 - 224) * 4096 + (b1 - 128) * 64 + (b2 - 128))
                    :: runes s3
                  else
                    match s3 with
                    | EmptyString => bad
                    | String c3 s4 =>
                        let b3 := byte_val c3 in
                        if negb (continuation b3) then bad
                        else
                          ((b0 - 240) * 262144 + (b1 - 128) * 4096
                           + (b2 - 128) * 64 + (b3 - 128))
                          :: runes s4
                    end
              end
        end
  end.

(** The integer an element of a [[]byte] or [[]rune] holds. *)
Definition elem_int (v : gv) : Z :=
  match v with
  | GPrim (PInt _ z) => z
  | _ => 0
  end.

(** [string(b)] for a [[]byte] and for a [[]rune]. *)
Definition bytes_string (l : list gv) : string :=
  foldr (λ v s, String (byte_of (elem_int v)) s) "" l.
Definition runes_string (l : list gv) : string :=
  foldr (λ v s, rune_string (elem_int v) +:+ s) "" l.

(** Which types convert to which, among the scalars, [[]byte], [[]rune]
    and the types of decoded containers: a bool to a bool; a number to any
    number; an integer to a string; a string to and from [[]byte] and
    [[]rune]; a decoded container to its own type. *)
Definition basic_ConvertibleTo (src dst : type) : bool :=
  match src, dst with
  | TBool, TBool | TString, TString => true
  | TInt _, (TInt _ | TFloat64 | TString) => true
  | TFloat64, (TInt _ | TFloat64) => true
  | TString, TSlice (TInt (Uint8 | Int32)) => true
  | TSlice (TInt (Uint8 | Int32)), TString => true
  | TSlice (TInterface "" []), TSlice (TInterface "" []) => true
  | TMap (TInterface "" []), TMap (TInterface "" []) => true
  | _, _ => false
  end.

(** The converted scalar: an integer is reduced to the width of an integer
    type and is rounded to a float; a float loses its fraction on the way
    to an integer. *)
Definition prim_Convert (p : prim) (dst : type) : prim :=
  match p, dst with
  | PInt _ z, TInt k => PInt k (wrap k z)
  | PInt _ z, TFloat64 => PFloat (inject_Z (round_float64 z))
  | PInt _ z, TString => PString (rune_string z)
  | PFloat q, TInt k =>
      PInt k (wrap k (if ikind_signed k then float_int64 q
                      else float_uint64 q))
  | _, _ => p
  end.

(** On the values of the store, among which there is no [[]byte] and no
    [[]rune]. *)
Definition basic_ConvertValue (v : value) (dst : type) : value :=
  match v with
  | VPrim p => VPrim (prim_Convert p dst)
  | _ => v
  end.

(** On typed values.  The capacity that the runtime gives the slice made
    from a string is its own choice; the length stands for it here. *)
Definition basic_Convert (v : gv) (dst : type) : gv :=
  match v, dst with
  | GPrim (PString s), TSlice (TInt Uint8) =>
      let l := (λ b, GPrim (PInt Uint8 b)) <$> bytes s in
      GSlice (TInt Uint8) (length l) l
  | GPrim (PString s), TSlice (TInt Int32) =>
      let l := (λ r, GPrim (PInt Int32 r)) <$> runes s in
      GSlice (TInt Int32) (length l) l
  | GSlice (TInt Uint8) _ l, TString => GPrim (PString (bytes_string l))
  | GSlice (TInt Int32) _ l, TString => GPrim (PString (runes_string l))
  | GPrim p, _ => GPrim (prim_Convert p dst)
  | _, _ => v
  end.

Definition sorted_MapKeys (m : gmap string value) : list string :=
  (map_to_list m).*1.

Global Instance basic_Reflect : Reflect := {|
  MapKeys := sorted_MapKeys;
  MapKeys_perm := λ m, reflexivity _;
  ConvertibleTo := basic_ConvertibleTo;
  ConvertValue := basic_ConvertValue;
  Convert := basic_Convert
|}.

(** ** Vocabulary of the statements, and the values of the examples *)

(** The element binds of a sequence: [rs] lists, position by position, the
    outcome of binding the source element onto the target element at that
    position: the new element and the providers called. *)
Definition bound_elems (rec : binder) (path : string) (target cs : list gv)
    (rs : list (gv * list string)) : Prop :=
  ∀ j r, rs !! j = Some r →
    ∃ x c, target !! j = Some x ∧ cs !! j = Some c ∧
           rec x (Some c) (path +:+ "." +:+ Itoa j) = Bound r.1 r.2.

(** The value a dotted path leads to, in the words of the specification:
    walk the tree segment by segment, by key in a mapping and by index in a
    sequence; [VNil] when the walk finds nothing. *)
Fixpoint resolve (h : heap) (v : value) (parts : list string) : value :=
  match parts with
  | [] => v
  | p :: ps => resolve h (getElement h v p) ps
  end.

(** What one entry of the update does to the base map: a nil element takes
    the key away, any other element is stored. *)
Definition kept (e : value) : option value :=
  match e with
  | VNil => None
  | _ => Some e
  end.

(** One round of the loop of [merge] when the element of the update is no
    mapping: the base map gets the entry, or loses the key when the element
    is nil. *)
Definition write (k : string) (e : value) (m : gmap string value)
  : gmap string value :=
  match e with
  | VNil => delete k m
  | _ => <[k := e]> m
  end.

(** The base map [m1] after the entries of the update [m2] were written
    into it. *)
Definition overlay (m1 m2 : gmap string value) : gmap string value :=
  omap kept m2 ∪ (m1 ∖ m2).

(** An update without nested mappings. *)
Definition flat (m : gmap string value) : Prop :=
  ∀ k l, m !! k ≠ Some (VMap l).

(** Two stores for [merge]: base [{"a": 1}] at location 1 with update
    [{"a": null}], respectively [{"b": 2}], at location 2. *)
Definition null_heap : heap :=
  {[ 1%positive := {[ "a" := VPrim (PFloat 1) ]};
     2%positive := {[ "a" := VNil ]} ]}.
Definition disjoint_heap : heap :=
  {[ 1%positive := {[ "a" := VPrim (PFloat 1) ]};
     2%positive := {[ "b" := VPrim (PFloat 2) ]} ]}.
Definition disjoint_merged : heap :=
  {[ 1%positive := {[ "a" := VPrim (PFloat 1); "b" := VPrim (PFloat 2) ]};
     2%positive := {[ "b" := VPrim (PFloat 2) ]} ]}.

(** A configuration [{"a": 100}] as [LoadJSON] leaves it, its map object
    at location 1. *)
Definition loaded_heap : heap := {[ 1%positive := {[ "a" := VPrim (PFloat 100) ]} ]}.
Definition loaded_config : Config := {| data := VMap 1%positive; types := ∅ |}.

(** The configuration [New()] returns. *)
Definition New : Config := {| data := VNil; types := ∅ |}.

(** An interface slot that holds a non-nil pointer to [s]. *)
Definition populated (name : string) (methods : list string) (e : type)
    (s : gv) : gv :=
  GInterface name methods (Some (GPtr e (Some s))).

(** The fields of a struct that the keys name are all scalars. *)
Definition scalar_fields (keys : list string)
    (fields : list (string * (bool * gv))) : Prop :=
  ∀ k b f, k ∈ keys → assoc k fields = Some (b, f) → ∃ p, f = GPrim p.

(** Decoded JSON, as [encoding/json] hands it over under [interface{}]. *)
Definition json_null : gv := GInterface "" [] None.
Definition json_bool (b : bool) : gv := GInterface "" [] (Some (GPrim (PBool b))).
Definition json_number (q : Q) : gv := GInterface "" [] (Some (GPrim (PFloat q))).
Definition json_string (s : string) : gv :=
  GInterface "" [] (Some (GPrim (PString s))).
Definition json_array (l : list gv) : gv :=
  GInterface "" [] (Some (GSlice TAny (length l) l)).
Definition json_object (m : list (string * gv)) : gv :=
  GInterface "" [] (Some (GMap TAny (Some m))).

(** The types of [configure_test.go]: [type C interface { Foo() }] and
    [type D struct { E1, E2 string }] with [func (d *D) Foo()]. *)
Definition C (x : option gv) : gv := GInterface "C" ["Foo"] x.
Definition D (E1 E2 : string) : gv :=
  GStruct "D" ["Foo"]
    [("E1", (true, GPrim (PString E1))); ("E2", (true, GPrim (PString E2)))].

(** [&v]. *)
Definition ptr (v : gv) : gv := GPtr (typeof v) (Some v).

Definition ints (k : ikind) (l : list Z) : list gv := (λ z, GPrim (PInt k z)) <$> l.
Definition numbers (l : list Z) : list gv := (λ z, json_number (inject_Z z)) <$> l.

(** [{"type": "C1", "E1": "abc"}] and [{"E1": "abc", "X": 1}]. *)
Definition typed_object : gv :=
  json_object [("type", json_string "C1"); ("E1", json_string "abc")].
Definition stray_object : gv :=
  json_object [("E1", json_string "abc"); ("X", json_number 1)].

(** The data of [TestMerge]: [{"a":{"b":1,"c":2},"d":3}] at locations 1
    and 3, [{"a":{"c":4,"e":5},"d":30}] at locations 2 and 4, and what the
    store must be after merging the second into the first. *)
Definition nested_heap : heap :=
  {[ 1%positive := {[ "a" := VMap 3%positive; "d" := VPrim (PFloat 3) ]};
     2%positive := {[ "a" := VMap 4%positive; "d" := VPrim (PFloat 30) ]};
     3%positive := {[ "b" := VPrim (PFloat 1); "c" := VPrim (PFloat 2) ]};
     4%positive := {[ "c" := VPrim (PFloat 4); "e" := VPrim (PFloat 5) ]} ]}.
Definition nested_merged : heap :=
  {[ 1%positive := {[ "a" := VMap 3%positive; "d" := VPrim (PFloat 30) ]};
     2%positive := {[ "a" := VMap 4%positive; "d" := VPrim (PFloat 30) ]};
     3%positive := {[ "b" := VPrim (PFloat 1); "c" := VPrim (PFloat 4);
                      "e" := VPrim (PFloat 5) ]};
     4%positive := {[ "c" := VPrim (PFloat 4); "e" := VPrim (PFloat 5) ]} ]}.

(** The store after [Set("a.b", 100)] on a new configuration, in
    [TestSet]. *)
Definition set_heap : heap :=
  {[ 1%positive := {[ "a" := VMap 2%positive ]};
     2%positive := {[ "b" := VPrim (PInt Int 100) ]} ]}.

(** The data of [TestSetWithError]: [{"A1": 100, "A2": [1, 2]}]. *)
Definition error_heap : heap :=
  {[ 1%positive := {[ "A1" := VPrim (PFloat 100);
                      "A2" := VSlice 2 [VPrim (PFloat 1); VPrim (PFloat 2)] ]} ]}.

(** The data of [TestGet]. *)
Definition get_heap : heap :=
  {[ 1%positive := {[ "a" := VPrim (PFloat 100);
                      "b" := VPrim (PBool true);
                      "d" := VMap 2%positive;
                      "e" := VSlice 4 [VPrim (PString "abc"); VPrim (PBool true);
                                       VMap 4%positive] ]};
     2%positive := {[ "d1" := VPrim (PString "v1"); "d3" := VMap 3%positive ]};
     3%positive := {[ "d4" := VPrim (PFloat 300) ]};
     4%positive := {[ "d" := VPrim (PFloat 200) ]} ]}.

(** The provider of [TestConfigureMapWithType1],
    [func() *D { return &D{} }], registered as "C1". *)
Definition C1_registry : gmap string provider :=
  {[ "C1" := {| NumIn := 0; IsVariadic := false;
                 Call := [ptr (D "" "")] |} ]}.

(** The target of [TestConfigureMap] with [A0] preset to "xyz", its
    source, and the target as it must be afterwards. *)
Definition map_target : gv :=
  GStruct "" []
    [("A0", (true, GPrim (PString "xyz")));
     ("A1", (true, zero TBool));
     ("A2", (true, zero (TInt Int)));
     ("A3", (true, zero TFloat64));
     ("A4", (true, zero TString));
     ("A5", (true, zero (TPtr TBool)));
     ("A6", (true, zero (TSlice (TInt Int))));
     ("A7", (true, zero (TMap (TInt Int))));
     ("A8", (true, zero (TMap TAny)))].
Definition map_source : gv :=
  json_object
    [("A1", json_bool true);
     ("A2", json_number 100);
     ("A3", json_number (123 # 100));
     ("A4", json_string "abc");
     ("A5", json_bool true);
     ("A6", json_array (numbers [3; 2]));
     ("A7", json_object [("a1", json_number 1); ("a3", json_number 3)]);
     ("A8", json_object [("b1", json_number 1); ("b2", json_string "abc")])].
Definition map_bound : gv :=
  GStruct "" []
    [("A0", (true, GPrim (PString "xyz")));
     ("A1", (true, GPrim (PBool true)));
     ("A2", (true, GPrim (PInt Int 100)));
     ("A3", (true, GPrim (PFloat (123 # 100))));
     ("A4", (true, GPrim (PString "abc")));
     ("A5", (true, ptr (GPrim (PBool true))));
     ("A6", (true, GSlice (TInt Int) 2 (ints Int [3; 2])));
     ("A7", (true, GMap (TInt Int)
                     (Some [("a1", GPrim (PInt Int 1)); ("a3", GPrim (PInt Int 3))])));
     ("A8", (true, GMap TAny
                     (Some [("b1", GInterface "" [] (Some (GPrim (PFloat 1))));
                            ("b2", GInterface "" [] (Some (GPrim (PString "abc"))))])))].

(** ** Configuration trees

    What [merge] does is stated on the tree that a store holds at a value:
    the value itself when it is no mapping, a map object with the trees of
    its elements otherwise. *)
Inductive ltree :=
  | Leaf (v : value)
  | Node (l : loc) (kids : list (string * ltree)).

Definition root (t : ltree) : value :=
  match t with
  | Leaf v => v
  | Node l _ => VMap l
  end.

(** The map objects of a tree. *)
Fixpoint locs (t : ltree) : list loc :=
  match t with
  | Leaf _ => []
  | Node l kids => l :: concat (map (λ kt : string * ltree, locs kt.2) kids)
  end.

Fixpoint depth (t : ltree) : nat :=
  match t with
  | Leaf _ => 0
  | Node _ kids =>
      S (foldr (λ (kt : string * ltree) n, depth kt.2 `max` n) 0 kids)%nat
  end.

(** The store holds the tree: every node is a map object whose entries are
    the roots of its children (a child [Leaf VNil] is a key that holds
    nil). *)
Fixpoint rep (h : heap) (t : ltree) : Prop :=
  match t with
  | Leaf v => ∀ l, v ≠ VMap l
  | Node l kids =>
      (∃ m, h !! l = Some m ∧ NoDup kids.*1 ∧
            ∀ k, m !! k = root <$> assoc k kids) ∧
      foldr (λ (kt : string * ltree) P, rep h kt.2 ∧ P) True kids
  end.

(** The children of every node are listed in the order of [MapKeys]. *)
Fixpoint ordered `{Reflect} (h : heap) (t : ltree) : Prop :=
  match t with
  | Leaf _ => True
  | Node l kids =>
      MapKeys (map_at h l) = kids.*1 ∧
      foldr (λ (kt : string * ltree) P, ordered h kt.2 ∧ P) True kids
  end.

(** The tree holds no nil: under no key, at any depth. *)
Fixpoint no_null (t : ltree) : Prop :=
  match t with
  | Leaf v => v ≠ VNil
  | Node _ kids =>
      foldr (λ (kt : string * ltree) P, no_null kt.2 ∧ P) True kids
  end.

Fixpoint assoc_del {A} (k : string) (l : list (string * A))
  : list (string * A) :=
  match l with
  | [] => []
  | (k', a) :: l' =>
      if String.eqb k k' then assoc_del k l' else (k', a) :: assoc_del k l'
  end.

(** [SetMapIndex] on the children of a node: a nil element deletes the
    key. *)
Definition twrite (k : string) (t : ltree) (kids : list (string * ltree))
  : list (string * ltree) :=
  match t with
  | Leaf VNil => assoc_del k kids
  | _ => assoc_set k t kids
  end.

(** [merge] on trees: the keys of the update in turn, each written into the
    children of the base after the two elements are merged when both are
    mappings. *)
Fixpoint tmerge (t1 t2 : ltree) {struct t2} : ltree :=
  match t1, t2 with
  | Node l1 kids1, Node l2 kids2 =>
      Node l1
        (foldl (λ cur (kt : string * ltree),
                  twrite kt.1
                    (match assoc kt.1 cur, kt.2 with
                     | Some (Node l1k kids1k), Node _ _ =>
                         tmerge (Node l1k kids1k) kt.2
                     | _, _ => kt.2
                     end) cur)
           kids1 kids2)
  | _, _ => t2
  end.

(** The element [merge] writes under a key: [e2], merged with [e1] when
    both are mappings. *)
Definition tchild (o1 : option ltree) (t2k : ltree) : ltree :=
  match o1, t2k with
  | Some (Node l1k kids1k), Node _ _ => tmerge (Node l1k kids1k) t2k
  | _, _ => t2k
  end.

(** One round of the loop, on trees and on the store. *)
Definition tstep (cur : list (string * ltree)) (kt : string * ltree)
  : list (string * ltree) :=
  twrite kt.1 (tchild (assoc kt.1 cur) kt.2) cur.

Definition mstep `{Reflect} (fuel : nat) (l1 l2 : loc) (h : heap)
    (key : string) : res heap :=
  let e1 := mapIndex h l1 key in
  let e2 := mapIndex h l2 key in
  '(h, e2) ←
     (match e1, e2 with
      | VMap _, VMap _ => merge fuel h e1 e2
      | _, _ => Ok (h, e2)
      end);
  SetMapIndex h l1 key e2.

(** What [merge] does with an update tree [t2], for every base tree that
    shares no map object with it. *)
Definition merges `{Reflect} (t2 : ltree) : Prop :=
  ∀ t1 h fuel,
    rep h t1 → rep h t2 → ordered h t2 → NoDup (locs t1) →
    (∀ x, x ∈ locs t1 → x ∈ locs t2 → False) →
    (depth t2 < fuel)%nat →
    ∃ h', merge fuel h (root t1) (root t2) = Ok (h', root (tmerge t1 t2)) ∧
          (∀ x, x ∉ locs t1 → h' !! x = h !! x) ∧
          rep h' (tmerge t1 t2) ∧
          (∀ x, x ∈ locs (tmerge t1 t2) →
                x ∈ locs t1 ∨ x ∈ locs t2).

(** The objects below the child of the base under a key. *)
Definition kidlocs (kids1 : list (string * ltree)) (k : string) (x : loc)
  : Prop :=
  ∃ t1k, (k, t1k) ∈ kids1 ∧ x ∈ locs t1k.

(** What holds between two rounds of the loop that merges [Node l2 kids2]
    into [Node l1 kids1] from the store [h0]: the base object holds the
    roots of the current children, the store outside the base tree is as at
    the start, and every current child is held by the store, in objects of
    the base child under the same key or of the update. *)
Definition merge_inv (h0 : heap) (l1 l2 : loc)
    (kids1 kids2 : list (string * ltree))
    (h : heap) (cur : list (string * ltree)) : Prop :=
  (∃ M, h !! l1 = Some M ∧ ∀ k, M !! k = root <$> assoc k cur) ∧
  NoDup cur.*1 ∧
  (∀ x, x ∉ locs (Node l1 kids1) → h !! x = h0 !! x) ∧
  (∀ k t, (k, t) ∈ cur →
     rep h t ∧
     ∀ x, x ∈ locs t → kidlocs kids1 k x ∨ x ∈ locs (Node l2 kids2)).

(** A base [{"d": 3}] at object 1 and an update [{"a": {"c": 4}}] at
    objects 2 and 4. *)
Definition shared_heap : heap :=
  {[ 1%positive := {[ "d" := VPrim (PFloat 3) ]};
     2%positive := {[ "a" := VMap 4%positive ]};
     4%positive := {[ "c" := VPrim (PFloat 4) ]} ]}.
Definition shared_merged : heap :=
  {[ 1%positive := {[ "a" := VMap 4%positive; "d" := VPrim (PFloat 3) ]};
     2%positive := {[ "a" := VMap 4%positive ]};
     4%positive := {[ "c" := VPrim (PFloat 4) ]} ]}.
Definition shared_set : heap :=
  {[ 1%positive := {[ "a" := VMap 4%positive; "d" := VPrim (PFloat 3) ]};
     2%positive := {[ "a" := VMap 4%positive ]};
     4%positive := {[ "c" := VPrim (PFloat 5) ]} ]}.

(** The two trees of [nested_heap]: [{"a": {"b": 1, "c": 2}, "d": 3}] at
    objects 1 and 3, [{"a": {"c": 4, "e": 5}, "d": 30}] at 2 and 4. *)
Definition nested_base : ltree :=
  Node 1%positive
    [("a", Node 3%positive [("b", Leaf (VPrim (PFloat 1)));
                            ("c", Leaf (VPrim (PFloat 2)))]);
     ("d", Leaf (VPrim (PFloat 3)))].
Definition nested_update : ltree :=
  Node 2%positive
    [("a", Node 4%positive [("c", Leaf (VPrim (PFloat 4)));
                            ("e", Leaf (VPrim (PFloat 5)))]);
     ("d", Leaf (VPrim (PFloat 30)))].

(** ** The typed getters ([GetString], [GetInt], [GetInt64], [GetFloat],
    [GetBool]) *)

(** [var d T; if len(defaultValue) > 0 { d = defaultValue[0] }]. *)
Definition first_default {A} (zero : A) (defaultValue : list A) : A :=
  match defaultValue with
  | d :: _ => d
  | [] => zero
  end.

Section getters.
Context `{Reflect}.

(** [c.Get(path, d).(string)]: the type assertion panics when [Get] hands
    back anything but a string. *)
Definition GetString (h : heap) (c : Config) (path : string)
    (defaultValue : list string) : res string :=
  match Get h c path (VPrim (PString (first_default "" defaultValue))) with
  | VPrim (PString s) => Ok s
  | _ => Panic "interface conversion: interface {} is not string"
  end.

Definition GetInt (h : heap) (c : Config) (path : string)
    (defaultValue : list Z) : res Z :=
  match Get h c path (VPrim (PInt Int (first_default 0 defaultValue))) with
  | VPrim (PInt Int z) => Ok z
  | _ => Panic "interface conversion: interface {} is not int"
  end.

Definition GetInt64 (h : heap) (c : Config) (path : string)
    (defaultValue : list Z) : res Z :=
  match Get h c path (VPrim (PInt Int64 (first_default 0 defaultValue))) with
  | VPrim (PInt Int64 z) => Ok z
  | _ => Panic "interface conversion: interface {} is not int64"
  end.

Definition GetFloat (h : heap) (c : Config) (path : string)
    (defaultValue : list Q) : res Q :=
  match Get h c path (VPrim (PFloat (first_default 0%Q defaultValue))) with
  | VPrim (PFloat q) => Ok q
  | _ => Panic "interface conversion: interface {} is not float64"
  end.

Definition GetBool (h : heap) (c : Config) (path : string)
    (defaultValue : list bool) : res bool :=
  match Get h c path (VPrim (PBool (first_default false defaultValue))) with
  | VPrim (PBool b) => Ok b
  | _ => Panic "interface conversion: interface {} is not bool"
  end.

End getters.

(** [Value.Convert] hands back a value of the type asked for; the types
    asked for are those of defaults, which are values of the store. *)
Definition Convert_typed `{Reflect} : Prop :=
  ∀ v d, ConvertibleTo (TypeOf v) (TypeOf d) = true →
         TypeOf (ConvertValue v (TypeOf d)) = TypeOf d.

(** ** Walks

    The map objects that a walk along the segments of a path reads, in the
    order it reads them. *)
Fixpoint visited (h : heap) (d : value) (parts : list string) : list loc :=
  match parts with
  | [] => []
  | p :: ps =>
      match d with VMap l => [l] | _ => [] end
      ++ visited h (getElement h d p) ps
  end.

(** The references found on the walk all have a map object: none is a nil
    map. *)
Definition allocated (h : heap) (ls : list loc) : Prop :=
  Forall (λ l, is_Some (h !! l)) ls.

(** The entries of map objects that the walk reads: the object and the
    key. *)
Fixpoint walk_entries (h : heap) (d : value) (parts : list string)
  : list (loc * string) :=
  match parts with
  | [] => []
  | p :: ps =>
      match d with VMap l => [(l, p)] | _ => [] end
      ++ walk_entries h (getElement h d p) ps
  end.

(** ** Field binds

    The bind of one field of a struct, as [configureStruct] runs it: onto
    what a pointer field points to (a new zero value when the pointer is
    nil), onto the field itself otherwise. *)
Definition bind_field (rec : binder) (config : gv) (path : string)
    (k : string) (field : gv) : bres gv :=
  match field with
  | GPtr e p =>
      x ← rec (default (zero e) p) (gv_mapIndex config k)
            (path +:+ "." +:+ k);
      mret (GPtr e (Some x))
  | _ => rec field (gv_mapIndex config k) (path +:+ "." +:+ k)
  end.

(** ** [Configure] and the messages of its errors *)

(** [reflect.Kind.String]. *)
Definition Kind_String (k : Kind) : string :=
  match k with
  | KInvalid => "invalid" | KBool => "bool"
  | KInt => "int" | KInt8 => "int8" | KInt16 => "int16" | KInt32 => "int32"
  | KInt64 => "int64"
  | KUint => "uint" | KUint8 => "uint8" | KUint16 => "uint16"
  | KUint32 => "uint32" | KUint64 => "uint64" | KUintptr => "uintptr"
  | KFloat64 => "float64" | KString => "string"
  | KPtr => "ptr" | KArray => "array" | KSlice => "slice" | KMap => "map"
  | KStruct => "struct" | KInterface => "interface" | KFunc => "func"
  end.

(** [ProviderError.Error]. *)
Definition ProviderError_Error (e : ProviderError) : string :=
  if negb (bool_decide (any_Kind (pe_Value e) = KFunc)) then
    "The provider should be a function, got "
    +:+ Kind_String (any_Kind (pe_Value e))
  else if negb (any_NumOut (pe_Value e) =? 1)%nat then
    "The provider should have a single output, got "
    +:+ Itoa (any_NumOut (pe_Value e))
  else "".

(** [reflect.Value.IsNil], asked of a pointer. *)
Definition any_IsNil (a : anyvalue) : bool :=
  match a with
  | AnyValue (GPtr _ None) => true
  | _ => false
  end.

(** [ConfigTargetError] and its [Error]. *)
Record ConfigTargetError := { cte_Value : anyvalue }.

Definition ConfigTargetError_Error (e : ConfigTargetError) : string :=
  if negb (bool_decide (any_Kind (cte_Value e) = KPtr)) then
    "Unable to configure a non-pointer"
  else if any_IsNil (cte_Value e) then "Unable to configure a nil pointer"
  else "".

(** What [Configure] returns as its error: a [ConfigTargetError], the
    [ConfigPathError] of a path under which no configuration value was
    found, the [ConfigValueError] of a failed bind, or the value of a panic
    that its deferred function has recovered. *)
Inductive Configure_error :=
  | TargetError (e : ConfigTargetError)
  | NoValueFound (path : string)
  | ValueError (e : ConfigValueError)
  | Recovered (msg : string).

(** Outcome of [Configure]: no error, with the target as it is afterwards
    and the providers called; an error; a panic; the model out of fuel. *)
Inductive Configure_result :=
  | Configured (v : gv) (calls : list string)
  | NotConfigured (e : Configure_error)
  | ConfigurePanic (msg : string)
  | ConfigureNoFuel.

(** The deferred function of [Configure].  A panic whose value is an
    [error] and no [runtime.Error] becomes the returned error: of the
    panics of the bind, that is the [*reflect.ValueError] of a method
    called on a value of the wrong kind.  Any other panic leaves
    [Configure] as a panic: a [runtime.Error] is raised again, and a value
    that is no [error], such as the strings that reflect panics with, fails
    the assertion [r.(error)], which panics in its turn.  [ConfigurePanic]
    keeps the message of the panic of the bind. *)
Definition is_ValueError (msg : string) : bool :=
  String.prefix "reflect: call of " msg.

Definition recovered (r : bres gv) : Configure_result :=
  match r with
  | Bound v calls => Configured v calls
  | Failed e => NotConfigured (ValueError e)
  | Panicked msg =>
      if is_ValueError msg then NotConfigured (Recovered msg)
      else ConfigurePanic msg
  | NoFuel => ConfigureNoFuel
  end.

Section Configure_go.
Context `{Reflect}.

(** The configuration data as the bind engine reads them: the tree of
    typed values behind a value of the store, every element of a slice and
    of a map under its [interface{}], the entries of a map in the order of
    [MapKeys].  [None] when the fuel does not reach the leaves. *)
Fixpoint config_tree (fuel : nat) (h : heap) (v : value)
  : option (option gv) :=
  match fuel with
  | O => None
  | S fuel' =>
      let boxed := λ x : value,
        y ← config_tree fuel' h x; Some (GInterface "" [] y) in
      match v with
      | VNil => Some None
      | VPrim p => Some (Some (GPrim p))
      | VSlice cap l =>
          els ← mapM boxed l; Some (Some (GSlice TAny cap els))
      | VMap loc =>
          match h !! loc with
          | None => Some (Some (GMap TAny None))
          | Some m =>
              entries ← mapM (λ k, x ← boxed (default VNil (m !! k));
                                   Some (k, x)) (MapKeys m);
              Some (Some (GMap TAny (Some entries)))
          end
      end
  end.

(** [Configure]: the target must be a pointer that is not nil; with a
    path, the value that [Get] finds under the first one is the source,
    and the path is where error reports start from. *)
Definition Configure (fuel : nat) (h : heap) (c : Config) (v : anyvalue)
    (path : list string) : Configure_result :=
  if negb (bool_decide (any_Kind v = KPtr)) || any_IsNil v then
    NotConfigured (TargetError {| cte_Value := v |})
  else
    match v with
    | AnyValue rv =>
        let found :=
          match path with
          | [] => Some ("", data c)
          | p :: _ =>
              let d := Get h c p VNil in
              if IsValid d then Some (p, d) else None
          end in
        match found with
        | None => NotConfigured (NoValueFound (hd "" path))
        | Some (p, d) =>
            match config_tree fuel h d with
            | None => ConfigureNoFuel
            | Some config => recovered (configure fuel (types c) rv config p)
            end
        end
    | _ => NotConfigured (TargetError {| cte_Value := v |})
    end.

End Configure_go.

(** The data of [TestConfigureNested],
    [{"A1": 100, "A2": {"B2": "v1", "B1": {"C1": 300}},
      "A3": [{"B3": true}, {"B3": false}]}],
    its target and the target as it must be afterwards. *)
Definition nested_config_heap : heap :=
  {[ 1%positive := {[ "A1" := VPrim (PFloat 100);
                      "A2" := VMap 2%positive;
                      "A3" := VSlice 2 [VMap 4%positive; VMap 5%positive] ]};
     2%positive := {[ "B2" := VPrim (PString "v1"); "B1" := VMap 3%positive ]};
     3%positive := {[ "C1" := VPrim (PFloat 300) ]};
     4%positive := {[ "B3" := VPrim (PBool true) ]};
     5%positive := {[ "B3" := VPrim (PBool false) ]} ]}.

Definition nested_B3 (b : bool) : gv :=
  GStruct "" [] [("B3", (true, GPrim (PBool b)))].
Definition nested_A2 (C1 : Z) (C2 B2 : string) : gv :=
  GStruct "" []
    [("B1", (true, GStruct "" [] [("C1", (true, GPrim (PInt Int C1)));
                                   ("C2", (true, GPrim (PString C2)))]));
     ("B2", (true, GPrim (PString B2)))].
Definition nested_target : gv :=
  GStruct "" []
    [("A1", (true, GPrim (PInt Int 0)));
     ("A2", (true, GPtr (typeof (nested_A2 0 "" "")) None));
     ("A3", (true, GSlice (typeof (nested_B3 false)) 0 []))].
Definition nested_bound : gv :=
  GStruct "" []
    [("A1", (true, GPrim (PInt Int 100)));
     ("A2", (true, ptr (nested_A2 300 "" "v1")));
     ("A3", (true, GSlice (typeof (nested_B3 false)) 2
                     [nested_B3 true; nested_B3 false]))].

(** ** Loading *)

Section loading.
Context `{Reflect}.

(** [c.data = merge(c.data, reflect.ValueOf(d))], the step that [SetData],
    [Load] and [LoadJSON] share. *)
Definition merge_data (fuel : nat) (h : heap) (c : Config) (d : value)
  : res (heap * Config) :=
  '(h', v) ← merge fuel h (data c) d;
  Ok (h', {| data := v; types := types c |}).

(** What the repository does not decide about JSON: the errors of the two
    libraries, what the comment stripper writes, and the tree that
    [json.Unmarshal] builds in the store. *)
Variable error : Type.
Variable WriteCommentTrimmedTo : string → string + error.
Variable Unmarshal : heap → string → (heap * value) + error.

(** [stripJSONComments]: the text without comments, or the text as it was
    together with the error. *)
Definition stripJSONComments (s : string) : string * option error :=
  match WriteCommentTrimmedTo s with
  | inl out => (out, None)
  | inr err => (s, Some err)
  end.

(** [LoadJSON]: every text in turn is stripped of comments, decoded and
    merged into the data; the first error ends the loop. *)
Fixpoint LoadJSON (fuel : nat) (h : heap) (c : Config) (data : list string)
  : res (heap * Config * option error) :=
  match data with
  | [] => Ok (h, c, None)
  | bytes :: rest =>
      match stripJSONComments bytes with
      | (_, Some err) => Ok (h, c, Some err)
      | (bytes, None) =>
          match Unmarshal h bytes with
          | inr err => Ok (h, c, Some err)
          | inl (h1, d) =>
              '(h2, c2) ← merge_data fuel h1 c d;
              LoadJSON fuel h2 c2 rest
          end
      end
  end.

End loading.

(** * Properties *)

(** ** Binding null, and what [Register] accepts *)

Section null_source.
Context `{Reflect}.

(** A null source, however it is boxed, reaches [configureScalar] as the
    zero [reflect.Value]. *)
Lemma configure_null fuel types v config path :
  config ≫= Elem_loop = None →
  configure (S fuel) types v config path =
  (indirect v).2 <$> configureScalar (indirect v).1 None path.
Proof.
  intros Hnull. simpl. unfold configure_body.
  destruct (indirect v) as [x k]. by rewrite Hnull.
Qed.

(** C5.  Binding a null source onto a bool, an integer, a float or a
    string, directly or behind a pointer, succeeds and leaves the value
    as it was, whatever it was. *)
Theorem null_keeps_scalar fuel types p config path :
  config ≫= Elem_loop = None →
  configure (S fuel) types (GPrim p) config path = Bound (GPrim p) [] ∧
  configure (S fuel) types (GPtr (prim_type p) (Some (GPrim p))) config path
  = Bound (GPtr (prim_type p) (Some (GPrim p))) [].
Proof.
  intros Hnull. rewrite !configure_null by done.
  split; by destruct p as [b|[]z|q|s].
Qed.

(** C4, as the code has it.  Binding a null source onto an array succeeds
    and leaves every element as it was (so an array of zeros stays an
    array of zeros); binding it onto a slice leaves the zero slice, of
    length 0. *)
Theorem null_array_slice fuel types e l cap config path :
  config ≫= Elem_loop = None →
  configure (S fuel) types (GArray e l) config path = Bound (GArray e l) [] ∧
  configure (S fuel) types (GSlice e cap l) config path
  = Bound (GSlice e 0 []) [].
Proof. intros Hnull. by rewrite !configure_null. Qed.

End null_source.

Lemma null_keeps_scalar_witness :
  Some (GInterface "" [] None) ≫= Elem_loop = None ∧
  configure 1 ∅ (GPrim (PBool true)) (Some (GInterface "" [] None)) ""
  = Bound (GPrim (PBool true)) [].
Proof.
  split; [reflexivity|].
  apply (null_keeps_scalar 0 ∅ (PBool true) (Some (GInterface "" [] None)) "").
  reflexivity.
Defined.

Lemma null_array_slice_witness :
  (None : option gv) ≫= Elem_loop = None ∧
  configure 1 ∅ (GArray (TInt Int) (replicate 3 (GPrim (PInt Int 0)))) None ""
  = Bound (GArray (TInt Int) (replicate 3 (GPrim (PInt Int 0)))) [].
Proof.
  split; [reflexivity|].
  apply (null_array_slice 0 ∅ (TInt Int) _ 0%nat None ""). reflexivity.
Defined.

(** C4, as the specification states it, fails: an array holding 1, 2, 3 still holds
    1, 2, 3 after null is bound onto it; it is not reset to zeros. *)
Lemma null_array_not_reset :
  let a := GArray (TInt Int)
             [GPrim (PInt Int 1); GPrim (PInt Int 2); GPrim (PInt Int 3)] in
  configure 1 ∅ a None "" = Bound a [] ∧ a ≠ zero (typeof a).
Proof. split; [reflexivity | discriminate]. Qed.

(** C7, as the code has it.  [Register] reports an error exactly when the
    provider is not a function or does not have a single output; the
    number of arguments plays no part.  An accepted provider is stored
    under the name, and a rejected one leaves the configuration alone. *)
Theorem Register_accepts c name provider :
  ((Register c name provider).2 = None ↔
     ∃ f, provider = AnyFunc f ∧ NumOut f = 1%nat) ∧
  (∀ f, provider = AnyFunc f → NumOut f = 1%nat →
     types (Register c name provider).1 !! name = Some f ∧
     data (Register c name provider).1 = data c) ∧
  ((Register c name provider).2 ≠ None → (Register c name provider).1 = c).
Proof.
  unfold Register. destruct provider as [|f|v].
  - split_and!; [split; [done | by intros (?&?&?)] | done | done].
  - simpl. destruct (Nat.eqb_spec (NumOut f) 1) as [Hn|Hn]; simpl.
    + split_and!; [split; eauto | | done].
      intros f' [= <-] _. by rewrite lookup_insert_eq.
    + split_and!; [split; [done | by intros (?&[= <-]&?)] | | done].
      by intros f' [= <-] ?.
  - assert (bool_decide (any_Kind (AnyValue v) = KFunc) = false) as ->.
    { apply bool_decide_eq_false. simpl.
      destruct v as [[|k| |]| | | | | |]; try destruct k; done. }
    split_and!; [split; [done | by intros (?&?&?)] | done | done].
Qed.

(** C7, as the specification states it, fails: a function of one argument with a
    single output is accepted. *)
Lemma Register_ignores_arity :
  let f := {| NumIn := 1; IsVariadic := false;
              Call := [GPrim (PString "")] |} in
  let c := {| data := VNil; types := ∅ |} in
  (Register c "T" (AnyFunc f)).2 = None ∧
  types (Register c "T" (AnyFunc f)).1 !! "T" = Some f.
Proof. split; reflexivity. Qed.

(** ** The monad of bind outcomes, and association lists *)

Lemma bres_bind_Bound {A B} (a : A) calls (f : A → bres B) :
  Bound a calls ≫= f =
  match f a with Bound b calls' => Bound b (calls ++ calls') | r => r end.
Proof. reflexivity. Qed.

Lemma bres_bind_assoc {A B C} (m : bres A) (f : A → bres B) (g : B → bres C) :
  (m ≫= f) ≫= g = m ≫= (λ a, f a ≫= g).
Proof.
  destruct m as [a calls| | |]; try done.
  rewrite !bres_bind_Bound. destruct (f a) as [b calls'| | |]; try done.
  rewrite !bres_bind_Bound. destruct (g b); try done.
  by rewrite (assoc_L (++)).
Qed.

Lemma bres_bind_ext {A B} (m : bres A) (f g : A → bres B) :
  (∀ a, f a = g a) → m ≫= f = m ≫= g.
Proof.
  intros Hfg. destruct m; try done. by rewrite !bres_bind_Bound, Hfg.
Qed.

Lemma bres_bind_not_Bound {A B} (m : bres A) (f : A → bres B) b calls :
  m ≫= f = Bound b calls →
  ∃ a c1 c2, m = Bound a c1 ∧ f a = Bound b c2 ∧ calls = c1 ++ c2.
Proof.
  destruct m as [a c1| | |]; try done. rewrite bres_bind_Bound.
  destruct (f a) as [b' c2| | |] eqn:Hf; try done.
  intros [= <- <-]. by eexists _, _, _.
Qed.

Lemma assoc_None {A} k (l : list (string * A)) :
  assoc k l = None ↔ k ∉ l.*1.
Proof.
  induction l as [|[k' a] l IH]; csimpl.
  - split; [intros _; apply not_elem_of_nil | done].
  - rewrite not_elem_of_cons.
    destruct (String.eqb_spec k k') as [->|Hk]; [by split; [|intros []]|].
    rewrite IH. by split; [|intros []].
Qed.

Lemma assoc_set_keys {A} k (a : A) l :
  is_Some (assoc k l) → (assoc_set k a l).*1 = l.*1.
Proof.
  induction l as [|[k' a'] l IH]; csimpl; [by intros [? ?]|].
  destruct (String.eqb_spec k k') as [->|]; [done|].
  intros Hk. csimpl. f_equal. by apply IH.
Qed.

Lemma assoc_set_ne {A} k k' (a : A) l :
  k ≠ k' → assoc k' (assoc_set k a l) = assoc k' l.
Proof.
  intros Hne. induction l as [|[k0 a0] l IH]; simpl.
  - by rewrite (proj2 (String.eqb_neq _ _)) by done.
  - destruct (String.eqb_spec k k0) as [->|]; simpl.
    + by rewrite !(proj2 (String.eqb_neq k' k0)) by done.
    + destruct (k' =? k0)%string; [done|apply IH].
Qed.

(** ** Structs and interfaces *)

Section struct_interface.
Context `{Reflect}.
Implicit Types rec : binder.

(** The entry under "type" plays no part in binding a struct. *)
Lemma Struct_loop_skips_type rec c path keys v :
  Struct_loop rec c path keys v =
  Struct_loop rec c path (filter (λ k, k ≠ typeKey) keys) v.
Proof.
  revert v. induction keys as [|k keys IH]; intros v; [done|].
  rewrite filter_cons. simpl. destruct (String.eqb_spec k typeKey) as [->|Hk].
  - rewrite decide_False by naive_solver. apply IH.
  - rewrite decide_True by done. simpl.
    rewrite (proj2 (String.eqb_neq _ _)) by done.
    destruct v as [| | | | |name methods fields|]; try done.
    destruct (assoc k fields) as [[[] field]|]; try done.
    apply bres_bind_ext. intros field'. apply IH.
Qed.

Lemma Struct_loop_app rec c path keys1 keys2 v :
  Struct_loop rec c path (keys1 ++ keys2) v =
  Struct_loop rec c path keys1 v ≫= Struct_loop rec c path keys2.
Proof.
  revert v. induction keys1 as [|k keys1 IH]; intros v; simpl.
  - by destruct (Struct_loop rec c path keys2 v); rewrite ?app_nil_r.
  - destruct (k =? typeKey)%string; [apply IH|].
    destruct v as [| | | | |name methods fields|]; try done.
    destruct (assoc k fields) as [[[] field]|]; try done.
    rewrite bres_bind_assoc. apply bres_bind_ext. intros field'. apply IH.
Qed.

(** Binding a struct keeps its name, its methods and the names of its
    fields. *)
Lemma Struct_loop_fields rec c path keys name methods fields v' calls :
  Struct_loop rec c path keys (GStruct name methods fields) = Bound v' calls →
  ∃ fields', v' = GStruct name methods fields' ∧ fields'.*1 = fields.*1.
Proof.
  revert fields calls. induction keys as [|k keys IH]; intros fields calls; simpl.
  - intros [= <- <-]. eauto.
  - destruct (k =? typeKey)%string; [apply IH|].
    destruct (assoc k fields) as [[[] field]|] eqn:Hk; try done.
    intros (field' & c1 & c2 & _ & Hloop & _)%bres_bind_not_Bound.
    apply IH in Hloop as (fields' & -> & Hfields).
    exists fields'. split; [done|]. by rewrite Hfields, assoc_set_keys.
Qed.

(** A key that names no field stops the struct handler, whichever keys
    come before it. *)
Lemma Struct_loop_unknown_field rec c path keys name methods fields k v' calls :
  k ∈ keys → k ≠ typeKey → assoc k fields = None →
  Struct_loop rec c path keys (GStruct name methods fields) ≠ Bound v' calls.
Proof.
  intros Hin Hk Hnone.
  apply list_elem_of_split in Hin as (keys1 & keys2 & ->).
  rewrite Struct_loop_app.
  intros (v1 & c1 & c2 & Hloop & Hrest & _)%bres_bind_not_Bound.
  apply Struct_loop_fields in Hloop as (fields' & -> & Hfields).
  simpl in Hrest. rewrite (proj2 (String.eqb_neq _ _)) in Hrest by done.
  assert (assoc k fields' = None) as Hnone'.
  { apply assoc_None. rewrite Hfields. by apply assoc_None. }
  by rewrite Hnone' in Hrest.
Qed.

(** When the keys before it bind, the failure is the one about the
    unknown field: its path is the path of the struct, and the key is in
    its message. *)
Lemma Struct_loop_first_unknown rec c path keys1 keys2 name methods fields k
    v1 calls1 :
  k ≠ typeKey → assoc k fields = None →
  Struct_loop rec c path keys1 (GStruct name methods fields) = Bound v1 calls1 →
  Struct_loop rec c path (keys1 ++ k :: keys2) (GStruct name methods fields)
  = Failed {| cve_Path := path; cve_Message := FieldNotFound k (typeof v1) |}.
Proof.
  intros Hk Hnone Hloop. rewrite Struct_loop_app, Hloop, bres_bind_Bound.
  apply Struct_loop_fields in Hloop as (fields' & -> & Hfields).
  simpl. rewrite (proj2 (String.eqb_neq _ _)) by done.
  assert (assoc k fields' = None) as ->; [|done].
  apply assoc_None. rewrite Hfields. by apply assoc_None.
Qed.

(** How [configure] deals with a map source, once the target and the
    source are unwrapped. *)
Lemma configure_map fuel types v config c path :
  config ≫= Elem_loop = Some c →
  type_Kind (typeof c) = KMap →
  configure (S fuel) types v config path =
  (indirect v).2 <$>
    match type_Kind (typeof (indirect v).1) with
    | KInterface =>
        configureInterface (configure fuel types) types (indirect v).1 c path
    | KStruct => configureStruct (configure fuel types) (indirect v).1 c path
    | KMap => configureMap (configure fuel types) (indirect v).1 c path
    | _ => Failed {| cve_Path := path;
                     cve_Message := MapCannotConfigure (typeof (indirect v).1) |}
    end.
Proof.
  intros Hc Hmap. simpl. unfold configure_body.
  destruct (indirect v) as [x k]. by rewrite Hc, Hmap.
Qed.

(** A scalar target never reaches a handler that recurses or consults the
    registry. *)
Lemma configure_body_prim rec rec' types types' p config path :
  configure_body rec types (GPrim p) config path
  = configure_body rec' types' (GPrim p) config path ∧
  ∀ v calls, configure_body rec types (GPrim p) config path = Bound v calls →
             calls = [].
Proof.
  unfold configure_body. simpl.
  destruct (config ≫= Elem_loop) as [c|]; [|split; [done|]].
  - destruct (type_Kind (typeof c)) eqn:Hk;
      try (split; [done|]; unfold configureScalar;
           destruct (GPrim p) eqn:?; simplify_eq;
           case_match; by intros ?? [= _ <-]).
    + split; [done|]. done.
    + split; [done|]. done.
    + destruct p as [|k| |]; try destruct k; split; done.
  - unfold configureScalar. destruct p as [|k| |]; try destruct k; simpl;
      by intros ?? [= _ <-].
Qed.

Lemma configure_prim fuel types types' p config path :
  configure fuel types (GPrim p) config path
  = configure fuel types' (GPrim p) config path ∧
  ∀ v calls, configure fuel types (GPrim p) config path = Bound v calls →
             calls = [].
Proof. destruct fuel; [done|]. apply configure_body_prim. Qed.

(** Binding scalar fields of a struct calls no provider and does not
    depend on the registry. *)
Lemma Struct_loop_scalars fuel types types' c path keys name methods :
  ∀ fields,
  NoDup keys → scalar_fields keys fields →
  Struct_loop (configure fuel types) c path keys (GStruct name methods fields)
  = Struct_loop (configure fuel types') c path keys
      (GStruct name methods fields) ∧
  ∀ v calls,
    Struct_loop (configure fuel types) c path keys (GStruct name methods fields)
    = Bound v calls → calls = [].
Proof.
  induction keys as [|k keys IH]; intros fields Hnd Hsc; simpl.
  - split; [done|]. by intros ?? [= _ <-].
  - apply NoDup_cons in Hnd as [Hk Hnd].
    destruct (k =? typeKey)%string.
    { apply IH; [done|]. intros k' b f Hin. apply Hsc. by right. }
    destruct (assoc k fields) as [[[] f]|] eqn:Hf; [|done|done].
    destruct (Hsc k true f) as [p ->]; [by left|done|].
    destruct (configure_prim fuel types types' p (gv_mapIndex c k)
                (path +:+ "." +:+ k)) as [<- Hcalls].
    destruct (configure fuel types (GPrim p) (gv_mapIndex c k)
                (path +:+ "." +:+ k)) as [x calls0| | |] eqn:Hx; [|done..].
    rewrite (Hcalls x calls0) by done. rewrite !bres_bind_Bound.
    destruct (IH (assoc_set k (true, x) fields)) as [<- Hcalls']; [done| |].
    { intros k' b f Hin Hf'. apply (Hsc k' b f); [by right|].
      rewrite assoc_set_ne in Hf'; [done|]. by intros ->. }
    destruct (Struct_loop _ _ _ _ _) as [v' calls'| | |] eqn:Hloop; [|done..].
    split; [done|]. intros v calls [= _ <-]. by rewrite (Hcalls' v' calls').
Qed.

(** C3.  A map source bound onto an interface slot that holds a non-nil
    pointer to a struct is bound onto that struct, which stays where it
    is: the interface handler is not entered, so no provider is looked up
    or called for the slot, and the entry under "type" is passed over
    like any other key the struct handler skips.  When the fields named by
    the source are scalars, no provider is called at all and the outcome is
    the same whatever is registered. *)
Theorem rebind_populated_interface fuel types name methods e sname smethods
    fields config c path :
  config ≫= Elem_loop = Some c →
  type_Kind (typeof c) = KMap →
  configure (S fuel) types
    (populated name methods e (GStruct sname smethods fields)) config path
  = populated name methods e <$>
      Struct_loop (configure fuel types) c path
        (filter (λ k, k ≠ typeKey) (gv_MapKeys c))
        (GStruct sname smethods fields) ∧
  (NoDup (gv_MapKeys c) → scalar_fields (gv_MapKeys c) fields →
   (∀ types',
      configure (S fuel) types
        (populated name methods e (GStruct sname smethods fields)) config path
      = configure (S fuel) types'
          (populated name methods e (GStruct sname smethods fields)) config path) ∧
   (∀ v calls,
      configure (S fuel) types
        (populated name methods e (GStruct sname smethods fields)) config path
      = Bound v calls → calls = [])).
Proof.
  intros Hc Hmap. unfold populated. split.
  - rewrite (configure_map _ _ _ _ c) by done. simpl.
    unfold configureStruct. by rewrite Struct_loop_skips_type.
  - intros Hnd Hsc. split.
    + intros types'. rewrite !(configure_map _ _ _ _ c) by done.
      simpl. unfold configureStruct.
      by destruct (Struct_loop_scalars fuel types types' c path (gv_MapKeys c)
                     sname smethods fields Hnd Hsc) as [-> _].
    + intros v calls. rewrite (configure_map _ _ _ _ c) by done.
      simpl. unfold configureStruct.
      destruct (Struct_loop_scalars fuel types types c path (gv_MapKeys c)
                  sname smethods fields Hnd Hsc) as [_ Hcalls].
      destruct (Struct_loop _ _ _ _ _) as [v' calls'| | |] eqn:Hloop; [|done..].
      intros [= _ <-]. by eapply Hcalls.
Qed.

(** C6, as the code has it.  With a map source that holds a key, other
    than "type", naming no field of the struct target, the bind never
    succeeds; when the keys listed before that key bind, it fails with the
    field-not-found condition, whose path is the path of the struct itself
    and whose message names the key.  With a map source whose "type" names
    no registered provider, binding onto an interface slot that has
    methods and does not already hold a non-nil pointer fails with the
    unknown-type condition. *)
Theorem unknown_field_unknown_type fuel types config c path :
  config ≫= Elem_loop = Some c →
  type_Kind (typeof c) = KMap →
  (∀ name methods fields k v' calls,
     k ∈ gv_MapKeys c → k ≠ typeKey → assoc k fields = None →
     configure (S fuel) types (GStruct name methods fields) config path
     ≠ Bound v' calls) ∧
  (∀ name methods fields keys1 k keys2 v1 calls1,
     gv_MapKeys c = keys1 ++ k :: keys2 → k ≠ typeKey →
     assoc k fields = None →
     Struct_loop (configure fuel types) c path keys1
       (GStruct name methods fields) = Bound v1 calls1 →
     configure (S fuel) types (GStruct name methods fields) config path
     = Failed {| cve_Path := path;
                 cve_Message := FieldNotFound k (typeof v1) |}) ∧
  (∀ name m methods x tk,
     (∀ e y, x ≠ Some (GPtr e (Some y))) →
     gv_mapIndex c typeKey = Some (GPrim (PString tk)) →
     types !! tk = None →
     configure (S fuel) types (GInterface name (m :: methods) x) config path
     = Failed {| cve_Path := path; cve_Message := TypeUnknown tk |}).
Proof.
  intros Hc Hmap. split_and!.
  - intros name methods fields k v' calls Hin Hk Hnone.
    rewrite (configure_map _ _ _ _ c) by done. simpl. unfold configureStruct.
    destruct (Struct_loop _ _ _ _ _) as [v1 c1| | |] eqn:Hloop; try done.
    intros _. by eapply Struct_loop_unknown_field.
  - intros name methods fields keys1 k keys2 v1 calls1 Hkeys Hk Hnone Hloop.
    rewrite (configure_map _ _ _ _ c) by done. simpl. unfold configureStruct.
    by rewrite Hkeys, (Struct_loop_first_unknown _ _ _ _ _ _ _ _ _ v1 calls1).
  - intros name m methods x tk Hx Htk Hnone.
    rewrite (configure_map _ _ _ _ c) by done.
    assert (indirect (GInterface name (m :: methods) x)
            = (GInterface name (m :: methods) x, λ y, y)) as ->.
    { destruct x as [[|e [y|]| | | | |]|]; try done. by destruct (Hx e y). }
    simpl. by rewrite Htk, Hnone.
Qed.

End struct_interface.

Lemma rebind_populated_interface_witness :
  Some typed_object ≫= Elem_loop
  = Some (GMap TAny (Some [("type", json_string "C1"); ("E1", json_string "abc")])) ∧
  configure 2 ∅ (C (Some (ptr (D "xyz" "123")))) (Some typed_object) ""
  = Bound (C (Some (ptr (D "abc" "123")))) [].
Proof.
  split; [reflexivity|].
  etrans; [apply (proj1 (rebind_populated_interface 1 ∅ "C" ["Foo"]
                           (typeof (D "xyz" "123")) "D" ["Foo"] _
                           (Some typed_object) _ "" eq_refl eq_refl))|].
  vm_compute. reflexivity.
Defined.

Lemma unknown_field_unknown_type_witness :
  Some stray_object ≫= Elem_loop
  = Some (GMap TAny (Some [("E1", json_string "abc"); ("X", json_number 1)])) ∧
  configure 2 ∅ (D "" "") (Some stray_object) "app"
  = Failed {| cve_Path := "app";
              cve_Message := FieldNotFound "X" (typeof (D "" "")) |}.
Proof.
  split; [reflexivity|].
  apply (proj1 (proj2 (unknown_field_unknown_type 1 ∅ (Some stray_object) _
                         "app" eq_refl eq_refl))
           "D" ["Foo"] _ ["E1"] "X" [] (D "abc" "") []);
    [reflexivity | discriminate | reflexivity | vm_compute; reflexivity].
Defined.

(** C6, as the specification states it, fails: the error for the stray key "X" has
    the path of the struct, "app", which does not include the key. *)
Lemma unknown_field_path_without_key :
  configure 2 ∅ (D "" "") (Some stray_object) "app"
  = Failed {| cve_Path := "app";
              cve_Message := FieldNotFound "X" (typeof (D "" "")) |} ∧
  index 0 "X" "app" = None.
Proof. split; vm_compute; reflexivity. Qed.

(** ** Arrays and slices *)

Section sequences.
Context `{Reflect}.
Implicit Types rec : binder.

(** The loop of [configureArray] replaces, position by position, the
    elements it visits by the outcome of their binds, and keeps the
    others. *)
Lemma Index_loop_spec rec cs path rs : ∀ i l,
  (∀ j r, rs !! j = Some r →
     ∃ x c, l !! (i + j)%nat = Some x ∧ cs !! (i + j)%nat = Some c ∧
            rec x (Some c) (path +:+ "." +:+ Itoa (i + j)) = Bound r.1 r.2) →
  Index_loop rec cs path i (length rs) l
  = Bound (take i l ++ rs.*1 ++ drop (i + length rs) l) (concat rs.*2).
Proof.
  induction rs as [|r rs IH]; intros i l Hrs; csimpl.
  - by rewrite Nat.add_0_r, take_drop.
  - destruct (Hrs 0%nat r eq_refl) as (x & c & Hl & Hc & Hrec).
    rewrite Nat.add_0_r in Hl, Hc, Hrec. rewrite Hl, Hc, Hrec.
    rewrite bres_bind_Bound, (IH (S i) (<[i:=r.1]> l)).
    + f_equal. assert (i < length l)%nat by (by eapply lookup_lt_Some).
      rewrite (take_S_r (<[i:=r.1]> l) i r.1)
        by (by rewrite list_lookup_insert_eq).
      rewrite take_insert_ge, drop_insert_lt by lia.
      rewrite <-(assoc_L (++)). simpl. by rewrite Nat.add_succ_r.
    + intros j r' Hj. destruct (Hrs (S j) r' Hj) as (x' & c' & Hl' & Hc' & Hrec').
      rewrite Nat.add_succ_r in Hl', Hc', Hrec'. exists x', c'.
      by rewrite list_lookup_insert_ne by lia.
Qed.

Lemma Index_loop_from_0 rec cs path rs l k :
  k = length rs →
  bound_elems rec path l cs rs →
  Index_loop rec cs path 0 k l = Bound (rs.*1 ++ drop k l) (concat rs.*2).
Proof. intros -> Hrs. by rewrite Index_loop_spec. Qed.

(** C2.  Onto an array of capacity [c], a sequence of [n] elements binds
    its first [min n c] elements position by position; the elements past
    [c] are ignored without an error and the positions from [min n c] on
    receive the zero value.  Onto a slice, the elements bind onto a backing
    store that has grown to [n] when the capacity was smaller, with the
    former elements in place, and the slice ends up with exactly the [n]
    bound elements, also when it was longer before. *)
Theorem configureArray_positional rec e config path :
  (∀ l rs,
     length rs = (length (elements_of config) `min` length l)%nat →
     bound_elems rec path l (elements_of config) rs →
     configureArray rec (GArray e l) config path
     = Bound (GArray e (rs.*1 ++ replicate (length l - length rs) (zero e)))
         (concat rs.*2)) ∧
  (∀ l cap rs,
     (length l ≤ cap)%nat →
     (cap < length (elements_of config)
      ∨ length (elements_of config) ≤ length l)%nat →
     length rs = length (elements_of config) →
     bound_elems rec path
       (l ++ replicate (length (elements_of config) - length l) (zero e))
       (elements_of config) rs →
     configureArray rec (GSlice e cap l) config path
     = Bound (GSlice e (cap `max` length (elements_of config)) rs.*1)
         (concat rs.*2)).
Proof.
  split.
  - intros l rs Hlen Hrs. unfold configureArray.
    set (n := length (elements_of config)) in *.
    rewrite (Index_loop_from_0 _ _ _ rs), bres_bind_Bound;
      [|destruct (Nat.ltb_spec (length l) n); lia|done].
    assert ((if (length l <? n)%nat then length l else n) = length rs) as ->.
    { destruct (Nat.ltb_spec (length l) n); lia. }
    rewrite length_app, length_fmap, length_drop.
    destruct (Nat.ltb_spec (length rs) (length rs + (length l - length rs)));
      simpl; rewrite app_nil_r; do 2 f_equal.
    + rewrite take_app_length' by by rewrite length_fmap.
      do 2 f_equal. lia.
    + rewrite drop_ge by lia.
      replace (length l - length rs)%nat with 0%nat by lia. done.
  - intros l cap rs Hcap Hn Hlen Hrs. unfold configureArray.
    set (n := length (elements_of config)) in *.
    destruct (Nat.ltb_spec cap n) as [Hlt|Hge].
    + rewrite Nat.ltb_irrefl.
      rewrite (Index_loop_from_0 _ _ _ rs); [|by rewrite Hlen|done].
      rewrite bres_bind_Bound.
      rewrite drop_ge by (rewrite length_app, length_replicate; lia).
      rewrite app_nil_r, length_fmap, Hlen, Nat.ltb_irrefl. simpl.
      rewrite app_nil_r. do 2 f_equal. lia.
    + assert (n ≤ length l)%nat as Hnl by lia.
      replace (n - length l)%nat with 0%nat in Hrs by lia.
      rewrite app_nil_r in Hrs. cbv beta iota zeta.
      destruct (Nat.ltb_spec cap n); [lia|].
      rewrite (Index_loop_from_0 _ _ _ rs); [|by rewrite Hlen|done].
      rewrite bres_bind_Bound.
      rewrite length_app, length_fmap, length_drop, Hlen.
      destruct (Nat.ltb_spec n (n + (length l - n)));
        simpl; rewrite app_nil_r; f_equal; f_equal; try lia.
      * by rewrite take_app_length' by by rewrite length_fmap.
      * rewrite drop_ge by lia. by rewrite app_nil_r.
Qed.

(** What the second part of [configureArray_positional] leaves out: a
    slice shorter than the source but with room for it is not grown, and
    the loop indexes past its length. *)
Lemma configureArray_room_without_length rec e cap config path :
  (0 < length (elements_of config) ≤ cap)%nat →
  configureArray rec (GSlice e cap []) config path
  = Panicked "reflect: index out of range".
Proof.
  intros [Hpos Hcap]. unfold configureArray.
  destruct (Nat.ltb_spec cap (length (elements_of config))); [lia|].
  cbv beta iota zeta.
  destruct (Nat.ltb_spec cap (length (elements_of config))); [lia|].
  by destruct (length (elements_of config)); [lia|].
Qed.

End sequences.

(** ** Reading and writing by path *)

Section paths.
Context `{Reflect}.

Lemma Split_nonempty s : Split s ≠ [].
Proof. destruct s as [|a s]; simpl; [done|]. by repeat case_match. Qed.

Lemma IsValid_false v : IsValid v = false → v = VNil.
Proof. by destruct v. Qed.

Lemma IsValid_true v : v ≠ VNil → IsValid v = true.
Proof. by destruct v. Qed.

Lemma resolve_nil h parts : resolve h VNil parts = VNil.
Proof. induction parts; [done|]. simpl. apply IHparts. Qed.

(** The loop of [Get] finds the value the path leads to. *)
Lemma Get_walk_resolve h v parts :
  parts ≠ [] →
  Get_walk h v parts =
  if IsValid (resolve h v parts) then Some (resolve h v parts) else None.
Proof.
  revert v. induction parts as [|p parts IH]; intros v Hne; [done|].
  destruct parts as [|p' parts]; [done|].
  change (Get_walk h v (p :: p' :: parts)) with
    (if IsValid (getElement h v p)
     then Get_walk h (getElement h v p) (p' :: parts) else None).
  destruct (IsValid (getElement h v p)) eqn:Hvalid.
  - by rewrite IH.
  - apply IsValid_false in Hvalid. cbn [resolve]. rewrite Hvalid.
    by rewrite resolve_nil.
Qed.

(** C10.  With a default that is not nil, [Get] returns the default when
    the path leads to no value, the value converted to the type of the
    default when the types are convertible, and the default when they are
    not. *)
Theorem Get_default h c path d :
  d ≠ VNil →
  Get h c path d =
  match resolve h (data c) (Split path) with
  | VNil => d
  | v =>
      if ConvertibleTo (TypeOf v) (TypeOf d)
      then ConvertValue v (TypeOf d)
      else d
  end.
Proof.
  intros Hd. unfold Get.
  rewrite Get_walk_resolve by apply Split_nonempty.
  rewrite (IsValid_true d) by done.
  by destruct (resolve h (data c) (Split path)).
Qed.

(** *** [Set] *)


Lemma setElement_slice h cap l p v h' :
  setElement h (VSlice cap l) p v ≠ Ok (h', None).
Proof. unfold setElement. by repeat case_match. Qed.


Lemma setElement_map_Some h l m p v :
  v ≠ VNil → h !! l = Some m →
  setElement h (VMap l) p v = Ok (<[l := <[p := v]> m]> h, None).
Proof.
  intros Hv Hl. unfold setElement, SetMapIndex. rewrite Hl. by destruct v.
Qed.

Lemma mapIndex_insert_eq h l m k :
  mapIndex (<[l := m]> h) l k = default VNil (m !! k).
Proof. unfold mapIndex, map_at. by rewrite lookup_insert_eq. Qed.

Lemma mapIndex_insert_ne h l l' m k :
  l ≠ l' → mapIndex (<[l := m]> h) l' k = mapIndex h l' k.
Proof. intros. unfold mapIndex, map_at. by rewrite lookup_insert_ne. Qed.







End paths.

Lemma Get_default_witness :
  VPrim (PInt Int 0) ≠ VNil ∧
  Get loaded_heap loaded_config "a" (VPrim (PInt Int 0)) = VPrim (PInt Int 100) ∧
  Get loaded_heap loaded_config "a" (VPrim (PString "abc")) = VPrim (PString "abc") ∧
  Get loaded_heap loaded_config "a.b" (VPrim (PInt Int 7)) = VPrim (PInt Int 7).
Proof.
  split; [discriminate|]. split_and!.
  - etrans; [by apply (Get_default loaded_heap loaded_config "a")|].
    vm_compute. reflexivity.
  - vm_compute. reflexivity.
  - vm_compute. reflexivity.
Defined.


(** ** Merging *)

Section merging.
Context `{Reflect}.

Lemma MapKeys_NoDup m : NoDup (MapKeys m).
Proof. rewrite MapKeys_perm. apply NoDup_fst_map_to_list. Qed.

Lemma elem_of_MapKeys m k : k ∈ MapKeys m ↔ is_Some (m !! k).
Proof.
  rewrite MapKeys_perm, list_elem_of_fmap. split.
  - intros ([k' e] & -> & Hin). apply elem_of_map_to_list in Hin. eauto.
  - intros [e He]. exists (k, e). by rewrite elem_of_map_to_list.
Qed.

Lemma write_lookup k e m k' :
  write k e m !! k' = if decide (k = k') then kept e else m !! k'.
Proof.
  unfold write. destruct (decide (k = k')) as [<-|].
  - destruct e; by rewrite ?lookup_delete_eq, ?lookup_insert_eq.
  - destruct e; by rewrite ?lookup_delete_ne, ?lookup_insert_ne.
Qed.

Lemma SetMapIndex_write h l m k e :
  h !! l = Some m → SetMapIndex h l k e = Ok (<[l := write k e m]> h).
Proof. intros Hl. unfold SetMapIndex, write. rewrite Hl. by destruct e. Qed.

Lemma foldl_write_lookup (m2 : gmap string value) ks : ∀ m k,
  foldl (λ m k, write k (default VNil (m2 !! k)) m) m ks !! k
  = if decide (k ∈ ks) then m2 !! k ≫= kept else m !! k.
Proof.
  induction ks as [|k0 ks IH]; intros m k; cbn [foldl].
  - by rewrite decide_False by apply not_elem_of_nil.
  - rewrite IH, write_lookup. destruct (decide (k ∈ ks)) as [Hin|Hin].
    + by rewrite decide_True by by right.
    + destruct (decide (k0 = k)) as [->|Hne].
      * rewrite decide_True by by left. by destruct (m2 !! k).
      * rewrite decide_False; [done|]. by intros [->|?]%elem_of_cons.
Qed.

Lemma overlay_lookup m1 m2 k :
  overlay m1 m2 !! k =
  match m2 !! k with
  | Some e => kept e
  | None => m1 !! k
  end.
Proof.
  unfold overlay. rewrite lookup_union, lookup_omap, lookup_difference.
  destruct (m2 !! k) as [e|]; simpl.
  - by destruct (kept e).
  - by destruct (m1 !! k).
Qed.

(** Where the update holds no nil, the overlay is the update's entries
    on top of the base's: the union of the keys, the update winning. *)
Lemma overlay_union m1 m2 :
  (∀ k, m2 !! k ≠ Some VNil) → overlay m1 m2 = m2 ∪ m1.
Proof.
  intros Hnil. apply map_eq. intros k.
  rewrite overlay_lookup, lookup_union.
  destruct (m2 !! k) as [e|] eqn:He.
  - destruct e; simpl; try by destruct (m1 !! k). by apply Hnil in He.
  - by destruct (m1 !! k).
Qed.

(** The loop of [merge] over an update without nested mappings. *)
Lemma merge_loop_flat fuel l1 l2 (m2 : gmap string value) ks : ∀ h m,
  flat m2 → NoDup ks →
  h !! l1 = Some m →
  (∀ k, k ∈ ks → mapIndex h l2 k = default VNil (m2 !! k)) →
  res_foldl
    (λ h key,
       let e1 := mapIndex h l1 key in
       let e2 := mapIndex h l2 key in
       '(h, e2) ←
          (match e1, e2 with
           | VMap _, VMap _ => merge fuel h e1 e2
           | _, _ => Ok (h, e2)
           end);
       SetMapIndex h l1 key e2)
    h ks
  = Ok (<[l1 := foldl (λ m k, write k (default VNil (m2 !! k)) m) m ks]> h).
Proof.
  induction ks as [|k ks IH]; intros h m Hflat Hnd Hl1 Hread.
  - simpl. by rewrite insert_id.
  - apply NoDup_cons in Hnd as [Hk Hnd]. cbn [res_foldl foldl].
    rewrite (Hread k) by by left.
    assert (∀ e1, match e1, default VNil (m2 !! k) with
                  | VMap _, VMap _ => merge fuel h e1 (default VNil (m2 !! k))
                  | _, _ => Ok (h, default VNil (m2 !! k))
                  end = Ok (h, default VNil (m2 !! k))) as ->.
    { intros e1. destruct (m2 !! k) as [[| | |l]|] eqn:He; simpl;
        try by destruct e1. by apply Hflat in He. }
    cbn. rewrite (SetMapIndex_write _ _ m) by done. cbn.
    rewrite (IH _ (write k (default VNil (m2 !! k)) m)); try done.
    + by rewrite insert_insert_eq.
    + by rewrite lookup_insert_eq.
    + intros k' Hk'. rewrite <-(Hread k') by by right.
      destruct (decide (l1 = l2)) as [<-|Hne].
      * rewrite mapIndex_insert_eq, write_lookup.
        rewrite decide_False by (by intros ->).
        unfold mapIndex, map_at. by rewrite Hl1.
      * by rewrite mapIndex_insert_ne.
Qed.

(** Merging an update without nested mappings into a base map object:
    the object itself receives the entries of the update and is what
    [merge] returns. *)
Lemma merge_flat fuel h l1 l2 m1 :
  h !! l1 = Some m1 → flat (map_at h l2) →
  merge (S fuel) h (VMap l1) (VMap l2)
  = Ok (<[l1 := overlay m1 (map_at h l2)]> h, VMap l1).
Proof.
  intros Hl1 Hflat. cbn [merge].
  rewrite (merge_loop_flat _ _ _ (map_at h l2) _ _ m1);
    [|done|apply MapKeys_NoDup|done|done].
  cbn. do 3 f_equal. apply map_eq. intros k.
  rewrite foldl_write_lookup, overlay_lookup.
  destruct (decide (k ∈ MapKeys (map_at h l2))) as [Hin|Hin].
  - apply elem_of_MapKeys in Hin as [e ->]. done.
  - rewrite elem_of_MapKeys, <-eq_None_not_Some in Hin. by rewrite Hin.
Qed.

(** Whatever the fuel, merging two mappings returns the base reference
    when it returns at all. *)
Lemma merge_returns_base fuel h l1 l2 h' r :
  merge fuel h (VMap l1) (VMap l2) = Ok (h', r) → r = VMap l1.
Proof.
  destruct fuel as [|fuel]; [done|]. cbn [merge].
  destruct (res_foldl _ _ _); cbn; [|done..]. by intros [= _ <-].
Qed.

(** C1, where the code departs from it: with base [{"a": 1}] and update
    [{"a": null}], the base ends up without the key "a", where the rule of
    the specification gives the key the update's value, null. *)
Theorem merge_null_deletes fuel :
  merge (S fuel) null_heap (VMap 1%positive) (VMap 2%positive)
  = Ok (<[1%positive := ∅]> null_heap, VMap 1%positive).
Proof.
  rewrite (merge_flat _ _ _ _ {[ "a" := VPrim (PFloat 1) ]}).
  - change (map_at null_heap 2%positive)
      with ({[ "a" := VNil ]} : gmap string value).
    assert (overlay {[ "a" := VPrim (PFloat 1) ]} {[ "a" := VNil ]}
            = (∅ : gmap string value)) as ->; [|done].
    apply map_eq. intros k. rewrite overlay_lookup, lookup_empty.
    destruct (decide (k = "a")) as [->|].
    + by rewrite lookup_singleton_eq.
    + by rewrite !lookup_singleton_ne.
  - done.
  - change (map_at null_heap 2%positive)
      with ({[ "a" := VNil ]} : gmap string value).
    intros k l. destruct (decide (k = "a")) as [->|].
    + by rewrite lookup_singleton_eq.
    + by rewrite lookup_singleton_ne.
Qed.

End merging.

(** ** Merging nested mappings *)

(** Induction on trees, with the hypothesis for every child. *)
Lemma ltree_ind' (P : ltree → Prop) :
  (∀ v, P (Leaf v)) →
  (∀ l kids, Forall (λ kt, P kt.2) kids → P (Node l kids)) →
  ∀ t, P t.
Proof.
  intros Hl Hn. fix IH 1. intros [v|l kids]; [apply Hl|]. apply Hn.
  induction kids as [|[k t] kids IHk]; constructor; [apply IH | apply IHk].
Qed.

Lemma tmerge_Node l1 kids1 l2 kids2 :
  tmerge (Node l1 kids1) (Node l2 kids2) = Node l1 (foldl tstep kids1 kids2).
Proof. reflexivity. Qed.

Lemma all_Forall {A} (Q : A → Prop) (kids : list (string * A)) :
  foldr (λ (kt : string * A) P, Q kt.2 ∧ P) True kids
  ↔ Forall (λ kt, Q kt.2) kids.
Proof.
  induction kids as [|kt kids IH]; simpl.
  - split; [constructor|done].
  - rewrite Forall_cons. by rewrite IH.
Qed.

Lemma assoc_Some_elem {A} k (a : A) l : assoc k l = Some a → (k, a) ∈ l.
Proof.
  induction l as [|[k' a'] l IH]; simpl; [done|].
  destruct (String.eqb_spec k k') as [->|].
  - intros [= ->]. by left.
  - intros. right. by apply IH.
Qed.

Lemma elem_assoc_Some {A} k (a : A) l :
  NoDup l.*1 → (k, a) ∈ l → assoc k l = Some a.
Proof.
  induction l as [|[k' a'] l IH]; csimpl; [by intros _ ?%elem_of_nil|].
  intros [Hk' Hnd]%NoDup_cons [[= -> ->]|Hin]%elem_of_cons.
  - by rewrite String.eqb_refl.
  - destruct (String.eqb_spec k k') as [->|]; [|by apply IH].
    destruct Hk'. apply list_elem_of_fmap. by exists (k', a).
Qed.

Lemma assoc_set_eq {A} k (a : A) l : assoc k (assoc_set k a l) = Some a.
Proof.
  induction l as [|[k' a'] l IH]; simpl.
  - by rewrite String.eqb_refl.
  - destruct (String.eqb_spec k k') as [->|Hne]; simpl.
    + by rewrite String.eqb_refl.
    + by rewrite (proj2 (String.eqb_neq _ _)) by done.
Qed.

Lemma assoc_del_eq {A} k (l : list (string * A)) :
  assoc k (assoc_del k l) = None.
Proof.
  induction l as [|[k' a'] l IH]; simpl; [done|].
  destruct (String.eqb_spec k k') as [->|Hne]; simpl; [done|].
  by rewrite (proj2 (String.eqb_neq _ _)) by done.
Qed.

Lemma assoc_del_ne {A} k k' (l : list (string * A)) :
  k ≠ k' → assoc k' (assoc_del k l) = assoc k' l.
Proof.
  intros Hne. induction l as [|[k0 a0] l IH]; simpl; [done|].
  destruct (String.eqb_spec k k0) as [->|]; simpl.
  - by rewrite (proj2 (String.eqb_neq k' k0)) by done.
  - destruct (k' =? k0)%string; [done|apply IH].
Qed.

Lemma assoc_del_elem {A} k (l : list (string * A)) kt :
  kt ∈ assoc_del k l → kt ∈ l.
Proof.
  induction l as [|[k0 a0] l IH]; simpl; [done|].
  destruct (k =? k0)%string.
  - intros. right. by apply IH.
  - intros [->|?]%elem_of_cons; [by left|]. right. by apply IH.
Qed.

Lemma assoc_del_NoDup {A} k (l : list (string * A)) :
  NoDup l.*1 → NoDup (assoc_del k l).*1.
Proof.
  induction l as [|[k0 a0] l IH]; csimpl; [done|].
  intros [Hk0 Hnd]%NoDup_cons. destruct (k =? k0)%string; [by apply IH|].
  csimpl. apply NoDup_cons. split; [|by apply IH].
  intros ([k1 a1] & ? & Hin%assoc_del_elem)%list_elem_of_fmap. simpl in *.
  subst. apply Hk0. apply list_elem_of_fmap. by exists (k1, a1).
Qed.

Lemma assoc_set_keys_new {A} k (a : A) l :
  assoc k l = None → (assoc_set k a l).*1 = l.*1 ++ [k].
Proof.
  induction l as [|[k' a'] l IH]; csimpl; [done|].
  destruct (String.eqb_spec k k') as [->|]; [done|].
  intros Hk. csimpl. f_equal. by apply IH.
Qed.

Lemma assoc_set_NoDup {A} k (a : A) (l : list (string * A)) :
  NoDup l.*1 → NoDup (assoc_set k a l).*1.
Proof.
  intros Hnd. destruct (assoc k l) as [a'|] eqn:Hk.
  - by rewrite assoc_set_keys by eauto.
  - rewrite assoc_set_keys_new by done. apply NoDup_app. split_and!; [done| |].
    + intros k' Hin ->%list_elem_of_singleton. by apply assoc_None in Hk.
    + apply NoDup_singleton.
Qed.

Lemma assoc_set_elem {A} k (a : A) l kt :
  kt ∈ assoc_set k a l → kt = (k, a) ∨ kt ∈ l.
Proof.
  induction l as [|[k0 a0] l IH]; simpl.
  - intros ->%list_elem_of_singleton. by left.
  - destruct (k =? k0)%string.
    + intros [->|?]%elem_of_cons; [by left|]. right. by right.
    + intros [->|Hin]%elem_of_cons; [right; by left|].
      destruct (IH Hin) as [->|?]; [by left|]. right. by right.
Qed.

Lemma elem_of_concat_map {A B} (f : A → list B) (l : list A) x :
  x ∈ concat (map f l) ↔ ∃ a, a ∈ l ∧ x ∈ f a.
Proof.
  induction l as [|a l IH]; simpl.
  - split; [by intros ?%elem_of_nil | by intros (? & ?%elem_of_nil & _)].
  - rewrite elem_of_app, IH. split.
    + intros [?|(a' & ? & ?)]; [exists a; split; [by left|done]|].
      exists a'. split; [by right|done].
    + intros (a' & [->|?]%elem_of_cons & ?); [by left|]. right. by exists a'.
Qed.

Lemma locs_kid l kids k t x :
  (k, t) ∈ kids → x ∈ locs t → x ∈ locs (Node l kids).
Proof.
  intros Hin Hx. simpl. right. apply elem_of_concat_map. by exists (k, t).
Qed.

Lemma depth_kid l kids k t :
  (k, t) ∈ kids → (depth t < depth (Node l kids))%nat.
Proof.
  simpl. induction kids as [|kt kids IH]; [by intros ?%elem_of_nil|].
  intros [Heq|Hin]%elem_of_cons; simpl; [subst kt; simpl; lia|].
  specialize (IH Hin). lia.
Qed.

Lemma NoDup_locs_kids l kids :
  NoDup (locs (Node l kids)) →
  (∀ k t, (k, t) ∈ kids → NoDup (locs t) ∧ l ∉ locs t) ∧
  (∀ k t k' t',
     NoDup kids.*1 → (k, t) ∈ kids → (k', t') ∈ kids → k ≠ k' →
     locs t ## locs t').
Proof.
  simpl. intros [Hl Hnd]%NoDup_cons. split.
  - intros k t Hin. split.
    + clear Hl. induction kids as [|kt kids IH]; [by apply elem_of_nil in Hin|].
      simpl in Hnd. apply NoDup_app in Hnd as (Hkt & _ & Hnd).
      apply elem_of_cons in Hin as [Heq|Hin]; [by subst kt|by apply IH].
    + intros Hx. apply Hl. apply elem_of_concat_map. by exists (k, t).
  - clear Hl. induction kids as [|kt kids IH];
      intros k t k' t' Hkeys Hin Hin' Hne; [by apply elem_of_nil in Hin|].
    simpl in Hnd. apply NoDup_app in Hnd as (Hkt & Hdis & Hnd).
    csimpl in Hkeys. apply NoDup_cons in Hkeys as [_ Hkeys].
    apply elem_of_cons in Hin as [Heq|Hin];
      apply elem_of_cons in Hin' as [Heq'|Hin']; try subst kt.
    + by simplify_eq.
    + intros x Hx Hx'. apply (Hdis x Hx). apply elem_of_concat_map.
      by exists (k', t').
    + intros x Hx Hx'. apply (Hdis x Hx'). apply elem_of_concat_map.
      by exists (k, t).
    + by apply (IH Hnd k t k' t').
Qed.

Lemma rep_agree h h' t :
  (∀ l, l ∈ locs t → h' !! l = h !! l) → rep h t → rep h' t.
Proof.
  induction t as [v|l kids IH] using ltree_ind'; [done|].
  intros Hagree [(m & Hl & Hnd & Hm) Hkids]. split.
  - exists m. rewrite Hagree by by left. done.
  - apply all_Forall. apply all_Forall in Hkids.
    apply Forall_forall. intros [k t] Hin.
    rewrite Forall_forall in IH. rewrite Forall_forall in Hkids.
    apply (IH _ Hin); [|by apply (Hkids _ Hin)].
    intros x Hx. apply Hagree. by eapply locs_kid.
Qed.

Lemma ordered_agree `{Reflect} h h' t :
  (∀ l, l ∈ locs t → h' !! l = h !! l) → ordered h t → ordered h' t.
Proof.
  induction t as [v|l kids IH] using ltree_ind'; [done|].
  intros Hagree [Hkeys Hkids]. split.
  - unfold map_at in *. rewrite Hagree by by left. done.
  - apply all_Forall. apply all_Forall in Hkids.
    apply Forall_forall. intros [k t] Hin.
    rewrite Forall_forall in IH. rewrite Forall_forall in Hkids.
    apply (IH _ Hin); [|by apply (Hkids _ Hin)].
    intros x Hx. apply Hagree. by eapply locs_kid.
Qed.

Lemma rep_kid h l kids k t : rep h (Node l kids) → (k, t) ∈ kids → rep h t.
Proof.
  intros [_ Hkids%all_Forall] Hin. rewrite Forall_forall in Hkids.
  by apply (Hkids _ Hin).
Qed.

Lemma ordered_kid `{Reflect} h l kids k t :
  ordered h (Node l kids) → (k, t) ∈ kids → ordered h t.
Proof.
  intros [_ Hkids%all_Forall] Hin. rewrite Forall_forall in Hkids.
  by apply (Hkids _ Hin).
Qed.

Lemma rep_root_Leaf h v l : rep h (Leaf v) → v ≠ VMap l.
Proof. intros Hrep. apply Hrep. Qed.

Lemma merge_unfold `{Reflect} fuel h l1 l2 :
  merge (S fuel) h (VMap l1) (VMap l2)
  = h' ← res_foldl (mstep fuel l1 l2) h (MapKeys (map_at h l2));
    Ok (h', VMap l1).
Proof. reflexivity. Qed.

Lemma mstep_Ok `{Reflect} fuel l1 l2 h key hmid e h' :
  (match mapIndex h l1 key, mapIndex h l2 key with
   | VMap _, VMap _ => merge fuel h (mapIndex h l1 key) (mapIndex h l2 key)
   | _, _ => Ok (h, mapIndex h l2 key)
   end) = Ok (hmid, e) →
  SetMapIndex hmid l1 key e = Ok h' →
  mstep fuel l1 l2 h key = Ok h'.
Proof. unfold mstep. cbv zeta. by intros ->. Qed.

Section merge_loop.
Context `{Reflect}.
Variables (h0 : heap) (l1 l2 : loc) (kids1 kids2 : list (string * ltree)).
Hypothesis Hnd1 : NoDup (locs (Node l1 kids1)).
Hypothesis Hkeys1 : NoDup kids1.*1.
Hypothesis Hdis :
  ∀ x, x ∈ locs (Node l1 kids1) → x ∈ locs (Node l2 kids2) → False.

Lemma kidlocs_base k x : kidlocs kids1 k x → x ∈ locs (Node l1 kids1) ∧ x ≠ l1.
Proof.
  intros (t1k & Hin & Hx). split; [by eapply locs_kid|].
  intros ->. by destruct (proj1 (NoDup_locs_kids _ _ Hnd1) k t1k Hin).
Qed.

Lemma kidlocs_disjoint k k' x :
  k ≠ k' → kidlocs kids1 k x → kidlocs kids1 k' x → False.
Proof.
  intros Hne (t & Hin & Hx) (t' & Hin' & Hx').
  by apply (proj2 (NoDup_locs_kids _ _ Hnd1) k t k' t' Hkeys1 Hin Hin' Hne x).
Qed.

(** Writing an element under a key keeps the invariant, when the store was
    last changed only below the child of the base under that key. *)
Lemma merge_inv_step h cur hmid k t' (D : loc → Prop) :
  merge_inv h0 l1 l2 kids1 kids2 h cur →
  (∀ x, D x → kidlocs kids1 k x) →
  (∀ x, ¬ D x → hmid !! x = h !! x) →
  rep hmid t' →
  (∀ x, x ∈ locs t' → kidlocs kids1 k x ∨ x ∈ locs (Node l2 kids2)) →
  ∃ h', SetMapIndex hmid l1 k (root t') = Ok h' ∧
        merge_inv h0 l1 l2 kids1 kids2 h' (twrite k t' cur).
Proof.
  intros ((M & Hl1 & HM) & Hnd & Hframe & Hkids) HD Hmid Hrep Hlocs.
  assert (∀ k0 x, kidlocs kids1 k0 x ∨ x ∈ locs (Node l2 kids2) → x ≠ l1)
    as Hnot1.
  { intros k0 x [Hx|Hx] ->; [by apply kidlocs_base in Hx as [_ ?]|].
    apply (Hdis l1); [by left|done]. }
  assert (hmid !! l1 = Some M) as Hmid1.
  { rewrite Hmid; [done|]. intros HDl.
    by apply HD, kidlocs_base in HDl as [_ ?]. }
  exists (<[l1 := write k (root t') M]> hmid). split.
  { unfold SetMapIndex, write. rewrite Hmid1. by destruct (root t'). }
  assert (NoDup (twrite k t' cur).*1) as Hnd'.
  { unfold twrite.
    destruct t' as [[]|];
      by (apply assoc_del_NoDup || apply assoc_set_NoDup). }
  split_and!.
  - exists (write k (root t') M). split; [by rewrite lookup_insert_eq|].
    intros k'. rewrite write_lookup, HM. unfold twrite.
    destruct (decide (k = k')) as [<-|Hne].
    + destruct t' as [[]|]; by rewrite ?assoc_del_eq, ?assoc_set_eq.
    + destruct t' as [[]|]; by rewrite ?assoc_del_ne, ?assoc_set_ne by done.
  - done.
  - intros x Hx. rewrite lookup_insert_ne by (intros <-; apply Hx; by left).
    rewrite Hmid, Hframe; [done..|].
    intros HDx. by apply HD, kidlocs_base in HDx as [? _].
  - intros k' t Hin.
    assert ((k' = k ∧ t = t') ∨ (k' ≠ k ∧ (k', t) ∈ cur))
      as [[-> ->]|[Hne Hcur]].
    { destruct (decide (k' = k)) as [->|Hne].
      - left. split; [done|]. apply (elem_assoc_Some _ _ _ Hnd') in Hin.
        unfold twrite in Hin.
        destruct t' as [[]|]; rewrite ?assoc_del_eq, ?assoc_set_eq in Hin;
          congruence.
      - right. split; [done|]. unfold twrite in Hin.
        destruct t' as [[]|];
          try (by apply assoc_del_elem in Hin);
          by apply assoc_set_elem in Hin as [[= ? ?]|?]. }
    + split; [|done]. eapply rep_agree; [|done].
      intros x Hx. apply lookup_insert_ne. intros <-.
      by apply (Hnot1 k l1 (Hlocs _ Hx)).
    + destruct (Hkids _ _ Hcur) as [Hrept Hlocst]. split; [|done].
      eapply rep_agree; [|done]. intros x Hx.
      rewrite lookup_insert_ne
        by (intros <-; by apply (Hnot1 k' l1 (Hlocst _ Hx))).
      apply Hmid. intros HDx. apply HD in HDx.
      destruct (Hlocst _ Hx) as [Hx'|Hx'].
      * by apply (kidlocs_disjoint k k' x).
      * apply kidlocs_base in HDx as [HDx _]. by apply (Hdis x).
Qed.

Variable f : nat.
Hypothesis Hrep2 : rep h0 (Node l2 kids2).
Hypothesis Hord : ordered h0 (Node l2 kids2).
Hypothesis IH : Forall (λ kt, merges kt.2) kids2.
Hypothesis Hdepth : ∀ k t, (k, t) ∈ kids2 → (depth t < f)%nat.

Lemma merge_inv_update h cur k t2k :
  merge_inv h0 l1 l2 kids1 kids2 h cur → (k, t2k) ∈ kids2 →
  mapIndex h l2 k = root t2k ∧ rep h t2k ∧ ordered h t2k.
Proof.
  intros (_ & _ & Hframe & _) Hin.
  assert (∀ x, x ∈ locs (Node l2 kids2) → h !! x = h0 !! x) as Hagree.
  { intros x Hx. apply Hframe. intros Hx'. by apply (Hdis x). }
  split_and!.
  - destruct Hrep2 as [(m2 & Hl2 & Hnd2 & Hm2) _].
    unfold mapIndex, map_at. rewrite Hagree by by left.
    by rewrite Hl2, Hm2, (elem_assoc_Some _ _ _ Hnd2 Hin).
  - eapply (rep_agree h0); [|by eapply rep_kid].
    intros x Hx. apply Hagree. by eapply locs_kid.
  - eapply (ordered_agree h0); [|by eapply ordered_kid].
    intros x Hx. apply Hagree. by eapply locs_kid.
Qed.

Lemma merge_inv_base h cur k :
  merge_inv h0 l1 l2 kids1 kids2 h cur →
  mapIndex h l1 k = default VNil (root <$> assoc k cur).
Proof.
  intros ((M & Hl1 & HM) & _). unfold mapIndex, map_at. by rewrite Hl1, HM.
Qed.

(** The inner step: merging the two elements, or taking the update's. *)
Lemma inner_step h cur k t2k :
  merge_inv h0 l1 l2 kids1 kids2 h cur →
  (k, t2k) ∈ kids2 → assoc k cur = assoc k kids1 →
  ∃ hmid,
    (match mapIndex h l1 k, mapIndex h l2 k with
     | VMap _, VMap _ => merge f h (mapIndex h l1 k) (mapIndex h l2 k)
     | _, _ => Ok (h, mapIndex h l2 k)
     end) = Ok (hmid, root (tchild (assoc k cur) t2k)) ∧
    (∀ x, ¬ kidlocs kids1 k x → hmid !! x = h !! x) ∧
    rep hmid (tchild (assoc k cur) t2k) ∧
    (∀ x, x ∈ locs (tchild (assoc k cur) t2k) →
          kidlocs kids1 k x ∨ x ∈ locs (Node l2 kids2)).
Proof.
  intros HInv Hin Hpend.
  destruct (merge_inv_update h cur k t2k HInv Hin) as (He2 & Hrep2k & Hord2k).
  rewrite (merge_inv_base h cur k HInv), He2.
  assert (∀ x, x ∈ locs t2k → kidlocs kids1 k x ∨ x ∈ locs (Node l2 kids2))
    as Hright.
  { intros x Hx. right. by eapply locs_kid. }
  destruct (assoc k cur) as [[v1|l1k kids1k]|] eqn:Hcur; simpl.
  - (* the base has a leaf *)
    exists h. split_and!; [|done..].
    destruct HInv as (_ & _ & _ & Hkids).
    destruct (Hkids k (Leaf v1) (assoc_Some_elem _ _ _ Hcur)) as [Hleaf _].
    destruct v1 as [| | |l]; try done. by destruct (Hleaf l).
  - destruct t2k as [v2|l2k kids2k].
    + (* the update has a leaf *)
      exists h. split_and!; [|done..]. destruct v2 as [| | |l]; try done.
      by destruct (Hrep2k l).
    + (* both are maps *)
      assert ((k, Node l1k kids1k) ∈ kids1) as Hin1.
      { apply assoc_Some_elem. by rewrite <-Hpend. }
      destruct HInv as (_ & _ & _ & Hkids).
      destruct (Hkids k _ (assoc_Some_elem _ _ _ Hcur)) as [Hrep1k _].
      rewrite Forall_forall in IH.
      destruct (IH _ Hin (Node l1k kids1k) h f)
        as (hmid & Hm & Hframe & Hrep & Hl);
        try done.
      * by apply (proj1 (NoDup_locs_kids _ _ Hnd1) k _ Hin1).
      * intros x Hx Hx'. apply (Hdis x); by eapply locs_kid.
      * by eapply Hdepth.
      * exists hmid. split_and!; [exact Hm| |exact Hrep|].
        -- intros x Hx. apply Hframe. intros Hx'. apply Hx.
           by exists (Node l1k kids1k).
        -- intros x Hx. destruct (Hl x Hx) as [?|?].
           ++ left. by exists (Node l1k kids1k).
           ++ right. by eapply locs_kid.
  - exists h. by split_and!.
Qed.

(** The loop of [merge] over keys of the update runs [tstep] on the children
    of the base. *)
Lemma merge_loop ks :
  (∀ kt, kt ∈ ks → kt ∈ kids2) → NoDup ks.*1 →
  ∀ h cur,
    merge_inv h0 l1 l2 kids1 kids2 h cur →
    (∀ k, k ∈ ks.*1 → assoc k cur = assoc k kids1) →
    ∃ h', res_foldl (mstep f l1 l2) h ks.*1 = Ok h' ∧
          merge_inv h0 l1 l2 kids1 kids2 h' (foldl tstep cur ks).
Proof.
  induction ks as [|[k t2k] ks IHks]; intros Hsub Hndks h cur HInv Hpend.
  { exists h. done. }
  csimpl in Hndks; csimpl in Hpend; csimpl.
  apply NoDup_cons in Hndks as [Hk Hndks].
  assert ((k, t2k) ∈ kids2) as Hin by (apply Hsub; by left).
  destruct (inner_step h cur k t2k HInv Hin)
    as (hmid & Hm & Hframe & Hrep & Hl).
  { apply Hpend. by left. }
  destruct (merge_inv_step h cur hmid k _ (kidlocs kids1 k) HInv (λ x Hx, Hx)
              Hframe Hrep Hl)
    as (h' & Hset & HInv').
  destruct (IHks (λ kt Hkt, Hsub kt (list_elem_of_further _ _ _ Hkt)) Hndks
              h' _ HInv') as (h'' & Hfold & HInv'').
  { intros k' Hk'. rewrite <-Hpend by by right.
    assert (k ≠ k') by (by intros ->).
    unfold tstep, twrite. simpl.
    by repeat case_match; rewrite ?assoc_del_ne, ?assoc_set_ne by done. }
  exists h''. split; [|done].
  by rewrite (mstep_Ok _ _ _ _ _ _ _ _ Hm Hset).
Qed.

End merge_loop.

(** [merge] on a store that holds two separate trees computes [tmerge]: it
    returns the root of the merged tree, the store then represents that tree,
    only map objects of the base tree are written, and the merged tree is
    built from the map objects of the two trees. *)
Theorem merge_tmerge `{Reflect} t2 : merges t2.
Proof.
  induction t2 as [v2|l2 kids2 IH] using ltree_ind';
    intros t1 h fuel Hrep1 Hrep2 Hord Hnd Hdis Hfuel.
  - (* the update is not a map *)
    exists h. destruct fuel as [|f]; [simpl in Hfuel; lia|].
    assert (tmerge t1 (Leaf v2) = Leaf v2) as -> by by destruct t1.
    split_and!; [|done|done|by right].
    simpl. destruct (root t1); try done.
    destruct v2 as [| | |l0]; try done. by destruct (Hrep2 l0).
  - destruct t1 as [v1|l1 kids1].
    + (* the base is not a map *)
      exists h. destruct fuel as [|f]; [simpl in Hfuel; lia|].
      split_and!; [|done|done|by right].
      simpl. destruct v1 as [| | |l0]; try done. by destruct (Hrep1 l0).
    + destruct fuel as [|f]; [simpl in Hfuel; lia|].
      assert (NoDup kids1.*1) as Hkeys1
        by (by destruct Hrep1 as [(? & ? & ? & ?) _]).
      destruct (merge_loop h l1 l2 kids1 kids2 Hnd Hkeys1 Hdis f Hrep2 Hord IH)
        with (ks := kids2) (h := h) (cur := kids1)
        as (h' & Hfold & (HM & Hndc & Hframe & Hkids)); try done.
      * intros k t Hin. pose proof (depth_kid l2 kids2 k t Hin). lia.
      * by destruct Hrep2 as [(? & ? & ? & ?) _].
      * pose proof Hrep1 as [(M & ? & ? & ?) _]. unfold merge_inv.
        split_and!; [by exists M; split|done|done|].
        intros k t Hin. split; [exact (rep_kid _ _ _ _ _ Hrep1 Hin)|].
        intros x Hx. left. by exists t.
      * exists h'. rewrite tmerge_Node. cbn [root]. rewrite merge_unfold.
        destruct Hord as [-> _]. rewrite Hfold. split_and!; [done|done| |].
        -- split.
           ++ destruct HM as (M & ? & ?). by exists M; split_and!.
           ++ apply all_Forall, Forall_forall. intros [k t] Hin.
              by apply (Hkids k t).
        -- intros x [->|Hx]%elem_of_cons; [left; by left|].
           apply elem_of_concat_map in Hx as ([k t] & Hin & Hx).
           destruct (Hkids k t Hin) as [_ Hl].
           destruct (Hl x Hx) as [(t1k & Hin1 & Hx1)|?]; [left|by right].
           by eapply locs_kid.
Qed.

Lemma twrite_lookup_eq k t cur :
  assoc k (twrite k t cur)
  = match t with Leaf VNil => None | _ => Some t end.
Proof.
  unfold twrite. destruct t as [[]|]; by rewrite ?assoc_del_eq, ?assoc_set_eq.
Qed.

Lemma twrite_lookup_ne k k' t cur :
  k ≠ k' → assoc k' (twrite k t cur) = assoc k' cur.
Proof.
  intros Hne. unfold twrite.
  destruct t as [[]|]; by rewrite ?assoc_del_ne, ?assoc_set_ne by done.
Qed.

(** The children of the merged tree: a key the update does not have keeps
    the child of the base, a key that holds nil in the update is gone, and
    any other key of the update has the update's child, merged with the
    child of the base when both are mappings. *)
Lemma tmerge_lookup ks :
  NoDup ks.*1 →
  ∀ cur k,
    assoc k (foldl tstep cur ks)
    = match assoc k ks with
      | None => assoc k cur
      | Some (Leaf VNil) => None
      | Some t2k => Some (tchild (assoc k cur) t2k)
      end.
Proof.
  induction ks as [|[k' t] ks IH]; intros Hnd cur k; [done|].
  csimpl in Hnd. apply NoDup_cons in Hnd as [Hk' Hnd].
  cbn [foldl]. rewrite IH by done. cbn [assoc].
  destruct (String.eqb_spec k k') as [->|Hne].
  - apply assoc_None in Hk'. rewrite Hk'. unfold tstep. cbn [fst snd].
    rewrite twrite_lookup_eq.
    destruct t as [[]|]; destruct (assoc k' cur) as [[]|]; done.
  - unfold tstep. cbn [fst snd]. by rewrite twrite_lookup_ne.
Qed.

Lemma tchild_Some b u : tchild (Some b) u = tmerge b u.
Proof. by destruct b, u. Qed.

(** [tmerge] against the rule of the specification, key by key: a key of
    both maps has the merge of the two elements, a key of one map only has
    that map's element; but a key that holds nil in the update is in the
    result under neither rule of the specification: it is removed. *)
Lemma tmerge_reference l1 kids1 l2 kids2 k :
  NoDup kids2.*1 →
  assoc k (foldl tstep kids1 kids2)
  = match assoc k kids1, assoc k kids2 with
    | _, Some (Leaf VNil) => None
    | Some b, Some u => Some (tmerge b u)
    | None, Some u => Some u
    | o, None => o
    end ∧
  tmerge (Node l1 kids1) (Node l2 kids2) = Node l1 (foldl tstep kids1 kids2).
Proof.
  intros Hnd. split; [|done]. rewrite (tmerge_lookup _ Hnd).
  destruct (assoc k kids2) as [[[]|]|]; destruct (assoc k kids1) as [b|];
    by rewrite ?tchild_Some.
Qed.

Lemma lookup_list_to_map_assoc (kids : list (string * ltree)) k :
  (list_to_map (prod_map id root <$> kids) : gmap string value) !! k
  = root <$> assoc k kids.
Proof.
  induction kids as [|[k' t] kids IH]; [done|]. csimpl.
  destruct (String.eqb_spec k k') as [->|Hne].
  - by rewrite lookup_insert_eq.
  - by rewrite lookup_insert_ne.
Qed.

(** A node is held by a store that has, at its object, the roots of its
    children, and holds the children. *)
Lemma rep_Node h l kids :
  h !! l = Some (list_to_map (prod_map id root <$> kids)) →
  NoDup kids.*1 →
  Forall (λ kt, rep h kt.2) kids →
  rep h (Node l kids).
Proof.
  intros Hl Hnd Hkids. split; [|by apply all_Forall].
  eexists. split_and!; [done..|]. intros k. apply lookup_list_to_map_assoc.
Qed.

Lemma rep_Leaf_prim h p : rep h (Leaf (VPrim p)).
Proof. by intros l. Qed.

(** A child of a tree that holds no nil is not nil. *)
Lemma no_null_assoc l kids k t :
  no_null (Node l kids) → assoc k kids = Some t → t ≠ Leaf VNil.
Proof.
  induction kids as [|[k' t'] kids IH]; [done|].
  intros [Ht' Hkids]. cbn [assoc].
  destruct (String.eqb k k'); [|by apply IH].
  intros [= ->] ->. by apply Ht'.
Qed.

(** The children of the merge with an update that holds no nil: a key of
    both mappings has the merge of the two children, a key of one mapping
    has the child of that mapping. *)
Lemma tmerge_union kids1 l2 kids2 k :
  NoDup kids2.*1 → no_null (Node l2 kids2) →
  assoc k (foldl tstep kids1 kids2)
  = match assoc k kids1, assoc k kids2 with
    | Some b, Some u => Some (tmerge b u)
    | None, Some u => Some u
    | o, None => o
    end.
Proof.
  intros Hnd Hnn. rewrite (tmerge_lookup _ Hnd).
  destruct (assoc k kids2) as [u|] eqn:Hu; [|by destruct (assoc k kids1)].
  pose proof (no_null_assoc _ _ _ _ Hnn Hu) as Hnil.
  destruct (assoc k kids1) as [b|]; rewrite ?tchild_Some;
    by destruct u as [[]|].
Qed.

(** C8, as the code has it.  Merging an update mapping that holds no nil
    into a base mapping that shares no map object with it, the base a
    tree, writes into the map objects of the base and returns the base's
    own map object, not a new tree: afterwards the store holds the merged
    tree at the base object, so the base read through its own reference
    has the keys of both mappings, under every key of the update the
    update's element (merged with its own when both are mappings) and its
    former element under every other key.  Nothing is copied: the merged
    tree is made of the map objects of the two trees, and only those of
    the base are written.  When one of the two values is no mapping,
    nothing is written and the update is returned. *)
Theorem merge_in_place `{Reflect} l1 kids1 l2 kids2 h fuel :
  rep h (Node l1 kids1) → rep h (Node l2 kids2) →
  ordered h (Node l2 kids2) →
  NoDup (locs (Node l1 kids1)) →
  (∀ x, x ∈ locs (Node l1 kids1) → x ∈ locs (Node l2 kids2) → False) →
  no_null (Node l2 kids2) →
  (depth (Node l2 kids2) < fuel)%nat →
  ∃ h',
    merge fuel h (VMap l1) (VMap l2) = Ok (h', VMap l1) ∧
    rep h' (tmerge (Node l1 kids1) (Node l2 kids2)) ∧
    (∃ kids,
       tmerge (Node l1 kids1) (Node l2 kids2) = Node l1 kids ∧
       ∀ k, assoc k kids
            = match assoc k kids1, assoc k kids2 with
              | Some b, Some u => Some (tmerge b u)
              | None, Some u => Some u
              | o, None => o
              end) ∧
    (∀ k, mapIndex h' l1 k
          = match assoc k kids2 with
            | None => mapIndex h l1 k
            | Some t2k => root (tchild (assoc k kids1) t2k)
            end) ∧
    (∀ x, x ∈ locs (tmerge (Node l1 kids1) (Node l2 kids2)) →
          x ∈ locs (Node l1 kids1) ∨ x ∈ locs (Node l2 kids2)) ∧
    (∀ x, x ∉ locs (Node l1 kids1) → h' !! x = h !! x) ∧
    (∀ v1 v2, Kind_of v1 ≠ KMap ∨ Kind_of v2 ≠ KMap →
              merge fuel h v1 v2 = Ok (h, v2)).
Proof.
  intros Hrep1 Hrep2 Hord Hnd Hdis Hnn Hfuel.
  destruct (merge_tmerge (Node l2 kids2) (Node l1 kids1) h fuel)
    as (h' & Hm & Hframe & Hrep & Hl); try done.
  exists h'. split_and!; try done.
  - exists (foldl tstep kids1 kids2). split; [apply tmerge_Node|].
    intros k. destruct Hrep2 as [(_ & _ & Hnd2 & _) _].
    by apply (tmerge_union _ l2).
  - intros k. rewrite tmerge_Node in Hrep.
    destruct Hrep as [(M' & HM' & _ & Hkids') _].
    destruct Hrep1 as [(M & HM & _ & Hkids) _].
    destruct Hrep2 as [(_ & _ & Hnd2 & _) _].
    unfold mapIndex, map_at. rewrite HM', HM. cbn [default].
    rewrite Hkids', Hkids, (tmerge_lookup _ Hnd2).
    destruct (assoc k kids2) as [[[]|]|]; try done.
    by destruct (assoc k kids1) as [[]|].
  - intros v1 v2 Hkind. destruct fuel as [|f]; [simpl in Hfuel; lia|].
    destruct v1, v2; try done. by destruct Hkind.
Qed.

(** Holding a given tree, for a store and a tree that are given in full. *)
Ltac solve_rep :=
  repeat (cbn [snd];
          first [ apply rep_Leaf_prim
                | apply Forall_nil_2
                | apply Forall_cons_2
                | apply rep_Node;
                    [reflexivity | by apply (bool_decide_unpack _) | ] ]).

Lemma merge_in_place_witness :
  rep nested_heap nested_base ∧ rep nested_heap nested_update ∧
  ∃ h', merge 3 nested_heap (VMap 1%positive) (VMap 2%positive)
        = Ok (h', VMap 1%positive) ∧
        rep h' (tmerge nested_base nested_update).
Proof.
  assert (rep nested_heap nested_base) as Hrep1.
  { solve_rep. }
  assert (rep nested_heap nested_update) as Hrep2.
  { solve_rep. }
  split_and!; [done..|].
  destruct (merge_in_place (H := basic_Reflect) 1%positive
              [("a", Node 3%positive [("b", Leaf (VPrim (PFloat 1)));
                                      ("c", Leaf (VPrim (PFloat 2)))]);
               ("d", Leaf (VPrim (PFloat 3)))]
              2%positive
              [("a", Node 4%positive [("c", Leaf (VPrim (PFloat 4)));
                                      ("e", Leaf (VPrim (PFloat 5)))]);
               ("d", Leaf (VPrim (PFloat 30)))]
              nested_heap 3)
    as (h' & Hm & Hrep & _); [exact Hrep1|exact Hrep2|..].
  - vm_compute. repeat split.
  - by apply (bool_decide_unpack _).
  - apply (proj1 (Forall_forall (λ x : loc, x ∈ locs nested_update → False)
                    (locs nested_base))).
    by apply (bool_decide_unpack _).
  - simpl. split_and!; done.
  - simpl. lia.
  - by exists h'.
Defined.

(** C8, as the specification states it, fails: after merging [{"b": 2}] into
    [{"a": 1}], the base object, read through its own reference, holds the
    update's entry "b". *)
Lemma merge_mutates_base :
  merge 1 disjoint_heap (VMap 1%positive) (VMap 2%positive)
  = Ok (disjoint_merged, VMap 1%positive) ∧
  mapIndex disjoint_heap 1%positive "b" = VNil ∧
  mapIndex disjoint_merged 1%positive "b" = VPrim (PFloat 2).
Proof. split_and!; vm_compute; reflexivity. Qed.

Lemma configureArray_positional_witness :
  bound_elems (configure 1 ∅) "" (ints Int [0; 0; 0]) (numbers [1; 3; 2; 4])
    ((λ v, (v, [])) <$> ints Int [1; 3; 2]) ∧
  configureArray (configure 1 ∅) (GArray (TInt Int) (ints Int [0; 0; 0]))
    (GSlice TAny 4 (numbers [1; 3; 2; 4])) ""
  = Bound (GArray (TInt Int) (ints Int [1; 3; 2])) [] ∧
  configureArray (configure 1 ∅) (GSlice (TInt Int) 3 (ints Int [7; 8; 9]))
    (GSlice TAny 2 (numbers [10; 30])) ""
  = Bound (GSlice (TInt Int) 3 (ints Int [10; 30])) [].
Proof.
  assert (bound_elems (configure 1 ∅) "" (ints Int [0; 0; 0])
            (numbers [1; 3; 2; 4]) ((λ v, (v, [])) <$> ints Int [1; 3; 2]))
    as Harray.
  { intros [|[|[|j]]] r [= <-]; eexists _, _;
      (split_and!; [reflexivity | reflexivity | vm_compute; reflexivity]). }
  assert (bound_elems (configure 1 ∅) "" (ints Int [7; 8; 9])
            (numbers [10; 30]) ((λ v, (v, [])) <$> ints Int [10; 30]))
    as Hslice.
  { intros [|[|j]] r [= <-]; eexists _, _;
      (split_and!; [reflexivity | reflexivity | vm_compute; reflexivity]). }
  split_and!; [exact Harray | |].
  - etrans;
      [apply (proj1 (configureArray_positional (configure 1 ∅) (TInt Int)
                       (GSlice TAny 4 (numbers [1; 3; 2; 4])) "")
                (ints Int [0; 0; 0]) ((λ v, (v, [])) <$> ints Int [1; 3; 2]));
         [reflexivity | exact Harray]
      | reflexivity].
  - etrans;
      [apply (proj2 (configureArray_positional (configure 1 ∅) (TInt Int)
                       (GSlice TAny 2 (numbers [10; 30])) "")
                (ints Int [7; 8; 9]) 3%nat
                ((λ v, (v, [])) <$> ints Int [10; 30]));
         [simpl; lia | right; simpl; lia | reflexivity | exact Hslice]
      | reflexivity].
Defined.

(** ** The tests of the repository, run on the model *)

(** [TestMerge]. *)
Example TestMerge_scalars :
  merge 1 ∅ VNil (VPrim (PFloat 123)) = Ok (∅, VPrim (PFloat 123)) ∧
  merge 1 ∅ (VPrim (PFloat 123)) VNil = Ok (∅, VNil) ∧
  merge 1 ∅ (VPrim (PFloat 123)) (VPrim (PBool true)) = Ok (∅, VPrim (PBool true)) ∧
  merge 1 ∅ (VSlice 3 [VPrim (PFloat 1); VPrim (PFloat 3); VPrim (PFloat 2)])
    (VSlice 2 [VPrim (PFloat 100); VPrim (PFloat 200)])
  = Ok (∅, VSlice 2 [VPrim (PFloat 100); VPrim (PFloat 200)]).
Proof. split_and!; reflexivity. Qed.

Example TestMerge_nested :
  merge 2 nested_heap (VMap 1%positive) (VMap 2%positive)
  = Ok (nested_merged, VMap 1%positive) ∧
  merge 1 nested_heap (VMap 1%positive) (VMap 2%positive) = OutOfFuel.
Proof. split; vm_compute; reflexivity. Qed.

(** A mapping of the update that the base has no mapping for is put into
    the base as it is, not copied: a later [Set] through the merged
    configuration writes into the update's own map object. *)
Example merge_shares_update :
  let c := {| data := VMap 1%positive; types := ∅ |} in
  merge 2 shared_heap (VMap 1%positive) (VMap 2%positive)
  = Ok (shared_merged, VMap 1%positive) ∧
  Set_ shared_merged c "a.c" (VPrim (PFloat 5)) = Ok (shared_set, c, None) ∧
  Get shared_set {| data := VMap 2%positive; types := ∅ |} "a.c" VNil
  = VPrim (PFloat 5).
Proof. split_and!; vm_compute; reflexivity. Qed.

(** [TestSet] and [TestSetWithError]; the last line is a write inside the
    bounds of a decoded slice. *)
Example TestSet :
  let c := {| data := VMap 1%positive; types := ∅ |} in
  Set_ ∅ New "a.b" (VPrim (PInt Int 100)) = Ok (set_heap, c, None) ∧
  Get set_heap c "a.b" (VPrim (PInt Int 0)) = VPrim (PInt Int 100) ∧
  Set_ set_heap c "a.b.c" (VPrim (PInt Int 200))
  = Ok (set_heap, c,
        Some {| cpe_Path := "a.b.c"; cpe_Message := GotKind KInt |}).
Proof. split_and!; vm_compute; reflexivity. Qed.

Example TestSetWithError :
  let c := {| data := VMap 1%positive; types := ∅ |} in
  Set_ error_heap c "A1.A2" (VPrim (PFloat 200))
  = Ok (error_heap, c,
        Some {| cpe_Path := "A1.A2"; cpe_Message := GotKind KFloat64 |}) ∧
  Set_ error_heap c "A2.-1" (VPrim (PFloat 200))
  = Ok (error_heap, c,
        Some {| cpe_Path := "A2.-1"; cpe_Message := NotAnIndex "-1" |}) ∧
  Set_ error_heap c "A2.2" (VPrim (PFloat 200))
  = Ok (error_heap, c,
        Some {| cpe_Path := "A2.2"; cpe_Message := OutOfSliceBound "2" |}) ∧
  Set_ error_heap c "A2.1" (VPrim (PFloat 200))
  = Panic "reflect.Value.SetLen using unaddressable value".
Proof. split_and!; vm_compute; reflexivity. Qed.

(** [TestGet]. *)
Example TestGet :
  let c := {| data := VMap 1%positive; types := ∅ |} in
  Get get_heap c "a" VNil = VPrim (PFloat 100) ∧
  Get get_heap c "d.d3.d4" VNil = VPrim (PFloat 300) ∧
  Get get_heap c "e.0" VNil = VPrim (PString "abc") ∧
  Get get_heap c "e.2.d" VNil = VPrim (PFloat 200) ∧
  Get get_heap c "f" VNil = VNil ∧
  Get get_heap c "f.b" VNil = VNil ∧
  Get get_heap c "a1" (VPrim (PInt Int 200)) = VPrim (PInt Int 200) ∧
  Get get_heap c "e" (VPrim (PString "zero")) = VPrim (PString "zero") ∧
  Get get_heap c "a" (VPrim (PInt Int 0)) = VPrim (PInt Int 100) ∧
  Get get_heap c "a" (VPrim (PString "abc")) = VPrim (PString "abc").
Proof. split_and!; vm_compute; reflexivity. Qed.

(** [TestConfigureScalar], through the pointer [Configure] is given. *)
Example TestConfigureScalar :
  configure 1 ∅ (ptr (zero TBool)) (Some (json_bool true)) ""
  = Bound (ptr (GPrim (PBool true))) [] ∧
  configure 1 ∅ (ptr (zero TBool)) (Some json_null) ""
  = Bound (ptr (GPrim (PBool false))) [] ∧
  configure 1 ∅ (ptr (zero TAny)) (Some (json_bool true)) ""
  = Bound (ptr (GInterface "" [] (Some (GPrim (PBool true))))) [] ∧
  configure 1 ∅ (ptr (zero (TInt Int8))) (Some (json_number (-10))) ""
  = Bound (ptr (GPrim (PInt Int8 (-10)))) [] ∧
  configure 1 ∅ (ptr (zero (TInt Uint))) (Some (json_number (106 # 10))) ""
  = Bound (ptr (GPrim (PInt Uint 10))) [] ∧
  configure 1 ∅ (ptr (zero TString)) (Some json_null) ""
  = Bound (ptr (GPrim (PString ""))) [] ∧
  configure 1 ∅ (ptr (zero (TPtr TBool))) (Some (json_bool true)) ""
  = Bound (ptr (ptr (GPrim (PBool true)))) [].
Proof. split_and!; vm_compute; reflexivity. Qed.

(** The case of [TestConfigureScalar] that binds a string onto a
    [[]byte]. *)
Example TestConfigureScalar_bytes :
  configure 1 ∅ (ptr (zero (TSlice (TInt Uint8))))
    (Some (json_string "abc")) ""
  = Bound (ptr (GSlice (TInt Uint8) 3 (ints Uint8 [97; 98; 99]))) [].
Proof. vm_compute. reflexivity. Qed.

(** The conversions at values where they are not exact: an integer beyond
    2^53 is rounded to a float, to the even one from halfway; a float
    beyond [int64] gives the least [int64]; a string is decoded into its
    code points, U+FFFD for a byte that starts no encoding. *)
Example conversions_at_the_edges :
  round_float64 (2 ^ 53 + 1) = 2 ^ 53 ∧
  round_float64 (2 ^ 53 + 3) = 2 ^ 53 + 4 ∧
  round_float64 (2 ^ 64 - 1) = 2 ^ 64 ∧
  prim_Convert (PFloat (inject_Z (2 ^ 63))) (TInt Int64)
  = PInt Int64 (- 2 ^ 63) ∧
  prim_Convert (PFloat (inject_Z 300)) (TInt Int8) = PInt Int8 44 ∧
  prim_Convert (PFloat (inject_Z (-1))) (TInt Uint64)
  = PInt Uint64 (2 ^ 64 - 1) ∧
  runes (rune_string 233 +:+ rune_string 8364 +:+ rune_string 128512)
  = [233; 8364; 128512] ∧
  runes (String (byte_of 192) (String (byte_of 128) "a")) = [65533; 65533; 97].
Proof. split_and!; vm_compute; reflexivity. Qed.

(** [TestConfigureArray]. *)
Example TestConfigureArray :
  let array := ptr (zero (TArray 3 (TInt Int))) in
  let slice := ptr (GSlice (TInt Int) 3 (ints Int [0; 0; 0])) in
  configure 2 ∅ array (Some (json_array (numbers [1; 3; 2]))) ""
  = Bound (ptr (GArray (TInt Int) (ints Int [1; 3; 2]))) [] ∧
  configure 2 ∅ array (Some (json_array (numbers [1; 3; 2; 4]))) ""
  = Bound (ptr (GArray (TInt Int) (ints Int [1; 3; 2]))) [] ∧
  configure 2 ∅ array (Some (json_array (numbers [1; 3]))) ""
  = Bound (ptr (GArray (TInt Int) (ints Int [1; 3; 0]))) [] ∧
  configure 2 ∅ array (Some json_null) "" = Bound array [] ∧
  configure 2 ∅ slice (Some (json_array (numbers [10; 30; 20; 40]))) ""
  = Bound (ptr (GSlice (TInt Int) 4 (ints Int [10; 30; 20; 40]))) [] ∧
  configure 2 ∅ slice (Some (json_array (numbers [10; 30]))) ""
  = Bound (ptr (GSlice (TInt Int) 3 (ints Int [10; 30]))) [] ∧
  configure 2 ∅ slice (Some json_null) ""
  = Bound (ptr (GSlice (TInt Int) 0 [])) [].
Proof. split_and!; vm_compute; reflexivity. Qed.

(** [TestConfigureMap]. *)
Example TestConfigureMap :
  configure 3 ∅ (ptr map_target) (Some map_source) ""
  = Bound (ptr map_bound) [].
Proof. vm_compute. reflexivity. Qed.

(** [TestConfigureMapWithType1]: a nil slot is filled by the provider; a
    populated slot is bound where it is. *)
Example TestConfigureMapWithType1 :
  configure 2 C1_registry (ptr (C None)) (Some typed_object) ""
  = Bound (ptr (C (Some (ptr (D "abc" ""))))) ["C1"] ∧
  configure 2 C1_registry (ptr (C (Some (ptr (D "xyz" "123")))))
    (Some typed_object) ""
  = Bound (ptr (C (Some (ptr (D "abc" "123"))))) [].
Proof. split; vm_compute; reflexivity. Qed.

(** [TestConfigureMapWithType2]: a slice of interfaces. *)
Example TestConfigureMapWithType2 :
  configure 3 C1_registry (ptr (zero (TSlice (typeof (C None)))))
    (Some (json_array
             [json_object [("type", json_string "C1"); ("E1", json_string "abc")];
              json_object [("type", json_string "C1"); ("E1", json_string "xyz")]]))
    ""
  = Bound (ptr (GSlice (typeof (C None)) 2
                  [C (Some (ptr (D "abc" ""))); C (Some (ptr (D "xyz" "")))]))
      ["C1"; "C1"].
Proof. vm_compute. reflexivity. Qed.

(** * The typed getters *)

Section getters_props.
Context `{Reflect}.

(** What [Get] returns with a default that is not nil has the type of the
    default, when conversions are typed. *)
Lemma Get_TypeOf h c path d :
  Convert_typed → d ≠ VNil → TypeOf (Get h c path d) = TypeOf d.
Proof.
  intros Hconv Hd. unfold Get.
  destruct (Get_walk h (data c) (Split path)) as [v|]; [|done].
  rewrite (IsValid_true d) by done.
  destruct (ConvertibleTo (TypeOf v) (TypeOf d)) eqn:Hc; [|done].
  by apply Hconv.
Qed.

Lemma Get_prim h c path p :
  Convert_typed →
  ∃ p', Get h c path (VPrim p) = VPrim p' ∧ prim_type p' = prim_type p.
Proof.
  intros Hconv.
  pose proof (Get_TypeOf h c path (VPrim p) Hconv ltac:(done)) as Ht.
  destruct (Get h c path (VPrim p)) as [|p'| |]; try (by destruct p).
  by exists p'.
Qed.

(** X1.  The type assertion of a typed getter never fails: [Get] is called with
    a default of the asserted type, and returns the default or a value
    converted to its type. *)
Theorem typed_getters_never_panic h c path :
  Convert_typed →
  (∀ ds, ∃ s, GetString h c path ds = Ok s) ∧
  (∀ ds, ∃ z, GetInt h c path ds = Ok z) ∧
  (∀ ds, ∃ z, GetInt64 h c path ds = Ok z) ∧
  (∀ ds, ∃ q, GetFloat h c path ds = Ok q) ∧
  (∀ ds, ∃ b, GetBool h c path ds = Ok b).
Proof.
  intros Hconv. split_and!; intros ds.
  - unfold GetString.
    destruct (Get_prim h c path (PString (first_default "" ds)) Hconv)
      as ([] & -> & ?); try done. eauto.
  - unfold GetInt.
    destruct (Get_prim h c path (PInt Int (first_default 0 ds)) Hconv)
      as ([|k z| |] & -> & Hk); try done. injection Hk as ->. eauto.
  - unfold GetInt64.
    destruct (Get_prim h c path (PInt Int64 (first_default 0 ds)) Hconv)
      as ([|k z| |] & -> & Hk); try done. injection Hk as ->. eauto.
  - unfold GetFloat.
    destruct (Get_prim h c path (PFloat (first_default 0%Q ds)) Hconv)
      as ([] & -> & ?); try done. eauto.
  - unfold GetBool.
    destruct (Get_prim h c path (PBool (first_default false ds)) Hconv)
      as ([] & -> & ?); try done. eauto.
Qed.

End getters_props.

Lemma basic_Convert_typed : Convert_typed (H := basic_Reflect).
Proof.
  intros v d. simpl. unfold basic_ConvertibleTo, basic_ConvertValue.
  destruct v as [|[b|k z|q|s]|cap l|l], d as [|[b'|k' z'|q'|s']|cap' l'|l'];
    simpl; try done; by destruct k.
Qed.

Lemma typed_getters_never_panic_witness :
  ∃ z, GetInt get_heap {| data := VMap 1%positive; types := ∅ |} "a" [] = Ok z.
Proof.
  exact (proj1 (proj2 (typed_getters_never_panic (H := basic_Reflect) get_heap
                         {| data := VMap 1%positive; types := ∅ |} "a"
                         basic_Convert_typed)) []).
Defined.

(** An integer that fits 64 bits is left as it is by the conversion to
    [int] and to [int64]. *)
Lemma wrap_fits k z :
  k = Int ∨ k = Int64 → - 2 ^ 63 ≤ z < 2 ^ 63 → wrap k z = z.
Proof.
  intros Hk Hz. unfold wrap.
  assert (ikind_bits k = 64 ∧ ikind_signed k = true) as [-> ->]
    by (by destruct Hk as [-> | ->]).
  cbn [andb]. change (2 ^ 64 / 2) with (2 ^ 63).
  destruct (Z.le_gt_cases 0 z) as [Hpos|Hneg].
  - rewrite Z.mod_small by lia. destruct (Z.leb_spec (2 ^ 63) z); lia.
  - assert (z `mod` 2 ^ 64 = z + 2 ^ 64) as ->.
    { symmetry. apply (Z.mod_unique _ _ (-1)); lia. }
    destruct (Z.leb_spec (2 ^ 63) (z + 2 ^ 64)); lia.
Qed.

Lemma Get_basic h c path d :
  d ≠ VNil →
  Get (H := basic_Reflect) h c path d =
  match resolve h (data c) (Split path) with
  | VNil => d
  | v =>
      if basic_ConvertibleTo (TypeOf v) (TypeOf d)
      then basic_ConvertValue v (TypeOf d)
      else d
  end.
Proof.
  intros Hd. unfold Get.
  rewrite Get_walk_resolve by apply Split_nonempty.
  rewrite (IsValid_true d) by done.
  by destruct (resolve h (data c) (Split path)).
Qed.

(** A float within the 64-bit integers is cut to its integer part. *)
Lemma float_int64_fits q :
  - 2 ^ 63 ≤ truncate q < 2 ^ 63 → float_int64 q = truncate q.
Proof.
  intros [Hlo Hhi]. unfold float_int64.
  destruct (Z.leb_spec (- 2 ^ 63) (truncate q)); [|lia].
  destruct (Z.ltb_spec (truncate q) (2 ^ 63)); [done|lia].
Qed.

(** An integer up to 2^53 in magnitude is a float. *)
Lemma round_float64_exact z : Z.abs z ≤ 2 ^ 53 → round_float64 z = z.
Proof.
  intros Hz. unfold round_float64.
  destruct (Z.eq_dec (Z.abs z) (2 ^ 53)) as [Heq|Hne].
  - rewrite Heq.
    destruct (Z.abs_eq_or_opp z) as [Hz'|Hz']; rewrite Hz' in Heq.
    + by rewrite Heq.
    + assert (z = - 2 ^ 53) as -> by lia. done.
  - assert (Z.log2 (Z.abs z) - 52 ≤ 0) as He.
    { destruct (Z.eq_dec (Z.abs z) 0) as [->|Hnz]; [done|].
      assert (Z.log2 (Z.abs z) < 53); [|lia].
      apply Z.log2_lt_pow2; lia. }
    by destruct (Z.leb_spec (Z.log2 (Z.abs z) - 52) 0); [|lia].
Qed.

(** X2.  What the typed getters return under Go's conversion rules.  A string
    is returned by [GetString] and makes every other getter return its
    default.  A JSON number is returned by [GetFloat], is cut to its
    integer part by [GetInt] and [GetInt64] when that fits 64 bits, and
    makes [GetString] and [GetBool] return their defaults: a number is
    never turned into its text.  An integer (as [Set] may have stored)
    comes back from [GetString] as the character with that code point,
    from [GetFloat] as the nearest float, which is the integer itself up
    to 2^53, and from [GetInt] and [GetInt64] as it is when it fits 64
    bits with a sign.  A bool is returned by [GetBool] and makes
    [GetString] and [GetInt] return their defaults.  A path that leads to
    nothing makes every getter return its default. *)
Theorem typed_getters_basic h c path v :
  resolve h (data c) (Split path) = v →
  (∀ s, v = VPrim (PString s) →
     (∀ ds, GetString (H := basic_Reflect) h c path ds = Ok s) ∧
     (∀ ds, GetInt (H := basic_Reflect) h c path ds = Ok (first_default 0 ds)) ∧
     (∀ ds, GetInt64 (H := basic_Reflect) h c path ds
            = Ok (first_default 0 ds)) ∧
     (∀ ds, GetFloat (H := basic_Reflect) h c path ds
            = Ok (first_default 0%Q ds)) ∧
     (∀ ds, GetBool (H := basic_Reflect) h c path ds
            = Ok (first_default false ds))) ∧
  (∀ q, v = VPrim (PFloat q) →
     (∀ ds, GetFloat (H := basic_Reflect) h c path ds = Ok q) ∧
     (∀ ds, GetString (H := basic_Reflect) h c path ds
            = Ok (first_default "" ds)) ∧
     (∀ ds, GetBool (H := basic_Reflect) h c path ds
            = Ok (first_default false ds)) ∧
     (- 2 ^ 63 ≤ truncate q < 2 ^ 63 →
      ∀ ds, GetInt (H := basic_Reflect) h c path ds = Ok (truncate q) ∧
            GetInt64 (H := basic_Reflect) h c path ds = Ok (truncate q))) ∧
  (∀ k z, v = VPrim (PInt k z) →
     (∀ ds, GetString (H := basic_Reflect) h c path ds = Ok (rune_string z)) ∧
     (∀ ds, GetFloat (H := basic_Reflect) h c path ds
            = Ok (inject_Z (round_float64 z))) ∧
     (Z.abs z ≤ 2 ^ 53 →
      ∀ ds, GetFloat (H := basic_Reflect) h c path ds = Ok (inject_Z z)) ∧
     (- 2 ^ 63 ≤ z < 2 ^ 63 →
      ∀ ds, GetInt (H := basic_Reflect) h c path ds = Ok z ∧
            GetInt64 (H := basic_Reflect) h c path ds = Ok z)) ∧
  (∀ b, v = VPrim (PBool b) →
     (∀ ds, GetBool (H := basic_Reflect) h c path ds = Ok b) ∧
     (∀ ds, GetString (H := basic_Reflect) h c path ds
            = Ok (first_default "" ds)) ∧
     (∀ ds, GetInt (H := basic_Reflect) h c path ds
            = Ok (first_default 0 ds))) ∧
  (v = VNil →
     (∀ ds, GetString (H := basic_Reflect) h c path ds
            = Ok (first_default "" ds)) ∧
     (∀ ds, GetInt (H := basic_Reflect) h c path ds = Ok (first_default 0 ds)) ∧
     (∀ ds, GetInt64 (H := basic_Reflect) h c path ds
            = Ok (first_default 0 ds)) ∧
     (∀ ds, GetFloat (H := basic_Reflect) h c path ds
            = Ok (first_default 0%Q ds)) ∧
     (∀ ds, GetBool (H := basic_Reflect) h c path ds
            = Ok (first_default false ds))).
Proof.
  intros Hv.
  unfold GetString, GetInt, GetInt64, GetFloat, GetBool.
  split_and!.
  - intros s ->. split_and!; intros ds; by rewrite Get_basic, Hv.
  - intros q ->. split_and!; try (intros ds; by rewrite Get_basic, Hv).
    intros Hq ds. rewrite !Get_basic, Hv by done. simpl.
    rewrite float_int64_fits by done.
    by rewrite !wrap_fits by (done || eauto).
  - intros k z ->. split_and!; try (intros ds; by rewrite Get_basic, Hv).
    + intros Hz ds. rewrite Get_basic, Hv by done. simpl.
      by rewrite round_float64_exact.
    + intros Hz ds. rewrite !Get_basic, Hv by done. simpl.
      by rewrite !wrap_fits by (done || eauto).
  - intros b ->. split_and!; intros ds; by rewrite Get_basic, Hv.
  - intros ->. split_and!; intros ds; by rewrite Get_basic, Hv.
Qed.

Lemma typed_getters_basic_witness :
  GetInt (H := basic_Reflect) get_heap
    {| data := VMap 1%positive; types := ∅ |} "a" [] = Ok 100 ∧
  GetString (H := basic_Reflect) get_heap
    {| data := VMap 1%positive; types := ∅ |} "a" ["n/a"] = Ok "n/a".
Proof.
  destruct (typed_getters_basic get_heap
              {| data := VMap 1%positive; types := ∅ |} "a"
              (VPrim (PFloat 100)) eq_refl) as (_ & Hq & _).
  destruct (Hq 100%Q eq_refl) as (_ & Hs & _ & Hi).
  assert (- 2 ^ 63 ≤ truncate 100 < 2 ^ 63) as Hfits
    by (split; [apply Z.leb_le | apply Z.ltb_lt]; reflexivity).
  split; [apply (Hi Hfits []) | apply Hs].
Defined.

(** * Paths of any length *)

Lemma visited_nil h parts : visited h VNil parts = [].
Proof. induction parts as [|p ps IH]; [done|]. simpl. apply IH. Qed.

Lemma visited_empty h l p ps :
  h !! l = Some ∅ → visited h (VMap l) (p :: ps) = [l].
Proof.
  intros Hl. simpl. unfold mapIndex, map_at. rewrite Hl. simpl.
  by rewrite lookup_empty, visited_nil.
Qed.

(** A last segment is written into a map object, or not at all. *)
Lemma Set_walk_last_any h d seen p path v h' :
  allocated h (visited h d [p]) →
  Set_walk h d seen [p] path v = Ok (h', None) →
  ∃ l m, d = VMap l ∧ h !! l = Some m ∧ h' = <[l := write p v m]> h.
Proof.
  intros Hal. cbn -[setElement].
  destruct d as [|q|cap els|l]; cbn -[setElement]; try done.
  - destruct (setElement h (VSlice cap els) p v) as [[h1 [m|]]| |] eqn:Hset;
      cbn; try done. by apply setElement_slice in Hset.
  - apply Forall_cons_1 in Hal as [[m Hl] _].
    unfold setElement, SetMapIndex. rewrite Hl.
    destruct v; cbn; intros [= <-]; by eexists _, _.
Qed.

Lemma write_lookup_same p v (m : gmap string value) :
  default VNil (write p v m !! p) = v.
Proof.
  unfold write. destruct v; by rewrite ?lookup_delete_eq, ?lookup_insert_eq.
Qed.

(** One step of the loop of [Set] that is not the last one. *)
Lemma Set_walk_step h d seen p q ps path v :
  Set_walk h d seen (p :: q :: ps) path v =
  if negb (is_container d) then
    Ok (h, Some {| cpe_Path := Join (seen ++ [p]);
                   cpe_Message := GotKind (Kind_of d) |})
  else
    if IsValid (getElement h d p)
    then Set_walk h (getElement h d p) (seen ++ [p]) (q :: ps) path v
    else
      '(h2, err) ← setElement (<[fresh (dom h) := ∅]> h) d p
                     (VMap (fresh (dom h)));
      match err with
      | Some m => Ok (h2, Some {| cpe_Path := Join (seen ++ [p]);
                                  cpe_Message := m |})
      | None => Set_walk h2 (VMap (fresh (dom h))) (seen ++ [p]) (q :: ps)
                  path v
      end.
Proof. reflexivity. Qed.

Lemma fresh_not_allocated (h : heap) l : is_Some (h !! l) → l ≠ fresh (dom h).
Proof.
  intros Hl ->. apply (is_fresh (dom h)). by apply elem_of_dom.
Qed.

(** From a map object without entries the loop of [Set] creates the
    mappings it needs and ends without an error. *)
Lemma Set_walk_empty parts : ∀ h l seen path v,
  parts ≠ [] → h !! l = Some ∅ →
  ∃ h', Set_walk h (VMap l) seen parts path v = Ok (h', None).
Proof.
  induction parts as [|p [|q ps] IH]; intros h l seen path v Hne Hl; [done|..].
  - cbn -[setElement]. unfold setElement, SetMapIndex. rewrite Hl.
    destruct v; cbn; eauto.
  - rewrite Set_walk_step. cbn -[setElement Set_walk].
    unfold mapIndex, map_at. rewrite Hl. cbn -[setElement Set_walk].
    assert (l ≠ fresh (dom h)) as Hfresh by (apply fresh_not_allocated; eauto).
    rewrite (setElement_map_Some _ _ ∅)
      by (done || by rewrite lookup_insert_ne).
    cbn -[Set_walk]. apply IH; [done|].
    by rewrite lookup_insert_ne, lookup_insert_eq.
Qed.

(** What the loop of [Set] leaves alone: every map object that was there,
    but the last one the walk reads; and all of them when it reports an
    error. *)
Lemma Set_walk_frame parts : ∀ h d seen path v h' err,
  allocated h (visited h d parts) →
  Set_walk h d seen parts path v = Ok (h', err) →
  (∀ l, is_Some (h !! l) → last (visited h d parts) ≠ Some l →
        h' !! l = h !! l) ∧
  (err ≠ None → ∀ l, is_Some (h !! l) → h' !! l = h !! l).
Proof.
  induction parts as [|p [|q ps] IH]; intros h d seen path v h' err Hal Hset.
  - simpl in Hset. by injection Hset as <- <-.
  - cbn -[setElement] in Hset.
    destruct (is_container d) eqn:Hd; cbn -[setElement] in Hset;
      [|by injection Hset as <- <-].
    destruct d as [| |cap els|l]; try done.
    + unfold setElement in Hset.
      destruct (Atoi p) as [idx|]; [|by injection Hset as <- <-].
      destruct (idx <? 0); [by injection Hset as <- <-|].
      destruct (Z.of_nat cap <=? idx); [by injection Hset as <- <-|done].
    + apply Forall_cons_1 in Hal as [[m Hl] _].
      unfold setElement, SetMapIndex in Hset. rewrite Hl in Hset.
      assert (h' = <[l := write p v m]> h ∧ err = None) as [-> ->]
        by (destruct v; by injection Hset as <- <-).
      split; [|done]. intros l' _ Hl'. simpl in Hl'.
      apply lookup_insert_ne. by intros ->.
  - rewrite Set_walk_step in Hset.
    destruct (is_container d) eqn:Hd; cbn -[setElement Set_walk] in Hset;
      [|by injection Hset as <- <-].
    change (visited h d (p :: q :: ps)) with
      (match d with VMap l => [l] | _ => [] end
       ++ visited h (getElement h d p) (q :: ps)) in *.
    apply Forall_app in Hal as [Hal1 Hal2].
    destruct (IsValid (getElement h d p)) eqn:He.
    + destruct (IH _ _ _ _ _ _ _ Hal2 Hset) as [Hframe Herr].
      split; [|done]. intros l Hl Hlast. apply Hframe; [done|].
      intros Hlast'. apply Hlast. rewrite last_app, Hlast'. done.
    + apply IsValid_false in He. rewrite He, visited_nil, app_nil_r in *.
      set (ln := fresh (dom h)) in *.
      destruct d as [| |cap els|ld]; try done.
      * unfold setElement in Hset.
        destruct (Atoi p) as [idx|]; cbn in Hset;
          [|injection Hset as <- <-; split; intros;
            apply lookup_insert_ne; by apply not_eq_sym, fresh_not_allocated].
        destruct (idx <? 0); cbn in Hset;
          [injection Hset as <- <-; split; intros;
           apply lookup_insert_ne; by apply not_eq_sym, fresh_not_allocated|].
        destruct (Z.of_nat cap <=? idx); cbn in Hset; [|done].
        injection Hset as <- <-; split; intros;
          apply lookup_insert_ne; by apply not_eq_sym, fresh_not_allocated.
      * apply Forall_singleton in Hal1 as [md Hld].
        assert (ld ≠ ln) as Hne by (apply fresh_not_allocated; eauto).
        rewrite (setElement_map_Some _ _ md) in Hset
          by (done || by rewrite lookup_insert_ne).
        cbn -[Set_walk] in Hset.
        set (h2 := <[ld := <[p := VMap ln]> md]> (<[ln := ∅]> h)) in *.
        assert (h2 !! ln = Some ∅) as Hln.
        { unfold h2. by rewrite lookup_insert_ne, lookup_insert_eq. }
        destruct (IH h2 (VMap ln) _ _ _ _ _
                    ltac:(rewrite (visited_empty _ _ _ _ Hln);
                          apply Forall_singleton; eauto) Hset)
          as [Hframe Herr].
        rewrite (visited_empty _ _ _ _ Hln) in Hframe.
        assert (∀ l, is_Some (h !! l) → l ≠ ld → h' !! l = h !! l) as Hold.
        { intros l Hl Hlne.
          assert (l ≠ ln) by by apply fresh_not_allocated.
          rewrite Hframe.
          - unfold h2. by rewrite !lookup_insert_ne.
          - unfold h2. by rewrite !lookup_insert_ne.
          - simpl. by intros [= ->]. }
        split.
        -- intros l Hl Hlast. apply Hold; [done|]. intros ->. by apply Hlast.
        -- intros Hne' l Hl. destruct (decide (l = ld)) as [->|]; [|by apply Hold].
           (* no error after the map was created *)
           destruct (Set_walk_empty (q :: ps) h2 ln (seen ++ [p]) path v)
             as [h'' Hok]; [done..|]. congruence.
Qed.

Lemma last_elem_of {A} (l : list A) x : last l = Some x → x ∈ l.
Proof.
  induction l as [|a [|b l] IH]; [done|..].
  - intros [= ->]. by left.
  - intros Hl. right. by apply IH.
Qed.

(** After the loop of [Set] has ended without an error on a walk that reads
    no map object twice, the loop of [Get] finds the value along the same
    segments, or nothing when the value was nil. *)
Lemma Set_walk_Get_walk parts : ∀ h d seen path v h',
  NoDup (visited h d parts) →
  allocated h (visited h d parts) →
  Set_walk h d seen parts path v = Ok (h', None) →
  parts ≠ [] →
  Get_walk h' d parts = if IsValid v then Some v else None.
Proof.
  induction parts as [|p [|q ps] IH];
    intros h d seen path v h' Hnd Hal Hset Hne; [done|..].
  - apply Set_walk_last_any in Hset as (l & m & -> & Hl & ->); [|done].
    cbn. by rewrite mapIndex_insert_eq, write_lookup_same.
  - pose proof Hset as Hset0. rewrite Set_walk_step in Hset.
    destruct (is_container d) eqn:Hd; cbn -[setElement Set_walk] in Hset;
      [|done].
    change (Get_walk h' d (p :: q :: ps)) with
      (if IsValid (getElement h' d p)
       then Get_walk h' (getElement h' d p) (q :: ps) else None).
    change (visited h d (p :: q :: ps)) with
      (match d with VMap l => [l] | _ => [] end
       ++ visited h (getElement h d p) (q :: ps)) in *.
    apply NoDup_app in Hnd as (_ & Hdis & Hnd2).
    apply Forall_app in Hal as [Hal1 Hal2].
    destruct (IsValid (getElement h d p)) eqn:He.
    + assert (getElement h' d p = getElement h d p) as ->.
      { destruct d as [| |cap els|ld]; try done. simpl.
        apply (proj1 (Forall_singleton _ _)) in Hal1.
        destruct (Set_walk_frame _ _ _ _ _ _ _ _ Hal2 Hset) as [Hframe _].
        unfold mapIndex, map_at. rewrite Hframe; [done|exact Hal1|].
        intros Hlast%last_elem_of. apply (Hdis ld); [by left|done]. }
      rewrite He. by eapply IH.
    + apply IsValid_false in He. rewrite He, ?visited_nil, ?app_nil_r in *.
      set (ln := fresh (dom h)) in *.
      destruct d as [| |cap els|ld]; try done.
      { destruct (setElement _ (VSlice cap els) p _) as [[h1 [m|]]| |] eqn:Hs;
          cbn -[Set_walk] in Hset; try done.
        by apply setElement_slice in Hs. }
      apply Forall_singleton in Hal1 as [md Hld].
      assert (ld ≠ ln) as Hneq by (apply fresh_not_allocated; eauto).
      rewrite (setElement_map_Some _ _ md) in Hset
        by (done || by rewrite lookup_insert_ne).
      cbn -[Set_walk] in Hset.
      set (h2 := <[ld := <[p := VMap ln]> md]> (<[ln := ∅]> h)) in *.
      assert (h2 !! ln = Some ∅) as Hln.
      { unfold h2. by rewrite lookup_insert_ne, lookup_insert_eq. }
      assert (allocated h2 (visited h2 (VMap ln) (q :: ps))) as Hal'.
      { rewrite (visited_empty _ _ _ _ Hln). apply Forall_singleton. eauto. }
      destruct (Set_walk_frame _ _ _ _ _ _ _ _ Hal' Hset) as [Hframe _].
      rewrite (visited_empty _ _ _ _ Hln) in Hframe.
      assert (getElement h' (VMap ld) p = VMap ln) as ->.
      { simpl. unfold mapIndex, map_at. rewrite Hframe.
        - unfold h2. by rewrite lookup_insert_eq; simpl; rewrite lookup_insert_eq.
        - unfold h2. rewrite lookup_insert_eq. eauto.
        - simpl. by intros [= ->]. }
      simpl IsValid. cbv iota. eapply IH; [| |exact Hset|done].
      * rewrite (visited_empty _ _ _ _ Hln). apply NoDup_singleton.
      * done.
Qed.

Section paths_any.
Context `{Reflect}.

(** X3.  [Set] then [Get], for a path of any length.  When the walk along the
    path reads no map object twice and meets no nil map, and [Set] reports
    no error, [Get] on the same path returns the value that was set; when
    that value is nil, the entry is gone and [Get] returns its default. *)
Theorem Set_then_Get_any h c path v h' c' :
  NoDup (visited h (data c) (Split path)) →
  allocated h (visited h (data c) (Split path)) →
  Set_ h c path v = Ok (h', c', None) →
  Get h' c' path VNil = v ∧ (v = VNil → ∀ d, Get h' c' path d = d).
Proof.
  intros Hnd Hal Hset. unfold Set_ in Hset.
  assert (Get_walk h' (data c') (Split path)
          = if IsValid v then Some v else None) as Hget.
  { destruct (IsValid (data c)) eqn:Hc.
    - destruct (Set_walk h (data c) [] (Split path) path v)
        as [[h1 e]| |] eqn:Hw; cbn in Hset; try done.
      injection Hset as <- <- ->.
      eapply Set_walk_Get_walk; [done|done|exact Hw|apply Split_nonempty].
    - cbn -[Set_walk] in Hset.
      set (l0 := fresh (dom h)) in *.
      destruct (Set_walk (<[l0 := ∅]> h) (VMap l0) [] (Split path) path v)
        as [[h1 e]| |] eqn:Hw; cbn in Hset; try done.
      injection Hset as <- <- ->. simpl data.
      pose proof (Split_nonempty path) as Hne.
      destruct (Split path) as [|p ps] eqn:Hsp; [done|].
      assert ((<[l0 := ∅]> h) !! l0 = Some ∅) as Hl0
        by by rewrite lookup_insert_eq.
      eapply Set_walk_Get_walk; [| |exact Hw|done];
        rewrite (visited_empty _ _ _ _ Hl0);
        [apply NoDup_singleton | apply Forall_singleton; eauto]. }
  unfold Get. rewrite Hget. split.
  - by destruct v.
  - by intros ->.
Qed.

(** X4.  On a configuration without data, [Set] succeeds for every path and
    every value, whatever the store holds, and [Get] then returns the
    value. *)
Theorem Set_on_new h c path v :
  data c = VNil →
  ∃ h' c', Set_ h c path v = Ok (h', c', None) ∧ Get h' c' path VNil = v.
Proof.
  intros Hc. unfold Set_. rewrite Hc. cbn -[Set_walk].
  set (l0 := fresh (dom h)).
  assert ((<[l0 := ∅]> h) !! l0 = Some ∅) as Hl0 by by rewrite lookup_insert_eq.
  destruct (Set_walk_empty (Split path) _ l0 [] path v (Split_nonempty path) Hl0)
    as [h' Hw].
  rewrite Hw. cbn. eexists _, _. split; [done|].
  unfold Get. simpl data.
  pose proof (Split_nonempty path) as Hne.
  destruct (Split path) as [|p ps] eqn:Hsp; [done|].
  assert (NoDup (visited (<[l0 := ∅]> h) (VMap l0) (p :: ps))) as Hnd
    by (rewrite (visited_empty _ _ _ _ Hl0); apply NoDup_singleton).
  assert (allocated (<[l0 := ∅]> h)
            (visited (<[l0 := ∅]> h) (VMap l0) (p :: ps))) as Hal
    by (rewrite (visited_empty _ _ _ _ Hl0); apply Forall_singleton; eauto).
  rewrite (Set_walk_Get_walk _ _ _ _ _ _ _ Hnd Hal Hw Hne). by destruct v.
Qed.

(** X5.  What [Set] leaves alone.  Of the map objects that were in the store,
    [Set] changes at most the last one its walk reads; when it reports an
    error it has changed none of them.  It never changes the registry, nor
    the root of a configuration that had data. *)
Theorem Set_frame h c path v h' c' err :
  allocated h (visited h (data c) (Split path)) →
  Set_ h c path v = Ok (h', c', err) →
  (∀ l, is_Some (h !! l) →
        last (visited h (data c) (Split path)) ≠ Some l →
        h' !! l = h !! l) ∧
  (err ≠ None → ∀ l, is_Some (h !! l) → h' !! l = h !! l) ∧
  types c' = types c ∧
  (data c ≠ VNil → data c' = data c).
Proof.
  intros Hal Hset. unfold Set_ in Hset.
  destruct (IsValid (data c)) eqn:Hc.
  - destruct (Set_walk h (data c) [] (Split path) path v)
      as [[h1 e]| |] eqn:Hw; cbn in Hset; try done.
    injection Hset as <- <- <-.
    destruct (Set_walk_frame _ _ _ _ _ _ _ _ Hal Hw) as [Hframe Herr].
    by split_and!.
  - cbn -[Set_walk] in Hset. apply IsValid_false in Hc.
    set (l0 := fresh (dom h)) in *.
    destruct (Set_walk (<[l0 := ∅]> h) (VMap l0) [] (Split path) path v)
      as [[h1 e]| |] eqn:Hw; cbn in Hset; try done.
    injection Hset as <- <- <-.
    assert ((<[l0 := ∅]> h) !! l0 = Some ∅) as Hl0
      by by rewrite lookup_insert_eq.
    pose proof (Split_nonempty path) as Hne.
    destruct (Split path) as [|p ps] eqn:Hsp; [done|].
    assert (allocated (<[l0 := ∅]> h)
              (visited (<[l0 := ∅]> h) (VMap l0) (p :: ps))) as Hal'.
    { rewrite (visited_empty _ _ _ _ Hl0). apply Forall_singleton. eauto. }
    destruct (Set_walk_frame _ _ _ _ _ _ _ _ Hal' Hw) as [Hframe Herr].
    rewrite (visited_empty _ _ _ _ Hl0) in Hframe.
    assert (∀ l, is_Some (h !! l) → h1 !! l = h !! l) as Hold.
    { intros l Hl. assert (l ≠ l0) by by apply fresh_not_allocated.
      rewrite Hframe; [by rewrite lookup_insert_ne| |simpl; by intros [= ->]].
      by rewrite lookup_insert_ne. }
    split_and!; [by intros; apply Hold|by intros; apply Hold|done|done].
Qed.

End paths_any.

Lemma paths_witness_heap_walk :
  visited get_heap (VMap 1%positive) (Split "d.d3.d4")
  = [1%positive; 2%positive; 3%positive].
Proof. reflexivity. Qed.

Lemma Set_then_Get_any_witness :
  ∃ h' c',
    Set_ get_heap {| data := VMap 1%positive; types := ∅ |} "d.d3.d4"
      (VPrim (PFloat 5)) = Ok (h', c', None) ∧
    Get h' c' "d.d3.d4" VNil = VPrim (PFloat 5).
Proof.
  destruct (Set_ get_heap {| data := VMap 1%positive; types := ∅ |} "d.d3.d4"
              (VPrim (PFloat 5))) as [[[h' c'] [e|]]| |] eqn:Hset;
    [vm_compute in Hset; discriminate| |vm_compute in Hset; discriminate..].
  exists h', c'. split; [reflexivity|].
  apply (Set_then_Get_any get_heap {| data := VMap 1%positive; types := ∅ |}
           "d.d3.d4" (VPrim (PFloat 5)) h' c'); [| |exact Hset].
  - cbn [data]. rewrite paths_witness_heap_walk.
    by apply (bool_decide_unpack _).
  - unfold allocated. cbn [data]. rewrite paths_witness_heap_walk.
    by apply (bool_decide_unpack _).
Defined.

Lemma Set_on_new_witness :
  ∃ h' c', Set_ ∅ New "a.b.c" VNil = Ok (h', c', None) ∧
           Get h' c' "a.b.c" VNil = VNil.
Proof. apply (Set_on_new ∅ New "a.b.c" VNil). reflexivity. Defined.

Lemma Set_frame_witness :
  ∃ h' c',
    Set_ get_heap {| data := VMap 1%positive; types := ∅ |} "d.d3.d4"
      (VPrim (PFloat 5)) = Ok (h', c', None) ∧
    h' !! 2%positive = get_heap !! 2%positive.
Proof.
  destruct (Set_ get_heap {| data := VMap 1%positive; types := ∅ |} "d.d3.d4"
              (VPrim (PFloat 5))) as [[[h' c'] [e|]]| |] eqn:Hset;
    [vm_compute in Hset; discriminate| |vm_compute in Hset; discriminate..].
  exists h', c'. split; [reflexivity|].
  destruct (Set_frame get_heap {| data := VMap 1%positive; types := ∅ |}
              "d.d3.d4" (VPrim (PFloat 5)) h' c' None) as [Hframe _];
    [|exact Hset|].
  - unfold allocated. cbn [data]. rewrite paths_witness_heap_walk.
    by apply (bool_decide_unpack _).
  - apply Hframe; [by eexists|].
    cbn [data]. rewrite paths_witness_heap_walk. discriminate.
Defined.

(** The walk of [Set] up to a slice: the last segment is handed to
    [setElement] on that slice. *)
Lemma Set_walk_slice h pre : ∀ d seen p path v cap els,
  resolve h d pre = VSlice cap els →
  Set_walk h d seen (pre ++ [p]) path v
  = '(h', err) ← setElement h (VSlice cap els) p v;
    match err with
    | Some m => Ok (h', Some {| cpe_Path := path; cpe_Message := m |})
    | None => Ok (h', None)
    end.
Proof.
  induction pre as [|x pre IH]; intros d seen p path v cap els Hres.
  - simpl in Hres. subst d. reflexivity.
  - cbn [app resolve] in Hres.
    assert (getElement h d x ≠ VNil) as Hx.
    { intros Hnil. by rewrite Hnil, resolve_nil in Hres. }
    assert (is_container d = true) as Hd by (by destruct d).
    change ((x :: pre) ++ [p]) with (x :: (pre ++ [p])).
    destruct (pre ++ [p]) as [|y ys] eqn:Hps; [by destruct pre|].
    rewrite Set_walk_step, Hd. cbn -[getElement Set_walk setElement].
    rewrite IsValid_true by done. rewrite <-Hps. by apply IH.
Qed.

(** X6.  [Set] cannot store into a slice.  When the segments before the last
    lead to a slice, the last segment is taken as an index: one that is no
    number or is negative, and one at or past the capacity, are reported
    on the whole path and nothing is changed; an index within the capacity
    reaches [SetLen] on a slice that is not addressable, which panics. *)
Theorem Set_into_slice h c path pre p cap els v :
  Split path = pre ++ [p] →
  resolve h (data c) pre = VSlice cap els →
  Set_ h c path v =
  match Atoi p with
  | None =>
      Ok (h, c, Some {| cpe_Path := path; cpe_Message := NotAnIndex p |})
  | Some idx =>
      if idx <? 0 then
        Ok (h, c, Some {| cpe_Path := path; cpe_Message := NotAnIndex p |})
      else if Z.of_nat cap <=? idx then
        Ok (h, c, Some {| cpe_Path := path;
                          cpe_Message := OutOfSliceBound p |})
      else Panic "reflect.Value.SetLen using unaddressable value"
  end.
Proof.
  intros Hsplit Hres. unfold Set_.
  rewrite IsValid_true by (intros Hnil; by rewrite Hnil, resolve_nil in Hres).
  rewrite Hsplit, (Set_walk_slice _ _ _ _ _ _ _ cap els) by done.
  unfold setElement. destruct (Atoi p) as [idx|]; [|done].
  destruct (idx <? 0); [done|]. by destruct (Z.of_nat cap <=? idx).
Qed.

Lemma Set_into_slice_witness :
  Set_ error_heap {| data := VMap 1%positive; types := ∅ |} "A2.2"
    (VPrim (PFloat 200))
  = Ok (error_heap, {| data := VMap 1%positive; types := ∅ |},
        Some {| cpe_Path := "A2.2"; cpe_Message := OutOfSliceBound "2" |}) ∧
  Set_ error_heap {| data := VMap 1%positive; types := ∅ |} "A2.1"
    (VPrim (PFloat 200))
  = Panic "reflect.Value.SetLen using unaddressable value".
Proof.
  split.
  - by rewrite (Set_into_slice error_heap _ "A2.2" ["A2"] "2" 2
                  [VPrim (PFloat 1); VPrim (PFloat 2)]).
  - by rewrite (Set_into_slice error_heap _ "A2.1" ["A2"] "1" 2
                  [VPrim (PFloat 1); VPrim (PFloat 2)]).
Defined.

Lemma walk_entries_nil h parts : walk_entries h VNil parts = [].
Proof. induction parts as [|p ps IH]; [done|]. simpl. apply IH. Qed.

Lemma walk_entries_visited h parts : ∀ d,
  (walk_entries h d parts).*1 = visited h d parts.
Proof.
  induction parts as [|p ps IH]; intros d; [done|]. simpl.
  rewrite fmap_app, IH. by destruct d.
Qed.

Lemma walk_entries_empty h l p ps :
  h !! l = Some ∅ → walk_entries h (VMap l) (p :: ps) = [(l, p)].
Proof.
  intros Hl. simpl. unfold mapIndex, map_at. rewrite Hl. simpl.
  by rewrite lookup_empty, walk_entries_nil.
Qed.

Lemma mapIndex_write h l m p v k :
  k ≠ p → mapIndex (<[l := write p v m]> h) l k = default VNil (m !! k).
Proof.
  intros Hk. rewrite mapIndex_insert_eq. unfold write.
  destruct v; by rewrite ?lookup_delete_ne, ?lookup_insert_ne.
Qed.

(** Of the entries that were in the store, the loop of [Set] changes at
    most the last one its walk reads. *)
Lemma Set_walk_frame_entries parts : ∀ h d seen path v h' err,
  allocated h (visited h d parts) →
  Set_walk h d seen parts path v = Ok (h', err) →
  ∀ l k, is_Some (h !! l) → last (walk_entries h d parts) ≠ Some (l, k) →
         mapIndex h' l k = mapIndex h l k.
Proof.
  induction parts as [|p [|q ps] IH];
    intros h d seen path v h' err Hal Hset l k Hl Hlast.
  - simpl in Hset. by injection Hset as <- <-.
  - destruct (Set_walk_frame [p] _ _ _ _ _ _ _ Hal Hset) as [Hframe _].
    destruct (decide (last (visited h d [p]) = Some l)) as [Hv|Hv];
      [|unfold mapIndex, map_at; by rewrite Hframe].
    destruct d as [| |cap els|ld]; try done. simpl in Hv, Hlast.
    injection Hv as ->.
    cbn -[setElement] in Hset. unfold setElement, SetMapIndex in Hset.
    destruct (h !! l) as [m|] eqn:Hm; [|done].
    assert (h' = <[l := write p v m]> h) as ->
      by (destruct v; by injection Hset as <- <-).
    rewrite mapIndex_write by (intros ->; by apply Hlast).
    unfold mapIndex, map_at. by rewrite Hm.
  - pose proof Hset as Hset0. rewrite Set_walk_step in Hset.
    destruct (is_container d) eqn:Hd; cbn -[setElement Set_walk] in Hset;
      [|by injection Hset as <- <-].
    change (visited h d (p :: q :: ps)) with
      (match d with VMap l => [l] | _ => [] end
       ++ visited h (getElement h d p) (q :: ps)) in *.
    change (walk_entries h d (p :: q :: ps)) with
      (match d with VMap l => [(l, p)] | _ => [] end
       ++ walk_entries h (getElement h d p) (q :: ps)) in *.
    apply Forall_app in Hal as [Hal1 Hal2].
    destruct (IsValid (getElement h d p)) eqn:He.
    + eapply IH; [exact Hal2|exact Hset|done|].
      intros Hlast'. apply Hlast. by rewrite last_app, Hlast'.
    + apply IsValid_false in He.
      rewrite He, ?visited_nil, ?walk_entries_nil, ?app_nil_r in *.
      destruct (Set_walk_frame (p :: q :: ps) h d seen path v h' err)
        as [Hframe _]; [|done|].
      { change (visited h d (p :: q :: ps)) with
          (match d with VMap l => [l] | _ => [] end
           ++ visited h (getElement h d p) (q :: ps)).
        rewrite He, visited_nil, app_nil_r. done. }
      change (visited h d (p :: q :: ps)) with
        (match d with VMap l => [l] | _ => [] end
         ++ visited h (getElement h d p) (q :: ps)) in Hframe.
      rewrite He, visited_nil, app_nil_r in Hframe.
      destruct d as [| |cap els|ld]; try done.
      { unfold mapIndex, map_at. by rewrite Hframe. }
      destruct (decide (l = ld)) as [->|Hne];
        [|unfold mapIndex, map_at; rewrite Hframe; [done..|];
          simpl; by intros [= ->]].
      simpl in Hlast.
      set (ln := fresh (dom h)) in *.
      apply (proj1 (Forall_singleton _ _)) in Hal1 as [md Hld].
      assert (ld ≠ ln) as Hneq by (apply fresh_not_allocated; eauto).
      rewrite (setElement_map_Some _ _ md) in Hset
        by (done || by rewrite lookup_insert_ne).
      cbn -[Set_walk] in Hset.
      set (h2 := <[ld := <[p := VMap ln]> md]> (<[ln := ∅]> h)) in *.
      assert (h2 !! ln = Some ∅) as Hln.
      { unfold h2. by rewrite lookup_insert_ne, lookup_insert_eq. }
      assert (allocated h2 (visited h2 (VMap ln) (q :: ps))) as Hal'.
      { rewrite (visited_empty _ _ _ _ Hln). apply Forall_singleton. eauto. }
      destruct (Set_walk_frame _ _ _ _ _ _ _ _ Hal' Hset) as [Hframe2 _].
      rewrite (visited_empty _ _ _ _ Hln) in Hframe2.
      unfold mapIndex, map_at. rewrite Hframe2.
      * unfold h2. rewrite lookup_insert_eq, Hld. simpl.
        rewrite lookup_insert_ne; [done|]. intros ->. by apply Hlast.
      * unfold h2. rewrite lookup_insert_eq. eauto.
      * simpl. by intros [= ->].
Qed.

(** A walk that reads only entries that are as before finds what it found
    before. *)
Lemma resolve_frame h h' parts : ∀ d,
  (∀ l k, (l, k) ∈ walk_entries h d parts →
          mapIndex h' l k = mapIndex h l k) →
  resolve h' d parts = resolve h d parts.
Proof.
  induction parts as [|p ps IH]; intros d Hsame; [done|]. simpl.
  assert (getElement h' d p = getElement h d p) as ->.
  { destruct d as [| |cap els|l]; try done. simpl.
    apply Hsame. simpl. by left. }
  apply IH. intros l k Hin. apply Hsame. simpl.
  apply elem_of_app. by right.
Qed.

Section other_paths.
Context `{Reflect}.

(** X7.  [Set] on one path and [Get] on another.  [Set] changes at most one
    entry of the map objects that were in the store: the last one that the
    walk along its path reads.  [Get] on a path whose walk does not read
    that entry returns afterwards what it returned before. *)
Theorem Set_keeps_other_paths h c path v h' c' err q :
  data c ≠ VNil →
  allocated h (visited h (data c) (Split path)) →
  allocated h (visited h (data c) (Split q)) →
  Set_ h c path v = Ok (h', c', err) →
  (∀ e, last (walk_entries h (data c) (Split path)) = Some e →
        e ∉ walk_entries h (data c) (Split q)) →
  ∀ d, Get h' c' q d = Get h c q d.
Proof.
  intros Hc Hal Halq Hset Hlast d. unfold Set_ in Hset.
  rewrite (IsValid_true _ Hc) in Hset.
  destruct (Set_walk h (data c) [] (Split path) path v)
    as [[h1 e]| |] eqn:Hw; cbn in Hset; try done.
  injection Hset as <- <- <-.
  unfold Get. rewrite !Get_walk_resolve by apply Split_nonempty.
  rewrite (resolve_frame h h1); [done|].
  intros l k Hin.
  eapply Set_walk_frame_entries; [exact Hal|exact Hw| |].
  - apply (proj1 (Forall_forall _ _) Halq).
    rewrite <-walk_entries_visited. apply list_elem_of_fmap.
    by exists (l, k).
  - intros Hl. by apply (Hlast _ Hl).
Qed.

End other_paths.

Lemma Set_keeps_other_paths_witness :
  ∃ h' c',
    Set_ set_heap {| data := VMap 1%positive; types := ∅ |} "a.c"
      (VPrim (PBool true)) = Ok (h', c', None) ∧
    Get h' c' "a.b" VNil = VPrim (PInt Int 100).
Proof.
  destruct (Set_ set_heap {| data := VMap 1%positive; types := ∅ |} "a.c"
              (VPrim (PBool true))) as [[[h' c'] [e|]]| |] eqn:Hset;
    [vm_compute in Hset; discriminate| |vm_compute in Hset; discriminate..].
  exists h', c'. split; [reflexivity|].
  rewrite (Set_keeps_other_paths set_heap
             {| data := VMap 1%positive; types := ∅ |} "a.c"
             (VPrim (PBool true)) h' c' None "a.b"); [reflexivity|done| | |exact Hset|].
  - by apply (bool_decide_unpack _).
  - by apply (bool_decide_unpack _).
  - intros e [= <-]. by apply (bool_decide_unpack _).
Defined.

(** * Indexes in paths *)

Lemma digit_pretty_N_char x :
  (x < 10)%N → digit (pretty_N_char x) = Some (Z.of_N x).
Proof.
  intros Hx. rewrite <-(N2Nat.id x) in *.
  generalize dependent (N.to_nat x). intros n Hn.
  do 10 (destruct n as [|n]; [reflexivity|]). lia.
Qed.

(** The digits that [pretty_N_go] puts in front of a string count, read
    back, for the number they were made from. *)
Lemma digits_pretty_N_go x :
  ∃ k, ∀ s acc,
    digits (pretty_N_go x s) acc = digits s (acc * k + Z.of_N x).
Proof.
  induction (N.lt_wf_0 x) as [x _ IH].
  destruct (decide (0 < x)%N) as [Hpos|Hzero].
  - destruct (IH (x `div` 10)%N) as [k Hk]; [by apply N.div_lt|].
    exists (10 * k). intros s acc.
    rewrite pretty_N_go_step, Hk by done. simpl.
    rewrite digit_pretty_N_char by (by apply N.mod_lt).
    f_equal. rewrite (N.div_mod x 10) at 3 by done.
    rewrite N2Z.inj_add, N2Z.inj_mul. lia.
  - assert (x = 0%N) as -> by lia. exists 1. intros s acc.
    rewrite pretty_N_go_0. f_equal. lia.
Qed.

Lemma digit_not_sign c d :
  digit c = Some d → Ascii.eqb c "-" = false ∧ Ascii.eqb c "+" = false ∧
                     Ascii.eqb c "." = false.
Proof.
  intros Hd. split_and!; apply Ascii.eqb_neq; intros ->; by vm_compute in Hd.
Qed.

(** A string of digits that is not empty and counts for a number below
    2^63 is what [Atoi] accepts. *)
Lemma Atoi_digits s n :
  s ≠ "" → digits s 0 = Some n → n < 2 ^ 63 → 0 ≤ n → Atoi s = Some n.
Proof.
  intros Hne Hd Hn Hpos. destruct s as [|c s]; [done|].
  unfold Atoi.
  assert (∃ d, digit c = Some d) as [d Hc].
  { simpl in Hd. destruct (digit c); [eauto|done]. }
  destruct (digit_not_sign c d Hc) as (-> & -> & _).
  rewrite Hd.
  destruct (Z.leb_spec (- 2 ^ 63) n); [|lia].
  destruct (Z.ltb_spec n (2 ^ 63)); [done|lia].
Qed.

(** [Atoi] reads back what [Itoa] writes. *)
Lemma Atoi_Itoa (i : nat) : Z.of_nat i < 2 ^ 63 → Atoi (Itoa i) = Some (Z.of_nat i).
Proof.
  intros Hi. unfold Itoa, pretty, pretty_nat, pretty, pretty_N.
  destruct (decide (N.of_nat i = 0%N)) as [Hz|Hnz].
  - assert (i = 0%nat) as -> by lia. reflexivity.
  - destruct (digits_pretty_N_go (N.of_nat i)) as [k Hk].
    apply Atoi_digits; [|by rewrite Hk; simpl; rewrite nat_N_Z|done|lia].
    intros Hempty. specialize (Hk "" 0). rewrite Hempty in Hk. simpl in Hk.
    injection Hk as Hk. lia.
Qed.

Lemma Atoi_Itoa_Some (i : nat) z : Atoi (Itoa i) = Some z → z = Z.of_nat i.
Proof.
  unfold Itoa, pretty, pretty_nat, pretty, pretty_N.
  destruct (decide (N.of_nat i = 0%N)) as [Hz|Hnz].
  - assert (i = 0%nat) as -> by lia. by intros [= <-].
  - destruct (digits_pretty_N_go (N.of_nat i)) as [k Hk].
    unfold Atoi.
    destruct (pretty_N_go (N.of_nat i) "") as [|a s] eqn:Hs; [done|].
    assert (∃ da, digit a = Some da) as [da Ha].
    { specialize (Hk "" 0). rewrite Hs in Hk. simpl in Hk.
      destruct (digit a); [eauto|done]. }
    destruct (digit_not_sign a da Ha) as (-> & -> & _).
    rewrite <-Hs, Hk. simpl. rewrite nat_N_Z, Z.mul_0_l, Z.add_0_l.
    destruct ((- 2 ^ 63 <=? Z.of_nat i) && (Z.of_nat i <? 2 ^ 63)); [|done].
    by intros [= <-].
Qed.

Lemma digits_Split s : ∀ acc n, digits s acc = Some n → Split s = [s].
Proof.
  induction s as [|c s IH]; intros acc n Hd; [done|]. simpl in *.
  destruct (digit c) as [d|] eqn:Hc; [|done].
  destruct (digit_not_sign c d Hc) as (_ & _ & ->).
  by rewrite (IH _ _ Hd).
Qed.

Lemma Split_app_dot a b : Split (a +:+ "." +:+ b) = Split a ++ Split b.
Proof.
  induction a as [|c a IH]; [done|]. simpl.
  destruct (Ascii.eqb c "."); [by rewrite IH|].
  change (String.app a (String "." b)) with (a +:+ "." +:+ b). rewrite IH.
  pose proof (Split_nonempty a). by destruct (Split a).
Qed.

Lemma Split_Itoa (i : nat) : Split (Itoa i) = [Itoa i].
Proof.
  unfold Itoa, pretty, pretty_nat, pretty, pretty_N.
  destruct (decide (N.of_nat i = 0%N)); [done|].
  destruct (digits_pretty_N_go (N.of_nat i)) as [k Hk].
  eapply (digits_Split _ 0). by rewrite Hk.
Qed.

Section index.
Context `{Reflect}.

(** X8.  The element of a slice is read by [Get] under the index as
    [configureArray] writes it into paths: with a slice of the elements
    [els] under the path [path], [Get] on [path.i] returns the element at
    [i], and its default when there is none or the element is nil. *)
Theorem Get_slice_index h c path cap els (i : nat) d :
  resolve h (data c) (Split path) = VSlice cap els →
  Z.of_nat (length els) < 2 ^ 63 →
  Get h c (path +:+ "." +:+ Itoa i) VNil = default VNil (els !! i) ∧
  (els !! i = None → Get h c (path +:+ "." +:+ Itoa i) d = d).
Proof.
  intros Hres Hlen.
  assert (resolve h (data c) (Split (path +:+ "." +:+ Itoa i))
          = default VNil (els !! i)) as Hel.
  { rewrite Split_app_dot, Split_Itoa.
    assert (∀ ps v, resolve h v (ps ++ [Itoa i])
                    = getElement h (resolve h v ps) (Itoa i)) as Happ.
    { induction ps as [|p ps IH]; intros v; [done|]. simpl. apply IH. }
    rewrite Happ, Hres. simpl.
    destruct (Atoi (Itoa i)) as [z|] eqn:Hz.
    - apply Atoi_Itoa_Some in Hz as ->.
      destruct (Z.leb_spec 0 (Z.of_nat i)); [|lia].
      destruct (Z.ltb_spec (Z.of_nat i) (Z.of_nat (length els))); simpl.
      + by rewrite Nat2Z.id.
      + by rewrite (lookup_ge_None_2 els i) by lia.
    - destruct (decide (i < length els)%nat) as [Hi|Hi].
      + by rewrite Atoi_Itoa in Hz by lia.
      + by rewrite (lookup_ge_None_2 els i) by lia. }
  split.
  - unfold Get. rewrite Get_walk_resolve by apply Split_nonempty.
    rewrite Hel. by destruct (default VNil (els !! i)).
  - intros Hnone. unfold Get.
    rewrite Get_walk_resolve by apply Split_nonempty.
    by rewrite Hel, Hnone.
Qed.

End index.

Lemma Get_slice_index_witness :
  Get get_heap {| data := VMap 1%positive; types := ∅ |} ("e" +:+ "." +:+ Itoa 1)
    VNil = VPrim (PBool true).
Proof.
  apply (Get_slice_index get_heap {| data := VMap 1%positive; types := ∅ |} "e"
           4 [VPrim (PString "abc"); VPrim (PBool true); VMap 4%positive]
           1 VNil).
  - reflexivity.
  - by apply Z.ltb_lt.
Defined.

(** * Binding maps and structs *)

Section containers.
Context `{Reflect}.
Implicit Types rec : binder.

Lemma Map_loop_entries rec config path e keys : ∀ m m' calls,
  Map_loop rec config path e keys m = Bound m' calls →
  (∀ k, k ∉ keys → assoc k m' = assoc k m) ∧
  (∀ k, k ∈ keys →
     ∃ x c, rec (zero e) (gv_mapIndex config k) (path +:+ "." +:+ k)
            = Bound x c ∧
            assoc k m' = Some x).
Proof.
  induction keys as [|k0 keys IH]; intros m m' calls Hloop.
  - injection Hloop as <- <-. split; [done|]. by intros k ?%elem_of_nil.
  - simpl in Hloop.
    apply bres_bind_not_Bound in Hloop as (x0 & c1 & c2 & Hrec & Hloop & _).
    apply IH in Hloop as [Hother Hkeys]. split.
    + intros k [Hk0 Hk]%not_elem_of_cons.
      rewrite Hother by done. by apply assoc_set_ne.
    + intros k Hk. destruct (decide (k ∈ keys)) as [Hin|Hout]; [by apply Hkeys|].
      apply elem_of_cons in Hk as [->|?]; [|done].
      exists x0, c1. split; [done|]. rewrite Hother by done.
      apply assoc_set_eq.
Qed.

Lemma Map_loop_binds rec config path e keys : ∀ m,
  (∀ k, k ∈ keys →
     ∃ x c, rec (zero e) (gv_mapIndex config k) (path +:+ "." +:+ k)
            = Bound x c) →
  ∃ m' calls, Map_loop rec config path e keys m = Bound m' calls.
Proof.
  induction keys as [|k0 keys IH]; intros m Hkeys; [by eexists _, _|].
  simpl. destruct (Hkeys k0) as (x0 & c0 & ->); [by left|].
  rewrite bres_bind_Bound.
  destruct (IH (assoc_set k0 x0 m)) as (m' & calls & ->); [|by eexists _, _].
  intros k Hk. apply Hkeys. by right.
Qed.

(** X9.  Binding a map source onto a map target.  When it succeeds, the target
    is a map that is not nil, also when the source has no key; it keeps its
    entries under the keys the source does not have; and under a key of the
    source it holds the outcome of binding the source element onto a new
    zero element: what the target held under that key is replaced, not
    bound onto.  It succeeds when the element under every key of the source
    binds onto a zero element. *)
Theorem configureMap_entries rec e m config path :
  (∀ v' calls,
     configureMap rec (GMap e m) config path = Bound v' calls →
     ∃ m', v' = GMap e (Some m') ∧
       (∀ k, k ∉ gv_MapKeys config → assoc k m' = assoc k (default [] m)) ∧
       (∀ k, k ∈ gv_MapKeys config →
          ∃ x c, rec (zero e) (gv_mapIndex config k) (path +:+ "." +:+ k)
                 = Bound x c ∧
                 assoc k m' = Some x)) ∧
  ((∀ k, k ∈ gv_MapKeys config →
      ∃ x c, rec (zero e) (gv_mapIndex config k) (path +:+ "." +:+ k)
             = Bound x c) →
   ∃ v' calls, configureMap rec (GMap e m) config path = Bound v' calls).
Proof.
  unfold configureMap. split.
  - intros v' calls
      (m' & c1 & c2 & Hloop & [= <- _] & _)%bres_bind_not_Bound.
    exists m'. split; [done|]. by eapply Map_loop_entries.
  - intros Hkeys.
    destruct (Map_loop_binds rec config path e (gv_MapKeys config)
                (default [] m) Hkeys) as (m' & calls & ->).
    rewrite bres_bind_Bound. by eexists _, _.
Qed.

(** The fields the struct handler does not visit stay as they are. *)
Lemma Struct_loop_other rec c path keys name methods : ∀ fields fields' calls,
  Struct_loop rec c path keys (GStruct name methods fields)
  = Bound (GStruct name methods fields') calls →
  ∀ k, k ∉ keys ∨ k = typeKey → assoc k fields' = assoc k fields.
Proof.
  induction keys as [|k0 keys IH]; intros fields fields' calls Hloop k Hk.
  - by injection Hloop as <- <-.
  - simpl in Hloop. destruct (String.eqb_spec k0 typeKey) as [->|Hk0].
    + eapply IH; [done|]. destruct Hk as [[_ ?]%not_elem_of_cons|]; eauto.
    + destruct (assoc k0 fields) as [[[] f0]|] eqn:Hf0; try done.
      apply bres_bind_not_Bound in Hloop as (f0' & c1 & c2 & _ & Hloop & _).
      rewrite (IH _ _ _ Hloop).
      * apply assoc_set_ne.
        destruct Hk as [[? _]%not_elem_of_cons| ->]; [done|].
        by intros ->.
      * destruct Hk as [[_ ?]%not_elem_of_cons|]; eauto.
Qed.

Lemma Struct_loop_bound rec c path keys name methods :
  ∀ fields fields' calls,
  NoDup keys →
  Struct_loop rec c path keys (GStruct name methods fields)
  = Bound (GStruct name methods fields') calls →
  ∀ k, k ∈ keys → k ≠ typeKey →
    ∃ f f' c', assoc k fields = Some (true, f) ∧
               bind_field rec c path k f = Bound f' c' ∧
               assoc k fields' = Some (true, f').
Proof.
  induction keys as [|k0 keys IH];
    intros fields fields' calls Hnd Hloop k Hin Hk;
    [by apply elem_of_nil in Hin|].
  apply NoDup_cons in Hnd as [Hk0 Hnd]. simpl in Hloop.
  destruct (String.eqb_spec k0 typeKey) as [->|Hk0t].
  { apply elem_of_cons in Hin as [->|Hin]; [done|]. by eapply IH. }
  destruct (assoc k0 fields) as [[[] f0]|] eqn:Hf0; try done.
  apply bres_bind_not_Bound in Hloop as (f0' & c1 & c2 & Hbind & Hloop & _).
  apply elem_of_cons in Hin as [->|Hin].
  - exists f0, f0', c1. split_and!; [done|exact Hbind|].
    rewrite (Struct_loop_other _ _ _ _ _ _ _ _ _ Hloop) by eauto.
    apply assoc_set_eq.
  - destruct (IH _ _ _ Hnd Hloop k Hin Hk) as (f & f' & c' & Hf & Hb & Hf').
    exists f, f', c'. split_and!; [|done..].
    rewrite assoc_set_ne in Hf; [done|]. by intros ->.
Qed.

Lemma Struct_loop_binds rec c path keys name methods : ∀ fields,
  NoDup keys →
  (∀ k, k ∈ keys → k ≠ typeKey →
     ∃ f f' c', assoc k fields = Some (true, f) ∧
                bind_field rec c path k f = Bound f' c') →
  ∃ v' calls,
    Struct_loop rec c path keys (GStruct name methods fields)
    = Bound v' calls.
Proof.
  induction keys as [|k0 keys IH]; intros fields Hnd Hkeys;
    [by eexists _, _|].
  apply NoDup_cons in Hnd as [Hk0 Hnd]. simpl.
  destruct (String.eqb_spec k0 typeKey) as [->|Hk0t].
  { apply IH; [done|]. intros k Hk. apply Hkeys. by right. }
  destruct (Hkeys k0) as (f0 & f0' & c0 & -> & Hbind); [by left|done|].
  unfold bind_field in Hbind. rewrite Hbind, bres_bind_Bound.
  destruct (IH (assoc_set k0 (true, f0') fields)) as (v' & calls & ->);
    [done| |by eexists _, _].
  intros k Hk Hkt. rewrite assoc_set_ne by (by intros ->).
  apply Hkeys; [by right|done].
Qed.

(** X10.  Binding a map source onto a struct.  When it succeeds, the struct
    keeps its name, its methods and its fields in their order; a field
    that no key of the source names, and a field named "type", stay as
    they are; and a field that a key names is exported and holds the
    outcome of its bind: onto the field itself or, for a pointer field,
    onto what it points to, which is a new zero value when the pointer was
    nil.  It succeeds when every key of the source, "type" apart, names an
    exported field whose bind succeeds. *)
Theorem configureStruct_fields rec name methods fields config path :
  NoDup (gv_MapKeys config) →
  (∀ v' calls,
     configureStruct rec (GStruct name methods fields) config path
     = Bound v' calls →
     ∃ fields',
       v' = GStruct name methods fields' ∧ fields'.*1 = fields.*1 ∧
       (∀ k, k ∉ gv_MapKeys config ∨ k = typeKey →
             assoc k fields' = assoc k fields) ∧
       (∀ k, k ∈ gv_MapKeys config → k ≠ typeKey →
          ∃ f f' c', assoc k fields = Some (true, f) ∧
                     bind_field rec config path k f = Bound f' c' ∧
                     assoc k fields' = Some (true, f'))) ∧
  ((∀ k, k ∈ gv_MapKeys config → k ≠ typeKey →
      ∃ f f' c', assoc k fields = Some (true, f) ∧
                 bind_field rec config path k f = Bound f' c') →
   ∃ v' calls,
     configureStruct rec (GStruct name methods fields) config path
     = Bound v' calls).
Proof.
  unfold configureStruct. intros Hnd. split.
  - intros v' calls Hloop.
    destruct (Struct_loop_fields _ _ _ _ _ _ _ _ _ Hloop)
      as (fields' & -> & Hnames).
    exists fields'. split_and!; [done|done|..].
    + by eapply Struct_loop_other.
    + by eapply Struct_loop_bound.
  - by apply Struct_loop_binds.
Qed.

(** X11.  A key of the source that names a field that is not exported stops the
    bind of a struct: it never succeeds, and when the keys listed before
    that key bind, the error is the one of a field that cannot be set, on
    the path of the struct. *)
Theorem unexported_field_cannot_be_set rec config path name methods fields
    k f :
  k ∈ gv_MapKeys config → k ≠ typeKey → assoc k fields = Some (false, f) →
  (∀ v' calls,
     configureStruct rec (GStruct name methods fields) config path
     ≠ Bound v' calls) ∧
  (∀ keys1 keys2 v1 calls1,
     gv_MapKeys config = keys1 ++ k :: keys2 → k ∉ keys1 →
     Struct_loop rec config path keys1 (GStruct name methods fields)
     = Bound v1 calls1 →
     configureStruct rec (GStruct name methods fields) config path
     = Failed {| cve_Path := path; cve_Message := FieldCannotBeSet k |}).
Proof.
  intros Hin Hk Hf.
  assert (∀ keys1 keys2 v1 calls1,
            k ∉ keys1 →
            Struct_loop rec config path keys1 (GStruct name methods fields)
            = Bound v1 calls1 →
            Struct_loop rec config path (keys1 ++ k :: keys2)
              (GStruct name methods fields)
            = Failed {| cve_Path := path;
                        cve_Message := FieldCannotBeSet k |}) as Hstop.
  { intros keys1 keys2 v1 calls1 Hout Hloop.
    rewrite Struct_loop_app, Hloop, bres_bind_Bound.
    destruct (Struct_loop_fields _ _ _ _ _ _ _ _ _ Hloop)
      as (fields' & -> & _).
    simpl. rewrite (proj2 (String.eqb_neq _ _)) by done.
    by rewrite (Struct_loop_other _ _ _ _ _ _ _ _ _ Hloop), Hf by eauto. }
  split.
  - intros v' calls. unfold configureStruct.
    assert (∃ keys1 keys2, gv_MapKeys config = keys1 ++ k :: keys2 ∧ k ∉ keys1)
      as (keys1 & keys2 & -> & Hout).
    { clear -Hin. induction (gv_MapKeys config) as [|a l IH];
        [by apply elem_of_nil in Hin|].
      destruct (decide (a = k)) as [->|Hne].
      - exists [], l. split; [done|]. apply not_elem_of_nil.
      - apply elem_of_cons in Hin as [->|Hin]; [done|].
        destruct (IH Hin) as (k1 & k2 & -> & Hout).
        exists (a :: k1), k2. split; [done|].
        apply not_elem_of_cons. by split; [intros ->|]. }
    destruct (Struct_loop rec config path keys1 (GStruct name methods fields))
      as [v1 c1| | |] eqn:Hloop.
    + by rewrite (Hstop _ _ v1 c1).
    + by rewrite Struct_loop_app, Hloop.
    + by rewrite Struct_loop_app, Hloop.
    + by rewrite Struct_loop_app, Hloop.
  - intros keys1 keys2 v1 calls1 Hkeys Hout Hloop.
    unfold configureStruct. rewrite Hkeys. by eapply Hstop.
Qed.

End containers.

Lemma configureMap_entries_witness :
  ∃ m', GMap (TInt Int) (Some [("a0", GPrim (PInt Int 7));
                               ("a1", GPrim (PInt Int 1));
                               ("a3", GPrim (PInt Int 3))])
        = GMap (TInt Int) (Some m') ∧
        assoc "a0" m' = Some (GPrim (PInt Int 7)).
Proof.
  destruct (configureMap_entries (configure (H := basic_Reflect) 1 ∅) (TInt Int)
              (Some [("a0", GPrim (PInt Int 7)); ("a1", GPrim (PInt Int 9))])
              (GMap TAny (Some [("a1", json_number 1); ("a3", json_number 3)]))
              "") as [Hentries _].
  destruct (Hentries
              (GMap (TInt Int) (Some [("a0", GPrim (PInt Int 7));
                                      ("a1", GPrim (PInt Int 1));
                                      ("a3", GPrim (PInt Int 3))]))
              [] ltac:(vm_compute; reflexivity)) as (m' & Hm' & Hother & _).
  exists m'. split; [exact Hm'|].
  rewrite Hother; [reflexivity|]. by apply (bool_decide_unpack _).
Defined.

Lemma configureStruct_fields_witness :
  ∃ fields', D "abc" "123" = GStruct "D" ["Foo"] fields' ∧
             assoc "E2" fields' = Some (true, GPrim (PString "123")).
Proof.
  destruct (configureStruct_fields (configure (H := basic_Reflect) 1 ∅) "D" ["Foo"]
              [("E1", (true, GPrim (PString "xyz")));
               ("E2", (true, GPrim (PString "123")))]
              (GMap TAny (Some [("type", json_string "C1");
                                ("E1", json_string "abc")]))
              "") as [Hfields _]; [by apply (bool_decide_unpack _)|].
  destruct (Hfields (D "abc" "123") [] ltac:(vm_compute; reflexivity))
    as (fields' & Hv & _ & Hother & _).
  exists fields'. split; [exact Hv|].
  rewrite Hother; [reflexivity|]. left. by apply (bool_decide_unpack _).
Defined.

Lemma unexported_field_cannot_be_set_witness :
  configureStruct (configure 1 ∅)
    (GStruct "T" [] [("A", (true, GPrim (PInt Int 0)));
                     ("b", (false, GPrim (PInt Int 0)))])
    (GMap TAny (Some [("A", json_number 1); ("b", json_number 2)])) "app"
  = Failed {| cve_Path := "app"; cve_Message := FieldCannotBeSet "b" |}.
Proof.
  apply (proj2 (unexported_field_cannot_be_set (configure (H := basic_Reflect) 1 ∅)
                  (GMap TAny (Some [("A", json_number 1); ("b", json_number 2)]))
                  "app" "T" []
                  [("A", (true, GPrim (PInt Int 0)));
                   ("b", (false, GPrim (PInt Int 0)))]
                  "b" (GPrim (PInt Int 0))
                  ltac:(by apply (bool_decide_unpack _))
                  ltac:(discriminate) eq_refl)
           ["A"] []
           (GStruct "T" [] [("A", (true, GPrim (PInt Int 1)));
                            ("b", (false, GPrim (PInt Int 0)))]) []);
    [reflexivity | by apply (bool_decide_unpack _) | vm_compute; reflexivity].
Defined.

(** * Interfaces, pointers and null *)

Section interfaces.
Context `{Reflect}.

(** A slot that [indirect] does not look into: one that does not hold a
    pointer that is not nil. *)
Lemma indirect_interface name methods x :
  (∀ e y, x ≠ Some (GPtr e (Some y))) →
  indirect (GInterface name methods x) = (GInterface name methods x, λ y, y).
Proof.
  intros Hx. destruct x as [[|e [y|]| | | | |]|]; try done.
  by destruct (Hx e y).
Qed.

(** X12.  Binding onto an empty interface ([interface{}]) that does not hold a
    pointer stores the source as it is, out of the interfaces and pointers
    around it: there is no conversion, no recursion and, also for a map
    with a "type" entry, no provider is looked up; a null source leaves
    the interface nil. *)
Theorem empty_interface_takes_source fuel types name x config path :
  (∀ e y, x ≠ Some (GPtr e (Some y))) →
  configure (S fuel) types (GInterface name [] x) config path
  = Bound (GInterface name [] (config ≫= Elem_loop)) [].
Proof.
  intros Hx. simpl. unfold configure_body.
  rewrite indirect_interface by done.
  destruct (config ≫= Elem_loop) as [c|]; [|done].
  by destruct (type_Kind (typeof c)).
Qed.

(** X13.  Binding a map source onto an interface slot that has methods and does
    not already hold a pointer, by the "type" entry of the source.  A
    source without the entry, or with null under it, and one whose entry is
    no string, are rejected on the path of the slot.  A registered provider
    that needs an argument (a variadic last one is not needed) makes the
    call panic.  So does a provider whose object is neither a pointer that
    is not nil nor an interface that holds one.  Otherwise the provider is
    called once, before any field is bound; the bind is rejected when the
    pointer to the value that [indirect] reaches in the object does not
    have the methods of the slot; it panics when the type of the object
    itself does not have them; and else the slot receives the object, with
    the fields of that value bound from the source, whatever the slot held
    before. *)
Theorem interface_by_type fuel types name m methods x config c path :
  (∀ e y, x ≠ Some (GPtr e (Some y))) →
  config ≫= Elem_loop = Some c →
  type_Kind (typeof c) = KMap →
  (gv_mapIndex c typeKey = None →
   configure (S fuel) types (GInterface name (m :: methods) x) config path
   = Failed {| cve_Path := path; cve_Message := MissingType |}) ∧
  (∀ y, gv_mapIndex c typeKey = Some y → (∀ tk, y ≠ GPrim (PString tk)) →
   configure (S fuel) types (GInterface name (m :: methods) x) config path
   = Failed {| cve_Path := path; cve_Message := TypeMustBeString |}) ∧
  (∀ tk builder,
     gv_mapIndex c typeKey = Some (GPrim (PString tk)) →
     types !! tk = Some builder →
     (needed_args builder ≠ 0%nat →
      configure (S fuel) types (GInterface name (m :: methods) x) config path
      = Panicked "reflect: Call with too few input arguments") ∧
     (∀ object rest,
        needed_args builder = 0%nat → Call builder = object :: rest →
        (∀ e, object = GPtr e None →
           configure (S fuel) types (GInterface name (m :: methods) x)
             config path
           = Panicked "reflect.Value.Set using unaddressable value") ∧
        ((∀ e p, object ≠ GPtr e p) →
         (∀ n ms e s, object ≠ GInterface n ms (Some (GPtr e (Some s)))) →
           configure (S fuel) types (GInterface name (m :: methods) x)
             config path
           = Panicked "reflect.Value.Addr of unaddressable value") ∧
        (∀ e s,
           object = GPtr e (Some s) ∨
           (∃ n ms, object = GInterface n ms (Some (GPtr e (Some s)))) →
           configure (S fuel) types (GInterface name (m :: methods) x)
             config path
           = if negb (Implements (Addr_methods (indirect s).1)
                        (m :: methods)) then
               Failed {| cve_Path := path;
                         cve_Message :=
                           NotImplement (typeof (indirect s).1)
                             (TInterface name (m :: methods)) |}
             else if negb (Implements (Type_methods object)
                             (m :: methods)) then
               Panicked "reflect.Set: value is not assignable"
             else
               match configureStruct (configure fuel types)
                       (indirect s).1 c path with
               | Bound s' calls =>
                   Bound (GInterface name (m :: methods)
                            (Some (GPtr e (Some ((indirect s).2 s')))))
                     (tk :: calls)
               | r => r
               end))).
Proof.
  intros Hx Hc Hmap.
  assert (configure (S fuel) types (GInterface name (m :: methods) x)
            config path
          = configureInterface (configure fuel types) types
              (GInterface name (m :: methods) x) c path) as ->.
  { rewrite (configure_map _ _ _ _ c) by done.
    rewrite indirect_interface by done. cbn [fst snd typeof type_Kind].
    by destruct (configureInterface (configure fuel types) types
                   (GInterface name (m :: methods) x) c path). }
  split_and!.
  - intros Htk. simpl. by rewrite Htk.
  - intros y Htk Hy. simpl. rewrite Htk.
    destruct y as [[| | |tk]| | | | | |]; try done. by destruct (Hy tk).
  - intros tk builder Htk Hb. split.
    + intros Hin. unfold configureInterface. rewrite Htk, Hb.
      by destruct (Nat.eqb_spec (needed_args builder) 0).
    + intros object rest Hin Hcall.
      unfold configureInterface. rewrite Htk, Hb, Hin, Hcall.
      cbn [Nat.eqb negb]. unfold called. rewrite bres_bind_Bound.
      split_and!.
      * by intros e ->.
      * intros Hptr Hif.
        destruct object as [|e [y|]| | | | |n ms [[|e [s|]| | | | |]|]];
          try done.
        -- by destruct (Hptr e (Some y)).
        -- by destruct (Hptr e None).
        -- by destruct (Hif n ms e s).
      * intros e s Hobj.
        destruct Hobj as [->|(n & ms & ->)];
          destruct (indirect s) as [s0 k] eqn:Hs; cbn [fst snd];
          (destruct (negb (Implements (Addr_methods s0) (m :: methods)));
             [done|]);
          (destruct (negb (Implements _ (m :: methods))); [done|]);
          (destruct (configureStruct (configure fuel types) s0 c path);
             simpl; by rewrite ?app_nil_r).
Qed.

(** X14.  Binding null onto a pointer never leaves it nil: a nil pointer is
    given a new value to point to before the source is looked at, and the
    value a pointer points to is never a pointer itself when the source
    reaches it.  A nil pointer to a type that is no pointer type ends up
    pointing to the zero value of that type. *)
Theorem null_allocates_pointer fuel types e p config path :
  config ≫= Elem_loop = None →
  (∃ x, configure (S fuel) types (GPtr e p) config path
        = Bound (GPtr e (Some x)) []) ∧
  ((∀ e', e ≠ TPtr e') →
   configure (S fuel) types (GPtr e None) config path
   = Bound (GPtr e (Some (zero e))) []).
Proof.
  intros Hnull. rewrite !configure_null by done. split.
  - destruct p as [x|]; simpl.
    + destruct (indirect x) as [x' k]. simpl. unfold configureScalar.
      destruct (type_Kind (typeof x')); simpl; eauto.
    + destruct (alloc e) as [x' k]. simpl. unfold configureScalar.
      destruct (type_Kind (typeof x')); simpl; eauto.
  - intros He. simpl.
    destruct e as [|k| | |e'|n e'|e'|e'|sn fs ms|n ms]; try done;
      try (by destruct k).
    by destruct (He e').
Qed.

End interfaces.

Lemma empty_interface_takes_source_witness :
  configure 1 C1_registry (GInterface "" [] None) (Some typed_object) ""
  = Bound (GInterface "" []
             (Some (GMap TAny (Some [("type", json_string "C1");
                                     ("E1", json_string "abc")])))) [].
Proof.
  apply (empty_interface_takes_source (H := basic_Reflect) 0 C1_registry "" None
           (Some typed_object) ""). discriminate.
Defined.

Lemma interface_by_type_witness :
  let f := {| NumIn := 1; IsVariadic := true; Call := [ptr (D "" "")] |} in
  (Register New "C1" (AnyFunc f)).2 = None ∧
  configure 2 (types (Register New "C1" (AnyFunc f)).1) (C None)
    (Some typed_object) ""
  = Bound (C (Some (ptr (D "abc" "")))) ["C1"].
Proof.
  split; [reflexivity|].
  destruct (interface_by_type (H := basic_Reflect) 1
              (types (Register New "C1"
                        (AnyFunc {| NumIn := 1; IsVariadic := true;
                                    Call := [ptr (D "" "")] |})).1)
              "C" "Foo" [] None (Some typed_object)
              (GMap TAny (Some [("type", json_string "C1");
                                ("E1", json_string "abc")])) "")
    as (_ & _ & Hbuild); [discriminate|reflexivity|reflexivity|].
  destruct (Hbuild "C1" {| NumIn := 1; IsVariadic := true;
                           Call := [ptr (D "" "")] |} eq_refl eq_refl)
    as [_ Hcall].
  destruct (Hcall (ptr (D "" "")) [] eq_refl eq_refl) as (_ & _ & Hobject).
  etrans; [apply (Hobject (typeof (D "" "")) (D "" "")); by left|].
  vm_compute. reflexivity.
Defined.

Lemma null_allocates_pointer_witness :
  configure 1 ∅ (GPtr TBool None) (Some json_null) ""
  = Bound (GPtr TBool (Some (GPrim (PBool false)))) [].
Proof.
  apply (proj2 (null_allocates_pointer (H := basic_Reflect) 0 ∅ TBool None (Some json_null) ""
                  eq_refl)).
  discriminate.
Defined.

(** * Slices with room but without the length *)

Section short_slices.
Context `{Reflect}.
Implicit Types rec : binder.

Lemma Index_loop_length rec cs path : ∀ k i l l' calls,
  Index_loop rec cs path i k l = Bound l' calls → length l' = length l.
Proof.
  induction k as [|k IH]; intros i l l' calls; simpl.
  - by intros [= <- _].
  - destruct (l !! i) as [x|]; [|done]. destruct (cs !! i) as [c|]; [|done].
    intros (x' & c1 & c2 & _ & Hloop & _)%bres_bind_not_Bound.
    apply IH in Hloop. by rewrite length_insert in Hloop.
Qed.

(** The loop of [configureArray] does not get past the length of the
    target. *)
Lemma Index_loop_short rec cs path : ∀ k i l l' calls,
  (i ≤ length l < i + k)%nat →
  Index_loop rec cs path i k l ≠ Bound l' calls.
Proof.
  induction k as [|k IH]; intros i l l' calls Hlen; [lia|]. simpl.
  destruct (l !! i) as [x|] eqn:Hx; [|done].
  destruct (cs !! i) as [c|]; [|done].
  intros (x' & c1 & c2 & _ & Hloop & _)%bres_bind_not_Bound.
  apply lookup_lt_Some in Hx.
  apply IH in Hloop; [done|]. rewrite length_insert. lia.
Qed.

Lemma Index_loop_add rec cs path k1 k2 : ∀ i l,
  Index_loop rec cs path i (k1 + k2) l
  = Index_loop rec cs path i k1 l ≫= Index_loop rec cs path (i + k1) k2.
Proof.
  induction k1 as [|k1 IH]; intros i l.
  - rewrite Nat.add_0_r. simpl.
    by destruct (Index_loop rec cs path i k2 l).
  - simpl. destruct (l !! i) as [x|]; [|done].
    destruct (cs !! i) as [c|]; [|done].
    rewrite bres_bind_assoc. apply bres_bind_ext. intros x'.
    by rewrite IH, Nat.add_succ_r.
Qed.

(** X15.  A slice that has the capacity for the source but not the length is
    not grown, and binding a sequence onto it never succeeds: when its own
    elements bind, the loop goes on to index past its length, which
    panics. *)
Theorem short_slice_never_binds rec e cap l config path :
  (length l < length (elements_of config) ≤ cap)%nat →
  (∀ v calls, configureArray rec (GSlice e cap l) config path ≠ Bound v calls) ∧
  (∀ rs, length rs = length l →
         bound_elems rec path l (elements_of config) rs →
         configureArray rec (GSlice e cap l) config path
         = Panicked "reflect: index out of range").
Proof.
  intros [Hlen Hcap]. unfold configureArray.
  destruct (Nat.ltb_spec cap (length (elements_of config))); [lia|].
  cbv beta iota zeta.
  destruct (Nat.ltb_spec cap (length (elements_of config))); [lia|].
  split.
  - intros v calls (l' & c1 & c2 & Hloop & _)%bres_bind_not_Bound.
    by apply Index_loop_short in Hloop; [|lia].
  - intros rs Hrs Hbound.
    replace (length (elements_of config))
      with (length rs + S (length (elements_of config) - S (length rs)))%nat
      by lia.
    rewrite Index_loop_add, (Index_loop_from_0 _ _ _ rs) by done.
    rewrite bres_bind_Bound, drop_ge, app_nil_r by lia. simpl.
    by rewrite (lookup_ge_None_2 rs.*1) by (rewrite length_fmap; lia).
Qed.

End short_slices.

Lemma short_slice_never_binds_witness :
  configureArray (configure 1 ∅) (GSlice (TInt Int) 10 [GPrim (PInt Int 7)])
    (GSlice TAny 3 (numbers [1; 3; 2])) ""
  = Panicked "reflect: index out of range".
Proof.
  apply (proj2 (short_slice_never_binds (configure 1 ∅) (TInt Int) 10
                  [GPrim (PInt Int 7)] (GSlice TAny 3 (numbers [1; 3; 2])) ""
                  ltac:(simpl; lia)) [(GPrim (PInt Int 1), [])]);
    [reflexivity|].
  intros j r Hj. destruct j as [|j]; [|done]. injection Hj as <-.
  eexists _, _. split_and!; reflexivity.
Defined.

(** * [Configure] *)

Section Configure_props.
Context `{Reflect}.

Lemma target_check v :
  negb (bool_decide (any_Kind v = KPtr)) || any_IsNil v = false ↔
  ∃ e x, v = AnyValue (GPtr e (Some x)).
Proof.
  split.
  - destruct v as [|f|[p|e [x|]|e l|e cap l|e m|n ms fs|n ms x]]; simpl;
      try done; [by destruct p as [|[]| |]|by eauto].
  - by intros (e & x & ->).
Qed.

(** X16.  [Configure] returns a [ConfigTargetError] exactly when the target is
    not a pointer or is a nil pointer, before it looks at the path or at
    the data; the error then carries the target, and its message is never
    the empty one. *)
Theorem Configure_target fuel h c v path :
  ((∃ e, Configure fuel h c v path = NotConfigured (TargetError e)) ↔
   ¬ ∃ e x, v = AnyValue (GPtr e (Some x))) ∧
  (∀ e, Configure fuel h c v path = NotConfigured (TargetError e) →
        cte_Value e = v ∧
        (ConfigTargetError_Error e = "Unable to configure a non-pointer" ∨
         ConfigTargetError_Error e = "Unable to configure a nil pointer")).
Proof.
  unfold Configure.
  destruct (negb (bool_decide (any_Kind v = KPtr)) || any_IsNil v) eqn:Hv.
  - assert (¬ ∃ e x, v = AnyValue (GPtr e (Some x))) as Hnot.
    { intros Hp%target_check. congruence. }
    split; [split; eauto|].
    intros e [= <-]. split; [done|]. unfold ConfigTargetError_Error. simpl.
    destruct (bool_decide (any_Kind v = KPtr)); simpl in *; [|by left].
    rewrite Hv. by right.
  - apply target_check in Hv as (e & x & ->).
    assert (∀ e', Configure fuel h c (AnyValue (GPtr e (Some x))) path
                  ≠ NotConfigured (TargetError e')) as Hne.
    { intros e'. unfold Configure. simpl.
      destruct path as [|p rest]; simpl.
      - destruct (config_tree fuel h (data c)) as [config|]; [|done].
        destruct (configure _ _ _ _ _) as [| |msg|]; simpl; try done.
        by destruct (is_ValueError msg).
      - destruct (IsValid (Get h c p VNil)); [|done].
        destruct (config_tree fuel h _) as [config|]; [|done].
        destruct (configure _ _ _ _ _) as [| |msg|]; simpl; try done.
        by destruct (is_ValueError msg). }
    unfold Configure in Hne. simpl in Hne. split.
    + split; [intros [e' He']; by destruct (Hne e')|].
      intros []. eauto.
    + intros e' He'. by destruct (Hne e').
Qed.

Lemma Configure_with_path fuel h c e x p rest :
  Configure fuel h c (AnyValue (GPtr e (Some x))) (p :: rest)
  = match resolve h (data c) (Split p) with
    | VNil => NotConfigured (NoValueFound p)
    | d =>
        match config_tree fuel h d with
        | None => ConfigureNoFuel
        | Some config =>
            recovered (configure fuel (types c) (GPtr e (Some x)) config p)
        end
    end.
Proof.
  unfold Configure. simpl. unfold Get.
  rewrite Get_walk_resolve by apply Split_nonempty.
  by destruct (resolve h (data c) (Split p)).
Qed.

(** X17.  Of the paths given to [Configure] only the first counts: the others
    are never read.  When that path leads to no value, or to null, a
    target that passes the pointer check gets the [ConfigPathError] of a
    value that was not found, whatever it points to. *)
Theorem Configure_path fuel h c v p rest :
  Configure fuel h c v (p :: rest) = Configure fuel h c v [p] ∧
  ((∃ e x, v = AnyValue (GPtr e (Some x))) →
   resolve h (data c) (Split p) = VNil →
   Configure fuel h c v (p :: rest) = NotConfigured (NoValueFound p)).
Proof.
  split; [done|]. intros (e & x & ->) Hres.
  by rewrite Configure_with_path, Hres.
Qed.

End Configure_props.

(** X18.  The error that [Register] returns has one of its two messages, never
    the empty one: the one about the kind when the provider is no function,
    the one about the number of outputs otherwise. *)
Theorem Register_error_message c name provider e :
  (Register c name provider).2 = Some e →
  pe_Value e = provider ∧
  ((∀ f, provider ≠ AnyFunc f) ∧
   ProviderError_Error e
   = "The provider should be a function, got "
     +:+ Kind_String (any_Kind provider)
   ∨
   (∃ f, provider = AnyFunc f ∧ NumOut f ≠ 1%nat ∧
         ProviderError_Error e
         = "The provider should have a single output, got "
           +:+ Itoa (NumOut f))).
Proof.
  unfold Register.
  destruct provider as [|f|v].
  - simpl. intros [= <-]. by split; [|left].
  - simpl. destruct (Nat.eqb_spec (NumOut f) 1) as [Hn|Hn]; simpl; [done|].
    intros [= <-]. split; [done|]. right. exists f. split_and!; [done..|].
    unfold ProviderError_Error. simpl.
    by destruct (Nat.eqb_spec (NumOut f) 1).
  - assert (bool_decide (any_Kind (AnyValue v) = KFunc) = false) as Hk.
    { apply bool_decide_eq_false. simpl.
      destruct v as [[|k| |]| | | | | |]; try destruct k; done. }
    rewrite Hk. simpl. intros [= <-]. split; [done|]. left. split; [done|].
    unfold ProviderError_Error. simpl pe_Value. by rewrite Hk.
Qed.

Lemma Register_error_message_witness :
  ProviderError_Error {| pe_Value := AnyValue (GPrim (PString "abc")) |}
  = "The provider should be a function, got string".
Proof.
  destruct (Register_error_message New "T2" (AnyValue (GPrim (PString "abc")))
              {| pe_Value := AnyValue (GPrim (PString "abc")) |} eq_refl)
    as [_ [[_ Hmsg]|(f & Hf & _)]]; [exact Hmsg|discriminate].
Defined.

Lemma Configure_path_witness :
  Configure (H := basic_Reflect) 0 get_heap
    {| data := VMap 1%positive; types := ∅ |}
    (AnyValue (GPtr (TInt Int) (Some (GPrim (PInt Int 0))))) ["d.x"; "d"]
  = NotConfigured (NoValueFound "d.x").
Proof.
  apply (Configure_path (H := basic_Reflect) 0 get_heap
           {| data := VMap 1%positive; types := ∅ |}
           (AnyValue (GPtr (TInt Int) (Some (GPrim (PInt Int 0)))))
           "d.x" ["d"]); [by eexists _, _|vm_compute; reflexivity].
Defined.

Section Configure_scalars.
Context `{Reflect}.

(** X19.  [Configure] with a path that leads to a scalar, on a pointer to a
    scalar: the target receives the value converted to its type when the
    types are convertible, no provider is called; otherwise the error names
    the path and the two types. *)
Theorem Configure_scalar fuel h c path p q :
  resolve h (data c) (Split path) = VPrim p →
  Configure (S fuel) h c (AnyValue (GPtr (prim_type q) (Some (GPrim q))))
    [path]
  = if ConvertibleTo (prim_type p) (prim_type q)
    then Configured (GPtr (prim_type q)
                       (Some (Convert (GPrim p) (prim_type q)))) []
    else NotConfigured
           (ValueError {| cve_Path := path;
                          cve_Message :=
                            CannotConfigure (prim_type p) (prim_type q) |}).
Proof.
  intros Hres. rewrite Configure_with_path, Hres. simpl.
  unfold configure_body. simpl.
  destruct p as [b|k z|x|s]; try destruct k; simpl;
    by destruct (ConvertibleTo _ _).
Qed.

End Configure_scalars.

Lemma Configure_scalar_witness :
  Configure 1 get_heap {| data := VMap 1%positive; types := ∅ |}
    (AnyValue (GPtr (TInt Int) (Some (GPrim (PInt Int 0))))) ["d.d3.d4"]
  = Configured (GPtr (TInt Int) (Some (GPrim (PInt Int 300)))) [].
Proof.
  exact (Configure_scalar (H := basic_Reflect) 0 get_heap
           {| data := VMap 1%positive; types := ∅ |} "d.d3.d4"
           (PFloat 300) (PInt Int 0) eq_refl).
Defined.

(** [TestConfigureNested], through [Configure] on the whole data. *)
Example TestConfigureNested :
  Configure 4 nested_config_heap {| data := VMap 1%positive; types := ∅ |}
    (AnyValue (ptr nested_target)) []
  = Configured (ptr nested_bound) [].
Proof. vm_compute. reflexivity. Qed.

(** * What every bind keeps *)

Section bind_invariant.
Context `{Reflect}.
Variable types : gmap string provider.

(** A property of the outcomes of binds that started from a path, kept by
    the steps binds are made of. *)
Variable ok : ∀ A, string → bres A → Prop.
Hypothesis ok_Bound : ∀ A path (a : A), ok A path (Bound a []).
Hypothesis ok_Failed : ∀ A path m,
  ok A path (Failed {| cve_Path := path; cve_Message := m |}).
Hypothesis ok_Panicked : ∀ A path msg, ok A path (Panicked msg).
Hypothesis ok_NoFuel : ∀ A path, ok A path NoFuel.
Hypothesis ok_called : ∀ path tk,
  is_Some (types !! tk) → ok () path (called tk).
Hypothesis ok_bind : ∀ A B path (m : bres A) (f : A → bres B),
  ok A path m → (∀ a, ok B path (f a)) → ok B path (m ≫= f).
Hypothesis ok_fmap : ∀ A B path (f : A → B) (m : bres A),
  ok A path m → ok B path (f <$> m).
Hypothesis ok_sub : ∀ A path k (r : bres A),
  ok A (path +:+ "." +:+ k) r → ok A path r.

Section handlers.
Variable rec : binder.
Hypothesis ok_rec : ∀ v config path, ok gv path (rec v config path).

Lemma ok_rec_sub v config path k :
  ok gv path (rec v config (path +:+ "." +:+ k)).
Proof. apply (ok_sub _ _ k), ok_rec. Qed.

Lemma Index_loop_ok cs path : ∀ k i l,
  ok (list gv) path (Index_loop rec cs path i k l).
Proof.
  induction k as [|k IH]; intros i l; simpl; [apply ok_Bound|].
  destruct (l !! i); [|apply ok_Panicked].
  destruct (cs !! i); [|apply ok_Panicked].
  apply ok_bind; [apply ok_rec_sub|]. intros x'. apply IH.
Qed.

Lemma configureArray_ok v config path :
  ok gv path (configureArray rec v config path).
Proof.
  unfold configureArray.
  destruct v as [p|e p|e l|e cap l|e m|n ms fs|name ms x].
  - apply ok_Failed.
  - apply ok_Failed.
  - apply ok_bind; [apply Index_loop_ok|]. intros l'.
    case_match; apply ok_Bound.
  - destruct (cap <? length (elements_of config))%nat.
    + apply ok_bind; [apply Index_loop_ok|]. intros l'.
      case_match; apply ok_Bound.
    + apply ok_bind; [apply Index_loop_ok|]. intros l'.
      case_match; apply ok_Bound.
  - apply ok_Failed.
  - apply ok_Failed.
  - destruct ms; [apply ok_Bound|apply ok_Failed].
Qed.

Lemma Map_loop_ok config path e : ∀ keys m,
  ok (list (string * gv)) path (Map_loop rec config path e keys m).
Proof.
  induction keys as [|k keys IH]; intros m; simpl; [apply ok_Bound|].
  apply ok_bind; [apply ok_rec_sub|]. intros x. apply IH.
Qed.

Lemma configureMap_ok v config path :
  ok gv path (configureMap rec v config path).
Proof.
  unfold configureMap. destruct v; try apply ok_Panicked.
  apply ok_bind; [apply Map_loop_ok|]. intros m'. apply ok_Bound.
Qed.

Lemma Struct_loop_ok config path : ∀ keys v,
  ok gv path (Struct_loop rec config path keys v).
Proof.
  induction keys as [|k keys IH]; intros v; simpl; [apply ok_Bound|].
  destruct (k =? typeKey)%string; [apply IH|].
  destruct v as [| | | | |name methods fields|]; try apply ok_Panicked.
  destruct (assoc k fields) as [[[] field]|]; try apply ok_Failed.
  apply ok_bind; [|intros f'; apply IH].
  destruct field; try apply ok_rec_sub.
  apply ok_bind; [apply ok_rec_sub|]. intros x. apply ok_Bound.
Qed.

Lemma configureInterface_ok v config path :
  ok gv path (configureInterface rec types v config path).
Proof.
  unfold configureInterface.
  destruct v as [| | | | | |name [|m ms] x];
    try apply ok_Panicked; try apply ok_Bound.
  destruct (gv_mapIndex config typeKey) as [[[| | |tk]| | | | | |]|];
    try apply ok_Failed.
  destruct (types !! tk) as [builder|] eqn:Htk; [|apply ok_Failed].
  destruct (negb (needed_args builder =? 0)%nat); [apply ok_Panicked|].
  destruct (Call builder) as [|object rest]; [apply ok_Panicked|].
  apply ok_bind; [apply ok_called; eauto|]. intros _.
  assert (∀ e y have,
            ok gv path
              (let '(s, k) := indirect y in
               if negb (Implements (Addr_methods s) (m :: ms)) then
                 Failed {| cve_Path := path;
                           cve_Message :=
                             NotImplement (typeof s)
                               (typeof (GInterface name (m :: ms) x)) |}
               else if negb (Implements have (m :: ms)) then
                 Panicked "reflect.Set: value is not assignable"
               else
                 s' ← configureStruct rec s config path;
                 mret (GInterface name (m :: ms)
                         (Some (GPtr e (Some (k s'))))))) as Hobj.
  { intros e y have. destruct (indirect y) as [s k].
    destruct (negb (Implements (Addr_methods s) (m :: ms)));
      [apply ok_Failed|].
    destruct (negb (Implements have (m :: ms))); [apply ok_Panicked|].
    apply ok_bind; [apply Struct_loop_ok|]. intros s'. apply ok_Bound. }
  destruct object as [|e [y|]| | | | |n' ms' [[|e [y|]| | | | |]|]];
    try apply ok_Panicked; apply Hobj.
Qed.

Lemma configureScalar_ok v config path :
  ok gv path (configureScalar v config path).
Proof.
  unfold configureScalar. destruct config as [c|].
  - destruct v as [| | | | | |name [|m ms] x];
      try (case_match; [apply ok_Bound|apply ok_Failed]).
    apply ok_Bound.
  - case_match; apply ok_Bound.
Qed.

Lemma configure_body_ok v config path :
  ok gv path (configure_body rec types v config path).
Proof.
  unfold configure_body. destruct (indirect v) as [x k]. apply ok_fmap.
  destruct (config ≫= Elem_loop) as [c|]; [|apply configureScalar_ok].
  destruct (type_Kind (typeof c));
    try apply configureScalar_ok; try apply configureArray_ok.
  destruct (type_Kind (typeof x)); try apply ok_Failed.
  - apply configureMap_ok.
  - apply Struct_loop_ok.
  - apply configureInterface_ok.
Qed.

End handlers.

(** Every bind has the property. *)
Lemma configure_ok fuel : ∀ v config path,
  ok gv path (configure fuel types v config path).
Proof.
  induction fuel as [|fuel IH]; intros v config path; [apply ok_NoFuel|].
  simpl. by apply configure_body_ok.
Qed.

End bind_invariant.

Lemma string_app_nil_r (s : string) : s +:+ "" = s.
Proof.
  induction s as [|c s IH]; [done|].
  change (String c (s +:+ "") = String c s). by f_equal.
Qed.

Lemma string_app_assoc (a b c : string) : (a +:+ b) +:+ c = a +:+ (b +:+ c).
Proof.
  induction a as [|x a IH]; [done|].
  change (String x ((a +:+ b) +:+ c) = String x (a +:+ (b +:+ c))).
  by f_equal.
Qed.

Section bind_invariants.
Context `{Reflect}.

(** X20.  Where a bind fails, the error is reported on a path that starts with
    the path the bind started from: the error is about the target that was
    handed over, or about a part of it. *)
Theorem error_path_extends fuel types v config path e :
  configure fuel types v config path = Failed e →
  ∃ s, cve_Path e = path +:+ s.
Proof.
  revert e.
  apply (configure_ok types
           (λ A path r, ∀ e, r = Failed e → ∃ s, cve_Path e = path +:+ s)).
  - done.
  - intros A p m e [= <-]. exists "". simpl. by rewrite string_app_nil_r.
  - done.
  - done.
  - done.
  - intros A B p m f Hm Hf e. destruct m as [a c| | |]; try done.
    + rewrite bres_bind_Bound. specialize (Hf a).
      destruct (f a); try done. intros [= <-]. by apply Hf.
    + intros [= <-]. by apply Hm.
  - intros A B p f m Hm e. destruct m; try done. intros [= <-]. by apply Hm.
  - intros A p k r Hr e He. destruct (Hr e He) as [s Hs].
    exists ("." +:+ k +:+ s). rewrite Hs.
    by rewrite !string_app_assoc.
Qed.

(** X21.  The providers a bind calls are registered ones. *)
Theorem calls_are_registered fuel types v config path v' calls :
  configure fuel types v config path = Bound v' calls →
  Forall (λ name, is_Some (types !! name)) calls.
Proof.
  revert v' calls.
  apply (configure_ok types
           (λ A path r, ∀ a calls, r = Bound a calls →
                                   Forall (λ name, is_Some (types !! name))
                                     calls)).
  - by intros A p a a' calls [= _ <-].
  - done.
  - done.
  - done.
  - intros p tk Htk a calls [= _ <-]. by apply Forall_singleton.
  - intros A B p m f Hm Hf b calls
      (a & c1 & c2 & -> & Hfa & ->)%bres_bind_not_Bound.
    apply Forall_app. split; [by eapply Hm|by eapply Hf].
  - intros A B p f m Hm b calls. destruct m; try done.
    intros [= _ <-]. by eapply Hm.
  - done.
Qed.

End bind_invariants.

Lemma error_path_extends_witness :
  ∃ s, "app" = "app" +:+ s.
Proof.
  exact (error_path_extends (H := basic_Reflect) 2 ∅ (D "" "")
           (Some stray_object) "app"
           {| cve_Path := "app";
              cve_Message := FieldNotFound "X" (typeof (D "" "")) |}
           ltac:(vm_compute; reflexivity)).
Defined.

Lemma calls_are_registered_witness :
  Forall (λ name, is_Some (C1_registry !! name)) ["C1"].
Proof.
  exact (calls_are_registered (H := basic_Reflect) 2 C1_registry (C None)
           (Some typed_object) "" (C (Some (ptr (D "abc" "")))) ["C1"]
           ltac:(vm_compute; reflexivity)).
Defined.

(** * [SetData] and [LoadJSON] *)

Lemma res_foldl_app {A B} (f : A → B → res A) a l1 l2 :
  res_foldl f a (l1 ++ l2) = a' ← res_foldl f a l1; res_foldl f a' l2.
Proof.
  revert a. induction l1 as [|b l1 IH]; intros a; [done|]. simpl.
  destruct (f a b); simpl; [apply IH|done..].
Qed.

Section loading_props.
Context `{Reflect}.

Lemma SetData_snoc fuel h c ds d :
  SetData fuel h c (ds ++ [d])
  = '(h1, c1) ← SetData fuel h c ds; merge_data fuel h1 c1 d.
Proof.
  unfold SetData, merge_data. rewrite res_foldl_app.
  destruct (res_foldl _ (h, VNil) ds) as [[h1 d1]| |]; [|done..].
  cbn -[merge]. by destruct (merge fuel h1 d1 d) as [[h2 v]| |].
Qed.

(** X22.  [SetData] drops the data the configuration held and merges its values
    from left to right.  With one value, the data are that value and the
    store is as before.  With the roots of two trees that share no map
    object, the first of them a tree, the data are the root of the first
    with the second merged into it: the merged tree is held by the store
    in the map objects of the first value, which [SetData] has changed. *)
Theorem SetData_merges fuel h c t1 t2 :
  rep h t1 → rep h t2 → ordered h t2 → NoDup (locs t1) →
  (∀ x, x ∈ locs t1 → x ∈ locs t2 → False) →
  (depth t2 < fuel)%nat →
  SetData fuel h c [root t1]
  = Ok (h, {| data := root t1; types := types c |}) ∧
  ∃ h', SetData fuel h c [root t1; root t2]
        = Ok (h', {| data := root (tmerge t1 t2); types := types c |}) ∧
        rep h' (tmerge t1 t2) ∧
        (∀ x, x ∉ locs t1 → h' !! x = h !! x).
Proof.
  intros Hrep1 Hrep2 Hord Hnd Hdis Hfuel.
  destruct fuel as [|fuel]; [lia|].
  assert (SetData (S fuel) h c [root t1]
          = Ok (h, {| data := root t1; types := types c |})) as Hone by done.
  split; [done|].
  destruct (merge_tmerge t2 t1 h (S fuel)) as (h' & Hm & Hframe & Hrep & _);
    try done.
  exists h'. split_and!; [|done..].
  change [root t1; root t2] with ([root t1] ++ [root t2]).
  rewrite SetData_snoc, Hone. cbn -[merge]. unfold merge_data. cbn -[merge].
  by rewrite Hm.
Qed.

Variable error : Type.
Variable WriteCommentTrimmedTo : string → string + error.
Variable Unmarshal : heap → string → (heap * value) + error.

(** X23.  [LoadJSON] on several texts is [LoadJSON] on the first ones followed,
    unless that returned an error, by [LoadJSON] on the others; so an error
    about one text leaves the data with the earlier texts merged in, and
    the later texts unread. *)
Theorem LoadJSON_app fuel h c xs ys :
  LoadJSON error WriteCommentTrimmedTo Unmarshal fuel h c (xs ++ ys)
  = '(h1, c1, err) ← LoadJSON error WriteCommentTrimmedTo Unmarshal
                       fuel h c xs;
    match err with
    | Some e => Ok (h1, c1, Some e)
    | None => LoadJSON error WriteCommentTrimmedTo Unmarshal fuel h1 c1 ys
    end.
Proof.
  revert h c. induction xs as [|x xs IH]; intros h c.
  - simpl.
    by destruct (LoadJSON _ _ _ fuel h c ys) as [[[h1 c1] e]| |].
  - simpl. destruct (stripJSONComments _ _ x) as [x' [e|]]; [done|].
    destruct (Unmarshal h x') as [[h1 d]|e]; [|done].
    destruct (merge_data fuel h1 c d) as [[h2 c2]| |]; [|done..].
    simpl. apply IH.
Qed.

End loading_props.

Lemma SetData_merges_witness :
  ∃ h', SetData 3 nested_heap New [VMap 1%positive; VMap 2%positive]
        = Ok (h', {| data := VMap 1%positive; types := ∅ |}) ∧
        rep h' (tmerge nested_base nested_update).
Proof.
  destruct (SetData_merges (H := basic_Reflect) 3 nested_heap New
              nested_base nested_update)
    as (_ & h' & Hset & Hrep & _).
  - solve_rep.
  - solve_rep.
  - vm_compute. repeat split.
  - by apply (bool_decide_unpack _).
  - apply (proj1 (Forall_forall (λ x : loc, x ∈ locs nested_update → False)
                    (locs nested_base))).
    by apply (bool_decide_unpack _).
  - simpl. lia.
  - by exists h'.
Defined.
